(** * Cardinality estimators (PCSA, stochastic averaging, LogLog, HyperLogLog)

    A shallow embedding of [main.cc]: the bit-rank helpers of namespace
    [PCSA], the four sketch classes with their [item] and [count] methods,
    and the properties of these that the specification states.

    Conventions.
    - [uint32_t] and [unsigned] values are integers of [Z] in [0, 2^32),
      every operation that can leave the range is wrapped explicitly.
    - [double] is IEEE 754 binary64 as specified by [SpecFloat]
      ([prec = 53], [emax = 1024]), round to nearest even.
    - A method is a function from the object's fields to an outcome:
      a result with the new fields, or one of the undefined behaviours of
      C++ that the code can run into (modulo or division by zero, an array
      access out of bounds, a floating to integer conversion out of range).
    - [std::hash<string>], [murmurhash3_32] and the inexact results of
      [pow] are not code of this program: they are parameters.
    - [std::unordered_set] is a finite set; [std::mt19937] and the
      distribution of [main] are a parameter, a function from the
      generator's state to the number drawn and the next state. *)

From Stdlib Require Import ZArith Lia List String.
From Stdlib Require Import SpecFloat.
From stdpp Require Import base list.
From Stdlib Require Import Ascii.
From stdpp Require Import gmap strings pretty.

Local Open Scope Z_scope.

(** ** 32-bit unsigned arithmetic *)

Module U32.

Definition modulus : Z := 2 ^ 32.

Definition max_value : Z := modulus - 1.

Definition wrap (z : Z) : Z := z mod modulus.

Definition add (x y : Z) : Z := wrap (x + y).

Definition sub (x y : Z) : Z := wrap (x - y).

Definition mul (x y : Z) : Z := wrap (x * y).

(** [~x] *)
Definition not (x : Z) : Z := wrap (Z.lnot x).

(** [x & y] *)
Definition and (x y : Z) : Z := Z.land x y.

(** [x | y] *)
Definition or (x y : Z) : Z := Z.lor x y.

Definition in_range (x : Z) : Prop := 0 <= x < modulus.

End U32.

(** ** Outcomes *)

Inductive undefined : Type :=
  | ModuloByZero
  | DivisionByZero
  | OutOfBounds
  | ConversionOutOfRange.

Inductive outcome (A : Type) : Type :=
  | Done (a : A)
  | Undefined (u : undefined).

Arguments Done {A} a.
Arguments Undefined {A} u.

#[global] Instance outcome_ret : MRet outcome := λ A a, Done a.

#[global] Instance outcome_bind : MBind outcome :=
  λ A B f m,
    match m with
    | Done a => f a
    | Undefined u => Undefined u
    end.

(** ** Double precision arithmetic *)

Module Double.

Definition prec : Z := 53.

Definition emax : Z := 1024.

Definition double : Type := spec_float.

(** Conversion of an integer to [double] (exact below [2^53]). *)
Definition of_Z (z : Z) : double := binary_normalize prec emax z 0 false.

Definition zero : double := S754_zero false.

Definition one : double := Eval vm_compute in of_Z 1.

Definition two : double := Eval vm_compute in of_Z 2.

Definition add (x y : double) : double := SFadd prec emax x y.

Definition sub (x y : double) : double := SFsub prec emax x y.

Definition mul (x y : double) : double := SFmul prec emax x y.

Definition opp (x : double) : double := SFopp x.

Definition is_zero (x : double) : bool :=
  match x with
  | S754_zero _ => true
  | _ => false
  end.

(** [x / y]; a zero divisor is undefined behaviour in C++. *)
Definition div (x y : double) : outcome double :=
  if is_zero y then Undefined DivisionByZero
  else Done (SFdiv prec emax x y).

(** The integer part of [x], rounded toward zero. *)
Definition trunc (x : double) : option Z :=
  match x with
  | S754_zero _ => Some 0
  | S754_finite s m e =>
      Some (cond_Zopp s (if 0 <=? e then Z.shiftl (Zpos m) e
                         else Z.shiftr (Zpos m) (- e)))
  | _ => None
  end.

Definition size_t_modulus : Z := 2 ^ 64.

(** Conversion of a [double] to [size_t] (64 bits): the value is truncated,
    and the behaviour is undefined when the truncated value is not
    representable. *)
Definition to_size_t (x : double) : outcome Z :=
  match trunc x with
  | Some z =>
      if (0 <=? z) && (z <? size_t_modulus) then Done z
      else Undefined ConversionOutOfRange
  | None => Undefined ConversionOutOfRange
  end.

(** [Some n] when [y] is the integer [n]. *)
Definition integer_value (y : double) : option Z :=
  match y with
  | S754_zero _ => Some 0
  | S754_finite s m e =>
      if 0 <=? e then Some (cond_Zopp s (Z.shiftl (Zpos m) e))
      else if Z.land (Zpos m) (Z.ones (- e)) =? 0
           then Some (cond_Zopp s (Z.shiftr (Zpos m) (- e)))
           else None
  | _ => None
  end.

(** [pow(x, y)] of [<cmath>]. Where [x] is 2 and [y] an integer [n] with
    [2^n] a binary64 number, the result is that number; every other result
    is the C library's, [libm_pow]. *)
Definition pow (libm_pow : double → double → double) (x y : double) : double :=
  match (if SFeqb x two then integer_value y else None) with
  | Some n =>
      if (-1074 <=? n) && (n <=? 1023) then SFldexp prec emax one n
      else libm_pow x y
  | None => libm_pow x y
  end.

End Double.

(** ** Methods: state and undefined behaviour *)

Definition method (S A : Type) : Type := S → outcome (A * S).

#[global] Instance method_ret {S : Type} : MRet (method S) :=
  λ A a σ, Done (a, σ).

#[global] Instance method_bind {S : Type} : MBind (method S) :=
  λ A B f m σ,
    match m σ with
    | Done (a, σ') => f a σ'
    | Undefined u => Undefined u
    end.

(** A computation without access to the fields. *)
Definition pure {S A : Type} (o : outcome A) : method S A :=
  λ σ, match o with Done a => Done (a, σ) | Undefined u => Undefined u end.

(** [for (unsigned k = from; k < from + n; ++k) acc = body k acc] *)
Fixpoint for_loop {S A : Type} (n from : nat) (body : nat → A → method S A)
    (acc : A) : method S A :=
  match n with
  | O => mret acc
  | Datatypes.S n' =>
      acc' ← body from acc; for_loop n' (Datatypes.S from) body acc'
  end.

(** The driver's loop: [item] on each element of a stream, in order. *)
Fixpoint ingest {S : Type} (item : string → method S unit) (items : list string)
    : method S unit :=
  match items with
  | [] => mret tt
  | s :: rest => _ ← item s; ingest item rest
  end.

(** The states of an object: what its constructor leaves, and what [item]
    makes of a state. *)
Inductive reachable {S : Type} (init : S → Prop) (item : string → method S unit)
    : S → Prop :=
  | reachable_new σ : init σ → reachable init item σ
  | reachable_item σ s σ' :
      reachable init item σ → item s σ = Done (tt, σ') →
      reachable init item σ'.

(** Fields of the bucketed classes: the array [sketch_]. *)
Module Sketch.

Abbreviation t := (list Z) (only parsing).

(** [sketch_[k]] as an rvalue *)
Definition load (k : nat) : method t Z :=
  λ σ, match σ !! k with
       | Some v => Done (v, σ)
       | None => Undefined OutOfBounds
       end.

(** [sketch_[k] = v] *)
Definition store (k : nat) (v : Z) : method t unit :=
  λ σ, if decide (k < length σ)%nat then Done (tt, <[k := v]> σ)
       else Undefined OutOfBounds.

(** The constructors' loop [for k < M: sketch_[k] = 0]. *)
Definition clear (M : Z) : method t unit :=
  for_loop (Z.to_nat M) 0 (λ k _, store k 0) tt.

(** What the constructor of a bucketed class leaves, from any content of
    the [M] registers before it. *)
Definition constructed (construct : method t unit) (M : Z) (σ : t) : Prop :=
  ∃ mem : t, length mem = Z.to_nat M ∧ construct mem = Done (tt, σ).

(** The sketch of [M] empty registers. *)
Definition empty (M : Z) : t := replicate (Z.to_nat M) 0.

End Sketch.

(** ** namespace PCSA *)

Module PCSA.

Definition kPhi : Double.double :=
  Eval vm_compute in
    SFdiv Double.prec Double.emax (Double.of_Z 77351) (Double.of_Z 100000).

(** The number of ones among the lowest [bits] bits of [x]. *)
Fixpoint popcount (bits : nat) (x : Z) : Z :=
  match bits with
  | O => 0
  | S bits' => Z.b2z (Z.odd x) + popcount bits' (Z.div2 x)
  end.

(** [p]: [__builtin_popcount] on a 32-bit word. *)
Definition p (x : Z) : Z := popcount 32 x.

(** [R]: [~x & (x+1)] *)
Definition R (x : Z) : Z := U32.and (U32.not x) (U32.add x 1).

(** [r]: [p(R(x) - 1)] *)
Definition r (x : Z) : Z := p (U32.sub (R x) 1).

End PCSA.

(** ** class PCSACardinalityEstimator *)

Module PCSACardinalityEstimator.
Section Class.
Variable hash_ : string → Z.

(** The field [sketch_]. *)
Definition t : Type := Z.

Definition construct : method t unit := λ _, Done (tt, 0).

Definition constructed (σ : t) : Prop := ∃ mem : t, construct mem = Done (tt, σ).

Definition item (s : string) : method t unit :=
  λ sketch_, Done (tt, U32.or sketch_ (PCSA.R (U32.wrap (hash_ s)))).

Definition count : method t Z :=
  λ sketch_,
    pure (q ← Double.div (Double.of_Z (PCSA.R sketch_)) PCSA.kPhi;
          Double.to_size_t q) sketch_.

End Class.
End PCSACardinalityEstimator.

(** The bucket of an item: [murmurhash3_32(...) % M]. *)
Definition bucket (murmurhash3_32 : string → Z) (M : Z) (s : string)
    : outcome nat :=
  if M =? 0 then Undefined ModuloByZero
  else Done (Z.to_nat (U32.wrap (murmurhash3_32 s) mod M)).

(** ** class StochasticAveragingCardinalityEstimator<M> *)

Module StochasticAveragingCardinalityEstimator.
Section Class.
Variable hash_ : string → Z.
Variable murmurhash3_32 : string → Z.
Variable libm_pow : Double.double → Double.double → Double.double.
Variable M : Z.

Definition construct : method Sketch.t unit := Sketch.clear M.

Definition item (s : string) : method Sketch.t unit :=
  k ← pure (bucket murmurhash3_32 M s);
  old ← Sketch.load k;
  Sketch.store k (U32.or old (PCSA.R (U32.wrap (hash_ s)))).

Definition count : method Sketch.t Z :=
  sum ← for_loop (Z.to_nat M) 0
          (λ k sum, x ← Sketch.load k; mret (U32.add sum (PCSA.r x))) 0;
  mean ← pure (Double.div (Double.of_Z sum) (Double.of_Z M));
  pure (q ← Double.div
              (Double.mul (Double.of_Z M) (Double.pow libm_pow Double.two mean))
              PCSA.kPhi;
        Double.to_size_t q).

End Class.
End StochasticAveragingCardinalityEstimator.

(** ** class LogLogCardinalityEstimator<M> *)

Module LogLogCardinalityEstimator.
Section Class.
Variable hash_ : string → Z.
Variable murmurhash3_32 : string → Z.
Variable libm_pow : Double.double → Double.double → Double.double.
Variable M : Z.

Definition construct : method Sketch.t unit := Sketch.clear M.

Definition item (s : string) : method Sketch.t unit :=
  k ← pure (bucket murmurhash3_32 M s);
  let r := PCSA.r (U32.wrap (hash_ s)) in
  old ← Sketch.load k;
  if old <? r then Sketch.store k r else mret tt.

Definition count : method Sketch.t Z :=
  sum ← for_loop (Z.to_nat M) 0
          (λ k sum, x ← Sketch.load k; mret (U32.add sum (PCSA.R x))) 0;
  mean ← pure (Double.div (Double.of_Z sum) (Double.of_Z M));
  pure (Double.to_size_t
          (Double.mul
             (Double.mul (Double.of_Z M)
                (Double.pow libm_pow Double.two (Double.add mean Double.one)))
             PCSA.kPhi)).

End Class.
End LogLogCardinalityEstimator.

(** ** class HyperLogLogCardinalityEstimator<M> *)

Module HyperLogLogCardinalityEstimator.
Section Class.
Variable hash_ : string → Z.
Variable murmurhash3_32 : string → Z.
Variable libm_pow : Double.double → Double.double → Double.double.
Variable M : Z.

Definition construct : method Sketch.t unit := Sketch.clear M.

Definition item (s : string) : method Sketch.t unit :=
  k ← pure (bucket murmurhash3_32 M s);
  let r := PCSA.r (U32.wrap (hash_ s)) in
  old ← Sketch.load k;
  if old <? r then Sketch.store k r else mret tt.

Definition count : method Sketch.t Z :=
  sum ← for_loop (Z.to_nat M) 0
          (λ k sum, x ← Sketch.load k;
             mret (Double.add sum
                     (Double.pow libm_pow Double.two
                        (Double.sub (Double.opp Double.one) (Double.of_Z x)))))
          Double.zero;
  pure (q ← Double.div (Double.mul (Double.of_Z (U32.mul M M)) PCSA.kPhi) sum;
        Double.to_size_t q).

End Class.
End HyperLogLogCardinalityEstimator.

Module PE := PCSACardinalityEstimator.
Module SA := StochasticAveragingCardinalityEstimator.
Module LL := LogLogCardinalityEstimator.
Module HLL := HyperLogLogCardinalityEstimator.

(** ** Auxiliary definitions of the specification *)

(** The number of trailing ones of [x] among its lowest [bits] bits, which
    is the index of its least-significant cleared bit when there is one. *)
Fixpoint trailing_ones (bits : nat) (x : Z) : Z :=
  match bits with
  | O => 0
  | S bits' => if Z.odd x then 1 + trailing_ones bits' (Z.div2 x) else 0
  end.

(** The index of the register an item is routed to, for [M] other than 0. *)
Definition bucket_index (murmurhash3_32 : string → Z) (M : Z) (s : string) : nat :=
  Z.to_nat (U32.wrap (murmurhash3_32 s) mod M).

(** The new content of a bitmap register: [old | v]. *)
Definition or_update (v old : Z) : Z := U32.or old v.

(** The new content of a max-rank register: [r] when [old < r]. *)
Definition max_update (r old : Z) : Z := if old <? r then r else old.

(** The sum of [f] over the registers, as an integer without bound. *)
Definition total (f : Z → Z) (σ : list Z) : Z := foldr (λ x acc, f x + acc) 0 σ.

(** The 32-bit accumulator of [count]'s loop. *)
Definition wrapped_sum (f : Z → Z) (σ : list Z) : Z :=
  foldl (λ sum x, U32.add sum (f x)) 0 σ.

(** The term of a register in HyperLogLog's [count]: [pow(2, -1.0 - x)]. *)
Definition harmonic_term (libm_pow : Double.double → Double.double → Double.double)
    (x : Z) : Double.double :=
  Double.pow libm_pow Double.two
    (Double.sub (Double.opp Double.one) (Double.of_Z x)).

(** The [double] accumulator of HyperLogLog's [count]. *)
Definition harmonic_sum (libm_pow : Double.double → Double.double → Double.double)
    (σ : list Z) : Double.double :=
  foldl (λ sum x, Double.add sum (harmonic_term libm_pow x)) Double.zero σ.

(** The doubles above zero, infinity included, of exponent [emin] at least. *)
Definition positive_double (x : Double.double) : bool :=
  match x with
  | S754_finite false _ e => emin Double.prec Double.emax <=? e
  | S754_infinity false => true
  | _ => false
  end.

(** The doubles [x] with [2^j <= x < 2^k]. *)
Definition between (j k : Z) (x : Double.double) : bool :=
  match x with
  | S754_finite false m e => (2 ^ (j - e) <=? Zpos m) && (Zpos m <? 2 ^ (k - e))
  | _ => false
  end.

(** [x] is the double [k / 2], with a mantissa of 53 digits. *)
Definition half_of (k : Z) (x : Double.double) : Prop :=
  ∃ (q : positive) (e : Z),
    x = S754_finite false q e ∧ Zpos (digits2_pos q) = 53 ∧ -53 <= e
    ∧ Zpos q * 2 ^ (e + 53) = k * 2 ^ 52.

(** The bucket counts of the estimators that [main] creates, with the
    values that [count] returns on their empty sketches (stochastic
    averaging, LogLog, HyperLogLog). *)
Definition deployed : list (Z * (Z * Z * Z)) :=
  [(5, (6, 15, 7)); (29, (37, 89, 44)); (73, (94, 225, 112));
   (257, (332, 795, 397)); (1531, (1979, 4736, 2368))].

(** The fields after a stream, when [item] is the function [step]. *)
Definition run_steps {S : Type} (step : string → S → S) (σ : S) (items : list string) : S :=
  foldl (λ σ s, step s σ) σ items.

(** [item] of the bucketed classes as functions on the registers. *)
Definition or_step (hash_ murmurhash3_32 : string → Z) (M : Z) (s : string)
    (σ : list Z) : list Z :=
  alter (or_update (PCSA.R (U32.wrap (hash_ s)))) (bucket_index murmurhash3_32 M s) σ.

Definition max_step (hash_ murmurhash3_32 : string → Z) (M : Z) (s : string)
    (σ : list Z) : list Z :=
  alter (max_update (PCSA.r (U32.wrap (hash_ s)))) (bucket_index murmurhash3_32 M s) σ.

(** The value [count] returns, from the registers. *)
Module Estimate.
Section Estimates.
Variable libm_pow : Double.double → Double.double → Double.double.

Definition pcsa (sketch_ : Z) : outcome Z :=
  q ← Double.div (Double.of_Z (PCSA.R sketch_)) PCSA.kPhi;
  Double.to_size_t q.

Definition stochastic_averaging (M : Z) (σ : list Z) : outcome Z :=
  mean ← Double.div (Double.of_Z (wrapped_sum PCSA.r σ)) (Double.of_Z M);
  q ← Double.div
         (Double.mul (Double.of_Z M) (Double.pow libm_pow Double.two mean))
         PCSA.kPhi;
  Double.to_size_t q.

Definition loglog (M : Z) (σ : list Z) : outcome Z :=
  mean ← Double.div (Double.of_Z (wrapped_sum PCSA.R σ)) (Double.of_Z M);
  Double.to_size_t
    (Double.mul
       (Double.mul (Double.of_Z M)
          (Double.pow libm_pow Double.two (Double.add mean Double.one)))
       PCSA.kPhi).

Definition hyperloglog (M : Z) (σ : list Z) : outcome Z :=
  q ← Double.div (Double.mul (Double.of_Z (U32.mul M M)) PCSA.kPhi)
         (harmonic_sum libm_pow σ);
  Double.to_size_t q.

End Estimates.
End Estimate.

(** No register access outside the array. *)
Definition in_bounds {A : Type} (o : outcome A) : Prop := o ≠ Undefined OutOfBounds.

(** No division by zero. *)
Definition divides_safely {A : Type} (o : outcome A) : Prop :=
  o ≠ Undefined DivisionByZero.

(** [item s] alters no register other than [k]. *)
Definition touches_only {A : Type} (k : nat) (σ σ' : list A) : Prop :=
  length σ' = length σ ∧ ∀ j : nat, j ≠ k → σ' !! j = σ !! j.

(** The result of a stream does not depend on the order of its items. *)
Definition order_insensitive {S A : Type} (item : string → method S unit)
    (count : method S A) (σ : S) : Prop :=
  ∀ l1 l2 : list string,
    l1 ≡ₚ l2 →
    (∃ σ', ingest item l1 σ = Done (tt, σ') ∧ ingest item l2 σ = Done (tt, σ'))
    ∧ (ingest item l1 ≫= λ _, count) σ = (ingest item l2 ≫= λ _, count) σ.

(** An item ingested [N >= 1] times in a row counts as ingested once. *)
Definition duplicate_insensitive {S A : Type} (item : string → method S unit)
    (count : method S A) (σ : S) : Prop :=
  ∀ (s : string) (N : nat),
    (1 ≤ N)%nat →
    (∃ σ', ingest item (replicate N s) σ = Done (tt, σ')
           ∧ ingest item [s] σ = Done (tt, σ'))
    ∧ (ingest item (replicate N s) ≫= λ _, count) σ
      = (ingest item [s] ≫= λ _, count) σ.

(** Every bit set in [old] is set in [new]. *)
Definition bits_kept (old new : Z) : Prop :=
  ∀ i : Z, 0 <= i → Z.testbit old i = true → Z.testbit new i = true.

(** A bitmap register only gains bits, and does not decrease. *)
Definition bitmap_grows (old new : Z) : Prop := old <= new ∧ bits_kept old new.

(** A method that leaves the fields as they are. *)
Definition keeps_state {S A : Type} (m : method S A) : Prop :=
  ∀ (σ σ' : S) (a : A), m σ = Done (a, σ') → σ' = σ.

(** A hash function for the examples: the length of the string. *)
Definition length_hash (s : string) : Z := Z.of_nat (String.length s).

(** Two more hash functions for the examples: the word of
    [length mod 32] ones, and the number of the block of 32 lengths. *)
Definition ones_hash (s : string) : Z := 2 ^ (length_hash s mod 32) - 1.

Definition block_hash (s : string) : Z := length_hash s / 32.

(** The string of [n] characters "a". *)
Definition unary (n : nat) : string :=
  string_of_list_ascii (replicate n "a"%char).

(** The estimates as the specification words them. *)
Module Spec.
Section Estimates.
Variable libm_pow : Double.double → Double.double → Double.double.

(** [M * 2^mean / PHI], [mean] the arithmetic mean of the registers' ranks. *)
Definition stochastic_averaging_estimate (M : Z) (σ : list Z) : outcome Z :=
  mean ← Double.div (Double.of_Z (total (trailing_ones 32) σ)) (Double.of_Z M);
  q ← Double.div
         (Double.mul (Double.of_Z M) (Double.pow libm_pow Double.two mean))
         PCSA.kPhi;
  Double.to_size_t q.

(** [M * 2^(mean + 1) * PHI] for a [mean] that is the sum of [f] over the
    registers divided by [M]. *)
Definition loglog_formula (f : Z → Z) (M : Z) (σ : list Z) : outcome Z :=
  mean ← Double.div (Double.of_Z (total f σ)) (Double.of_Z M);
  Double.to_size_t
    (Double.mul
       (Double.mul (Double.of_Z M)
          (Double.pow libm_pow Double.two (Double.add mean Double.one)))
       PCSA.kPhi).

(** The specification's [mean]: of [2^(registers[k])]. *)
Definition loglog_estimate (M : Z) (σ : list Z) : outcome Z :=
  loglog_formula (λ x, 2 ^ x) M σ.

(** The code's [mean]: of [2^rank(registers[k])]. *)
Definition loglog_estimate_of_ranks (M : Z) (σ : list Z) : outcome Z :=
  loglog_formula (λ x, 2 ^ trailing_ones 32 x) M σ.

(** [M^2 * PHI / sum], [sum] of [2^(-1 - registers[k])]. *)
Definition hyperloglog_estimate (M : Z) (σ : list Z) : outcome Z :=
  q ← Double.div (Double.mul (Double.of_Z (M * M)) PCSA.kPhi)
         (harmonic_sum libm_pow σ);
  Double.to_size_t q.

End Estimates.
End Spec.

(** ** class ExactCardinalityEstimator *)

Module ExactCardinalityEstimator.

(** The field [items_], an [unordered_set<string>]. *)
Abbreviation t := (gset string) (only parsing).

Definition construct : method t unit := λ _, Done (tt, ∅).

Definition item (s : string) : method t unit :=
  λ items_, Done (tt, {[ s ]} ∪ items_).

Definition count : method t Z :=
  λ items_, Done (Z.of_nat (size items_), items_).

End ExactCardinalityEstimator.

Module EE := ExactCardinalityEstimator.

(** ** std::string, as far as [generate_random_string] uses it *)

Module StdString.

(** [resize(n)]: the first [n] characters, padded with [char()]. *)
Definition resize (n : nat) (s : string) : string :=
  string_of_list_ascii
    (take n (list_ascii_of_string s)
     ++ replicate (n - String.length s) Ascii.zero).

(** [push_back(c)] *)
Definition push_back (c : ascii) (s : string) : string :=
  s +:+ String c EmptyString.

(** The conversion of the [int] that the distribution returns to [char]. *)
Definition char_of_int (z : Z) : ascii := ascii_of_N (Z.to_N (z mod 256)).

End StdString.

(** ** generate_random_string *)

Section RandomStrings.
Variable G : Type.
Variable dis : G → Z * G.

(** [dest->push_back(dis(gen))] *)
Definition push_drawn : method (string * G) unit :=
  λ '(dest, gen),
    let '(c, gen') := dis gen in
    Done (tt, (StdString.push_back (StdString.char_of_int c) dest, gen')).

Definition generate_random_string (length : nat) : method (string * G) unit :=
  _ ← (λ '(dest, gen), Done (tt, (StdString.resize length dest, gen)));
  for_loop length 0 (λ _ _, push_drawn) tt.

(** The first [n] values of the distribution, and the generator after. *)
Fixpoint draws (n : nat) (gen : G) : list Z * G :=
  match n with
  | O => ([], gen)
  | S n' =>
      let '(c, gen') := dis gen in
      let '(cs, gen'') := draws n' gen' in
      (c :: cs, gen'')
  end.

End RandomStrings.

(** ** main *)

(** An object behind a [CardinalityEstimator*]: its class, the template
    argument of the class and its fields. *)
Inductive estimator : Type :=
  | Exact (items_ : gset string)
  | Pcsa (sketch_ : Z)
  | StochasticAveraging (M : Z) (sketch_ : list Z)
  | LogLog (M : Z) (sketch_ : list Z)
  | HyperLogLog (M : Z) (sketch_ : list Z).

(** A method of a class, on the object. *)
Definition dispatch {S A : Type} (object : S → estimator) (m : method S A)
    (fields : S) : outcome (A * estimator) :=
  match m fields with
  | Done (a, fields') => Done (a, object fields')
  | Undefined u => Undefined u
  end.

Module Main.
Section Main.
Variable hash_ : string → Z.
Variable murmurhash3_32 : string → Z.
Variable libm_pow : Double.double → Double.double → Double.double.
Variable G : Type.
Variable dis : G → Z * G.

(** The virtual [item]. *)
Definition item (s : string) : method estimator unit :=
  λ e,
    match e with
    | Exact items_ => dispatch Exact (EE.item s) items_
    | Pcsa sketch_ => dispatch Pcsa (PE.item hash_ s) sketch_
    | StochasticAveraging M sketch_ =>
        dispatch (StochasticAveraging M) (SA.item hash_ murmurhash3_32 M s) sketch_
    | LogLog M sketch_ =>
        dispatch (LogLog M) (LL.item hash_ murmurhash3_32 M s) sketch_
    | HyperLogLog M sketch_ =>
        dispatch (HyperLogLog M) (HLL.item hash_ murmurhash3_32 M s) sketch_
    end.

(** The virtual [count]. *)
Definition count : method estimator Z :=
  λ e,
    match e with
    | Exact items_ => dispatch Exact EE.count items_
    | Pcsa sketch_ => dispatch Pcsa PE.count sketch_
    | StochasticAveraging M sketch_ =>
        dispatch (StochasticAveraging M) (SA.count libm_pow M) sketch_
    | LogLog M sketch_ => dispatch (LogLog M) (LL.count libm_pow M) sketch_
    | HyperLogLog M sketch_ =>
        dispatch (HyperLogLog M) (HLL.count libm_pow M) sketch_
    end.

Definition kStringLength : nat := 6.

(** The array [estimators]: each object as its constructor leaves it. *)
Definition estimators : list (string * estimator) :=
  [ ("   exact", Exact ∅);
    ("    pcsa", Pcsa 0);
    ("    sa_5", StochasticAveraging 5 (Sketch.empty 5));
    ("   sa_29", StochasticAveraging 29 (Sketch.empty 29));
    ("   sa_73", StochasticAveraging 73 (Sketch.empty 73));
    ("  sa_257", StochasticAveraging 257 (Sketch.empty 257));
    (" sa_1531", StochasticAveraging 1531 (Sketch.empty 1531));
    ("    ll_5", LogLog 5 (Sketch.empty 5));
    ("   ll_29", LogLog 29 (Sketch.empty 29));
    ("   ll_73", LogLog 73 (Sketch.empty 73));
    ("  ll_257", LogLog 257 (Sketch.empty 257));
    (" ll_1531", LogLog 1531 (Sketch.empty 1531));
    ("   hll_5", HyperLogLog 5 (Sketch.empty 5));
    ("  hll_29", HyperLogLog 29 (Sketch.empty 29));
    ("  hll_73", HyperLogLog 73 (Sketch.empty 73));
    (" hll_257", HyperLogLog 257 (Sketch.empty 257));
    ("hll_1531", HyperLogLog 1531 (Sketch.empty 1531)) ]%string.

(** [for (auto& e : estimators) e.estimator->item(s);] *)
Fixpoint item_each (s : string) (es : list (string * estimator))
    : outcome (list (string * estimator)) :=
  match es with
  | [] => Done []
  | (name, e) :: rest =>
      '(_, e') ← item s e;
      rest' ← item_each s rest;
      Done ((name, e') :: rest')
  end.

(** The variables of [main]: the string [s], the generator and the array. *)
Record state : Type := State {
  s : string;
  generator : G;
  objects : list (string * estimator)
}.

(** The body of the first loop of [main]. *)
Definition iteration : method state unit :=
  λ st,
    '(_, (s', generator')) ←
       generate_random_string G dis kStringLength (s st, generator st);
    objects' ← item_each s' (objects st);
    Done (tt, State s' generator' objects').

(** The first loop of [main], for [n] iterations. *)
Definition ingestion (n : nat) : method state unit :=
  for_loop n 0 (λ _ _, iteration) tt.

(** [cout << e.name << " count: " << e.estimator->count() << endl] for each
    estimator: the lines written. *)
Fixpoint report (es : list (string * estimator)) : outcome (list string) :=
  match es with
  | [] => Done []
  | (name, e) :: rest =>
      '(c, _) ← count e;
      lines ← report rest;
      Done ((name +:+ " count: " +:+ pretty c) :: lines)
  end.

(** [main], from the generator that [mt19937 generator(0xdeadbeef)] leaves:
    the lines written. *)
Definition main (seeded : G) : outcome (list string) :=
  '(_, st) ← ingestion (Z.to_nat 5000000) (State EmptyString seeded estimators);
  report (objects st).

End Main.
End Main.

(** ** Auxiliary definitions for the properties of the whole program *)

(** [2^rank / 0.77351], rounded down. *)
Definition pcsa_estimate_of_rank (rank : Z) : Z := 2 ^ rank * 100000 / 77351.

(** [R / kPhi] as [count] of the PCSA class converts it, for [R = 2^rank]. *)
Definition pcsa_count_of_rank (rank : nat) : outcome Z :=
  q ← Double.div (Double.of_Z (2 ^ Z.of_nat rank)) PCSA.kPhi;
  Double.to_size_t q.

Definition pcsa_count_checked (rank : nat) : bool :=
  match pcsa_count_of_rank rank with
  | Done v => v =? pcsa_estimate_of_rank (Z.of_nat rank)
  | Undefined _ => false
  end.

(** The values that the items of a stream routed to register [k]
    contribute, in the order of the stream. *)
Definition routed_values (val : string → Z) (idx : string → nat) (k : nat)
    (l : list string) : list Z :=
  val <$> filter (λ s, idx s = k) l.

(** The item [s] is routed to register [k] and has the rank [i]. *)
Definition routed_with_rank (hash_ murmurhash3_32 : string → Z) (M : Z)
    (k : nat) (i : Z) (s : string) : Prop :=
  Z.to_nat (U32.wrap (murmurhash3_32 s) mod M) = k
  ∧ PCSA.r (U32.wrap (hash_ s)) = i.

(** The strings that the first [n] iterations of [main] generate, from the
    content [s] of the string variable and the state [gen] of the
    generator. *)
Fixpoint strings (G : Type) (dis : G → Z * G) (n : nat) (s : string) (gen : G)
    : list string :=
  match n with
  | O => []
  | S n' =>
      match generate_random_string G dis Main.kStringLength (s, gen) with
      | Done (_, (s', gen')) => s' :: strings G dis n' s' gen'
      | Undefined _ => []
      end
  end.

(** A string of [n] NUL characters followed by [n] other characters. *)
Definition nul_padded (n : nat) (s : string) : Prop :=
  ∃ cs : list ascii,
    length cs = n ∧ list_ascii_of_string s = replicate n Ascii.zero ++ cs.

(** An object of [main]: at least one bucket, as many registers as buckets,
    and ranks in the max-rank registers. *)
Definition sound (e : estimator) : Prop :=
  match e with
  | Exact _ => True
  | Pcsa _ => True
  | StochasticAveraging M σ => 1 <= M ∧ length σ = Z.to_nat M
  | LogLog M σ | HyperLogLog M σ =>
      1 <= M ∧ length σ = Z.to_nat M ∧ Forall (λ x, 0 <= x <= 32) σ
  end.

(** The undefined behaviours that do not depend on the values of [pow]. *)
Definition no_fault {A : Type} (o : outcome A) : Prop :=
  o ≠ Undefined ModuloByZero ∧ o ≠ Undefined DivisionByZero
  ∧ o ≠ Undefined OutOfBounds.

(** The object [after] is the object [before], of the same name, fed the
    stream [l] on its own. *)
Definition fed (item : string → method estimator unit) (l : list string)
    (before after : string * estimator) : Prop :=
  after.1 = before.1 ∧ ingest item l before.2 = Done (tt, after.2).

(** * Properties *)

(** ** Bit-rank helpers *)

Section Bits.

Lemma double_land (a b : Z) : Z.land (2 * a) (2 * b) = 2 * Z.land a b.
Proof.
  apply Z.bits_inj'. intros n Hn.
  rewrite Z.land_spec.
  destruct (Z.eq_dec n 0) as [-> | Hne].
  - now rewrite !Z.testbit_even_0.
  - replace n with (Z.succ (n - 1)) by lia.
    rewrite !Z.testbit_even_succ by lia.
    now rewrite Z.land_spec.
Qed.

Lemma double_succ_land (a b : Z) :
  Z.land (2 * a + 1) (2 * b + 1) = 2 * Z.land a b + 1.
Proof.
  apply Z.bits_inj'. intros n Hn.
  rewrite Z.land_spec.
  destruct (Z.eq_dec n 0) as [-> | Hne].
  - now rewrite !Z.testbit_odd_0.
  - replace n with (Z.succ (n - 1)) by lia.
    rewrite !Z.testbit_odd_succ by lia.
    now rewrite Z.land_spec.
Qed.

Lemma odd_double_succ (a : Z) : Z.odd (2 * a + 1) = true.
Proof. now rewrite Z.add_comm, Z.odd_add_mul_2. Qed.

Lemma div2_double_succ (a : Z) : Z.div2 (2 * a + 1) = a.
Proof. rewrite Z.div2_div. symmetry. apply Z.div_unique with 1; lia. Qed.

(** Below the index [trailing_ones] every bit is set, and the bit at the
    index is clear when the index is among the bits inspected. *)
Lemma trailing_ones_bits (n : nat) :
  ∀ x : Z,
    0 <= trailing_ones n x <= Z.of_nat n
    ∧ (∀ j, 0 <= j < trailing_ones n x → Z.testbit x j = true)
    ∧ (trailing_ones n x < Z.of_nat n →
       Z.testbit x (trailing_ones n x) = false).
Proof.
  induction n as [| n IH]; intros x; cbn [trailing_ones].
  - repeat split; lia.
  - destruct (Z.odd x) eqn:Hodd.
    + destruct (IH (Z.div2 x)) as (Hr & Hlow & Hat).
      repeat split; try lia.
      * intros j Hj. destruct (Z.eq_dec j 0) as [-> | Hne].
        { now rewrite Z.bit0_odd. }
        replace j with (Z.succ (j - 1)) by lia.
        rewrite <- Z.div2_bits, <- Z.div2_div by lia. apply Hlow. lia.
      * intros Hlt.
        replace (1 + trailing_ones n (Z.div2 x))
          with (Z.succ (trailing_ones n (Z.div2 x))) by lia.
        rewrite <- Z.div2_bits, <- Z.div2_div by lia. apply Hat. lia.
    + repeat split; try lia.
      intros _. now rewrite Z.bit0_odd.
Qed.

(** [~x & (x+1)] on unbounded integers isolates the lowest cleared bit. *)
Lemma lowest_zero_bit (n : nat) :
  ∀ x : Z,
    0 <= x < 2 ^ Z.of_nat n - 1 →
    Z.land (Z.lnot x) (x + 1) = 2 ^ trailing_ones n x
    ∧ trailing_ones n x < Z.of_nat n.
Proof.
  induction n as [| n IH]; intros x Hx.
  - cbn in Hx. lia.
  - rewrite Nat2Z.inj_succ, Z.pow_succ_r in Hx by lia.
    cbn [trailing_ones].
    pose proof (Z.div2_odd x) as Hdec.
    destruct (Z.odd x) eqn:Hodd; cbn [Z.b2z] in Hdec.
    + destruct (IH (Z.div2 x)) as [Hland Hlt]; [lia |].
      pose proof (trailing_ones_bits n (Z.div2 x)) as (Hr & _).
      split; [| lia].
      replace (Z.lnot x) with (2 * Z.lnot (Z.div2 x))
        by (unfold Z.lnot; lia).
      replace (x + 1) with (2 * (Z.div2 x + 1)) by lia.
      rewrite double_land, Hland.
      rewrite Z.add_comm, Z.pow_add_r by lia. lia.
    + split; [| lia].
      replace (Z.lnot x) with (2 * Z.lnot (Z.div2 x) + 1)
        by (unfold Z.lnot; lia).
      replace (x + 1) with (2 * Z.div2 x + 1) by lia.
      rewrite double_succ_land, Z.land_comm, Z.land_lnot_diag. reflexivity.
Qed.

Lemma land_wrap_l (a b : Z) :
  0 <= b < U32.modulus → Z.land (U32.wrap a) b = Z.land a b.
Proof.
  intros Hb. unfold U32.wrap, U32.modulus in *.
  rewrite <- Z.land_ones by lia.
  rewrite <- Z.land_assoc. f_equal.
  rewrite Z.land_comm, Z.land_ones by lia.
  apply Z.mod_small. lia.
Qed.

Lemma popcount_ones (n : nat) :
  ∀ t : Z, 0 <= t <= Z.of_nat n → PCSA.popcount n (2 ^ t - 1) = t.
Proof.
  induction n as [| n IH]; intros t Ht; cbn [PCSA.popcount].
  - replace t with 0 by lia. reflexivity.
  - destruct (Z.eq_dec t 0) as [-> | Hne].
    + pose proof (IH 0 ltac:(lia)) as H0.
      change (2 ^ 0 - 1) with 0 in *. cbn [Z.odd Z.div2 Z.b2z].
      rewrite H0. reflexivity.
    + replace (2 ^ t - 1) with (2 * (2 ^ (t - 1) - 1) + 1).
      * rewrite odd_double_succ, div2_double_succ, IH by lia.
        cbn [Z.b2z]. lia.
      * replace t with (Z.succ (t - 1)) at 2 by lia.
        rewrite Z.pow_succ_r by lia. lia.
Qed.

Lemma land_in_range (a b : Z) :
  0 <= a → 0 <= b < U32.modulus → 0 <= Z.land a b < U32.modulus.
Proof.
  intros Ha Hb. split; [apply Z.land_nonneg; lia |].
  assert (Heq : Z.land a b = Z.land a b mod U32.modulus).
  { unfold U32.modulus in *.
    rewrite <- (Z.land_ones (Z.land a b)) by lia.
    rewrite <- Z.land_assoc, (Z.land_ones b) by lia.
    now rewrite (Z.mod_small b) by lia. }
  rewrite Heq. apply Z.mod_pos_bound. unfold U32.modulus. lia.
Qed.

Lemma wrap_in_range (z : Z) : 0 <= U32.wrap z < U32.modulus.
Proof. apply Z.mod_pos_bound. unfold U32.modulus. lia. Qed.

Lemma R_in_range (x : Z) : 0 <= PCSA.R x < U32.modulus.
Proof.
  unfold PCSA.R, U32.and, U32.not, U32.add.
  apply land_in_range; [apply wrap_in_range | apply wrap_in_range].
Qed.

(** [R] and [r] on every word that has a cleared bit. *)
Lemma R_r_trailing_ones (x : Z) :
  0 <= x < U32.max_value →
  PCSA.R x = 2 ^ trailing_ones 32 x
  ∧ PCSA.r x = trailing_ones 32 x
  ∧ 0 <= trailing_ones 32 x < 32.
Proof.
  intros Hx. unfold U32.max_value, U32.modulus in Hx.
  destruct (lowest_zero_bit 32 x) as [Hland Hlt]; [cbn; lia |].
  pose proof (trailing_ones_bits 32 x) as (Hr & _).
  assert (HR : PCSA.R x = 2 ^ trailing_ones 32 x).
  { unfold PCSA.R, U32.and, U32.not, U32.add.
    unfold U32.wrap at 2.
    rewrite (Z.mod_small (x + 1)) by (unfold U32.modulus; lia).
    rewrite land_wrap_l by (unfold U32.modulus; lia).
    exact Hland. }
  split; [exact HR |]. split; [| lia].
  unfold PCSA.r, PCSA.p, U32.sub, U32.wrap. rewrite HR.
  assert (0 < 2 ^ trailing_ones 32 x <= 2 ^ 31).
  { split; [apply Z.pow_pos_nonneg; lia |].
    apply Z.pow_le_mono_r; lia. }
  rewrite Z.mod_small by (unfold U32.modulus; lia).
  apply popcount_ones. lia.
Qed.

End Bits.

(** C3. The bit-rank helpers. For every 32-bit word [x] with a cleared bit,
    [R x], computed as [~x & (x+1)], is [2^i] for the index [i] of the
    least-significant cleared bit of [x], and [r x], computed as
    [p (R x - 1)], is that index, the number of trailing ones of [x].
    On the word of 32 ones [R] wraps to 0, [0 - 1] wraps to the word of 32
    ones and [r] is 32. The ranks of 0, 0b1, 0b11, 0b101 and 0xFFFFFFFF are
    0, 1, 2, 1 and 32. *)
Theorem bit_rank_utilities (x : Z) (Hx : 0 <= x < U32.modulus) :
  PCSA.R x = Z.land (U32.modulus - 1 - x) ((x + 1) mod U32.modulus)
  ∧ PCSA.r x = PCSA.p ((PCSA.R x - 1) mod U32.modulus)
  ∧ (x ≠ U32.max_value →
     ∃ i, 0 <= i < 32
          ∧ Z.testbit x i = false
          ∧ (∀ j, 0 <= j < i → Z.testbit x j = true)
          ∧ PCSA.R x = 2 ^ i
          ∧ PCSA.r x = i)
  ∧ (x = U32.max_value →
     (∀ j, 0 <= j < 32 → Z.testbit x j = true)
     ∧ PCSA.R x = 0
     ∧ U32.sub (PCSA.R x) 1 = U32.max_value
     ∧ PCSA.r x = 32)
  ∧ PCSA.r 0 = 0 ∧ PCSA.r 1 = 1 ∧ PCSA.r 3 = 2 ∧ PCSA.r 5 = 1
  ∧ PCSA.r 4294967295 = 32.
Proof.
  split; [| split; [| split; [| split]]].
  - unfold PCSA.R, U32.and, U32.not, U32.add, U32.wrap. f_equal.
    unfold Z.lnot, U32.modulus in *.
    symmetry. apply Z.mod_unique with (-1); lia.
  - reflexivity.
  - intros Hne.
    destruct (R_r_trailing_ones x) as (HR & Hr & Hi);
      [unfold U32.max_value in *; lia |].
    pose proof (trailing_ones_bits 32 x) as (_ & Hlow & Hat).
    exists (trailing_ones 32 x). repeat split; try lia; auto.
    apply Hat. lia.
  - intros ->. split; [| now vm_compute].
    intros j Hj. unfold U32.max_value, U32.modulus.
    change (2 ^ 32 - 1) with (Z.ones 32).
    apply Z.ones_spec_low. lia.
  - now vm_compute.
Qed.

(** The theorem at the word 0b101. *)
Lemma bit_rank_utilities_witness :
  0 <= 5 < U32.modulus ∧ PCSA.R 5 = 2 ∧ PCSA.r 5 = 1.
Proof.
  assert (H5 : 0 <= 5 < U32.modulus) by (unfold U32.modulus; lia).
  split; [exact H5 |].
  destruct (bit_rank_utilities 5 H5) as (_ & _ & Hgen & _).
  destruct Hgen as (i & Hi & Hclear & Hset & HR & Hr);
    [unfold U32.max_value, U32.modulus; lia |].
  assert (i = 1) as ->.
  { destruct (Z.eq_dec i 0) as [-> | H0]; [discriminate Hclear |].
    destruct (Z.eq_dec i 1) as [-> | H1]; [reflexivity |].
    specialize (Hset 1 ltac:(lia)). discriminate Hset. }
  split; assumption.
Defined.

(** ** The methods as functions *)

Section Methods.

Lemma load_bind {A : Type} (k : nat) (g : Z → method Sketch.t A) (σ : Sketch.t) :
  (Sketch.load k ≫= g) σ
  = match σ !! k with
    | Some v => g v σ
    | None => Undefined OutOfBounds
    end.
Proof.
  unfold mbind, method_bind, Sketch.load. now destruct (σ !! k).
Qed.

Lemma store_bind {A : Type} (k : nat) (v : Z) (g : unit → method Sketch.t A)
    (σ : Sketch.t) :
  (Sketch.store k v ≫= g) σ
  = if decide (k < length σ)%nat then g tt (<[k := v]> σ)
    else Undefined OutOfBounds.
Proof.
  unfold mbind, method_bind, Sketch.store.
  now destruct (decide (k < length σ)%nat).
Qed.

Lemma for_loop_load {A : Type} (f : A → Z → A) (σ : Sketch.t) :
  ∀ (n from : nat) (acc : A),
    (from + n ≤ length σ)%nat →
    for_loop n from (λ k a, x ← Sketch.load k; mret (f a x)) acc σ
    = Done (foldl f acc (take n (drop from σ)), σ).
Proof.
  induction n as [| n IH]; intros from acc Hlen.
  - reflexivity.
  - cbn [for_loop]. unfold mbind at 1, method_bind.
    destruct (lookup_lt_is_Some_2 σ from ltac:(lia)) as [x Hx].
    rewrite load_bind, Hx. unfold mret, method_ret.
    rewrite IH by lia.
    rewrite (drop_S σ x from Hx). reflexivity.
Qed.

(** A loop over all [M] registers of a sketch of [M] registers. *)
Lemma for_loop_registers {A : Type} (f : A → Z → A) (σ : Sketch.t) (acc : A) :
  for_loop (length σ) 0 (λ k a, x ← Sketch.load k; mret (f a x)) acc σ
  = Done (foldl f acc σ, σ).
Proof.
  rewrite for_loop_load by lia.
  now rewrite drop_0, take_ge by lia.
Qed.

Lemma clear_loop (junk : list Z) :
  ∀ pre post : list Z,
    for_loop (length junk) (length pre) (λ k _, Sketch.store k 0) tt
      (pre ++ junk ++ post)
    = Done (tt, pre ++ replicate (length junk) 0 ++ post).
Proof.
  induction junk as [| j junk IH]; intros pre post.
  - reflexivity.
  - cbn [length for_loop replicate]. rewrite store_bind.
    rewrite decide_True by (rewrite !length_app; cbn; lia).
    rewrite insert_app_r_alt, Nat.sub_diag by lia. cbn.
    specialize (IH (pre ++ [0]) post).
    rewrite length_app in IH. cbn [length] in IH.
    replace (length pre + 1)%nat with (S (length pre)) in IH by lia.
    rewrite <- !app_assoc in IH. exact IH.
Qed.

(** The constructors' loop leaves the empty sketch. *)
Lemma clear_run (M : Z) (mem : Sketch.t) :
  length mem = Z.to_nat M → Sketch.clear M mem = Done (tt, Sketch.empty M).
Proof.
  intros Hlen. unfold Sketch.clear, Sketch.empty. rewrite <- Hlen.
  pose proof (clear_loop mem [] []) as H.
  rewrite !app_nil_r in H. exact H.
Qed.

Lemma constructed_empty (M : Z) (σ : Sketch.t) :
  Sketch.constructed (Sketch.clear M) M σ ↔ σ = Sketch.empty M.
Proof.
  split.
  - intros (mem & Hlen & Hrun). rewrite clear_run in Hrun by exact Hlen.
    congruence.
  - intros ->. exists (Sketch.empty M). split.
    + apply length_replicate.
    + apply clear_run, length_replicate.
Qed.

Lemma bucket_run (murmurhash3_32 : string → Z) (M : Z) (s : string) :
  1 <= M →
  bucket murmurhash3_32 M s = Done (bucket_index murmurhash3_32 M s)
  ∧ (bucket_index murmurhash3_32 M s < Z.to_nat M)%nat.
Proof.
  intros HM. unfold bucket, bucket_index.
  destruct (Z.eqb_spec M 0) as [-> | _]; [lia |].
  split; [reflexivity |].
  pose proof (Z.mod_pos_bound (U32.wrap (murmurhash3_32 s)) M ltac:(lia)).
  lia.
Qed.

Lemma insert_as_alter (f : Z → Z) (σ : list Z) (k : nat) (old : Z) :
  σ !! k = Some old → <[k := f old]> σ = alter f k σ.
Proof.
  intros Hk. apply list_eq. intros i.
  destruct (decide (i = k)) as [-> | Hne].
  - rewrite list_lookup_insert_eq by (eapply lookup_lt_Some; eauto).
    now rewrite list_lookup_alter_eq, Hk.
  - now rewrite list_lookup_insert_ne, list_lookup_alter_ne by auto.
Qed.

(** [sketch_[k] |= v] and [if (sketch_[k] < r) sketch_[k] = r] alter the
    register [k]. *)
Lemma or_item_run (k : nat) (v : Z) (σ : Sketch.t) :
  (k < length σ)%nat →
  (old ← Sketch.load k; Sketch.store k (U32.or old v)) σ
  = Done (tt, alter (or_update v) k σ).
Proof.
  intros Hk. rewrite load_bind. unfold Sketch.store.
  destruct (lookup_lt_is_Some_2 σ k Hk) as [old Hold]. rewrite Hold.
  rewrite decide_True by exact Hk.
  now rewrite <- (insert_as_alter (or_update v) σ k old Hold).
Qed.

Lemma max_item_run (k : nat) (r : Z) (σ : Sketch.t) :
  (k < length σ)%nat →
  (old ← Sketch.load k; if old <? r then Sketch.store k r else mret tt) σ
  = Done (tt, alter (max_update r) k σ).
Proof.
  intros Hk. rewrite load_bind. unfold Sketch.store.
  destruct (lookup_lt_is_Some_2 σ k Hk) as [old Hold]. rewrite Hold.
  rewrite <- (insert_as_alter (max_update r) σ k old Hold).
  unfold max_update. destruct (old <? r).
  - now rewrite decide_True by exact Hk.
  - now rewrite list_insert_id by exact Hold.
Qed.

End Methods.

Section Runs.
Variable hash_ : string → Z.
Variable murmurhash3_32 : string → Z.
Variable libm_pow : Double.double → Double.double → Double.double.
Variable M : Z.
Hypothesis M_positive : 1 <= M.

Lemma pure_bind {S A B : Type} (o : outcome A) (g : A → outcome B) (σ : S) :
  (pure o ≫= λ a, pure (g a)) σ = pure (o ≫= g) σ.
Proof. now destruct o. Qed.

Lemma bucket_bind {A : Type} (s : string) (g : nat → method Sketch.t A)
    (σ : Sketch.t) :
  (pure (bucket murmurhash3_32 M s) ≫= g) σ
  = g (bucket_index murmurhash3_32 M s) σ.
Proof.
  destruct (bucket_run murmurhash3_32 M s M_positive) as [Hb _].
  unfold mbind, method_bind, pure. now rewrite Hb.
Qed.

Lemma SA_item_run (s : string) (σ : Sketch.t) :
  length σ = Z.to_nat M →
  SA.item hash_ murmurhash3_32 M s σ
  = Done (tt, or_step hash_ murmurhash3_32 M s σ).
Proof.
  intros Hlen. unfold SA.item. rewrite bucket_bind.
  apply or_item_run. rewrite Hlen.
  apply (bucket_run murmurhash3_32 M s M_positive).
Qed.

Lemma LL_item_run (s : string) (σ : Sketch.t) :
  length σ = Z.to_nat M →
  LL.item hash_ murmurhash3_32 M s σ
  = Done (tt, max_step hash_ murmurhash3_32 M s σ).
Proof.
  intros Hlen. unfold LL.item. rewrite bucket_bind.
  apply max_item_run. rewrite Hlen.
  apply (bucket_run murmurhash3_32 M s M_positive).
Qed.

Lemma HLL_item_run (s : string) (σ : Sketch.t) :
  length σ = Z.to_nat M →
  HLL.item hash_ murmurhash3_32 M s σ
  = Done (tt, max_step hash_ murmurhash3_32 M s σ).
Proof.
  intros Hlen. unfold HLL.item. rewrite bucket_bind.
  apply max_item_run. rewrite Hlen.
  apply (bucket_run murmurhash3_32 M s M_positive).
Qed.

Lemma loop_bind {A B : Type} (f : A → Z → A) (acc : A)
    (g : A → method Sketch.t B) (σ : Sketch.t) :
  length σ = Z.to_nat M →
  (for_loop (Z.to_nat M) 0 (λ k a, x ← Sketch.load k; mret (f a x)) acc ≫= g) σ
  = g (foldl f acc σ) σ.
Proof.
  intros <-. unfold mbind at 1, method_bind.
  now rewrite for_loop_registers.
Qed.

Lemma SA_count_run (σ : Sketch.t) :
  length σ = Z.to_nat M →
  SA.count libm_pow M σ = pure (Estimate.stochastic_averaging libm_pow M σ) σ.
Proof.
  intros Hlen. unfold SA.count. rewrite loop_bind by exact Hlen.
  now rewrite pure_bind.
Qed.

Lemma LL_count_run (σ : Sketch.t) :
  length σ = Z.to_nat M →
  LL.count libm_pow M σ = pure (Estimate.loglog libm_pow M σ) σ.
Proof.
  intros Hlen. unfold LL.count. rewrite loop_bind by exact Hlen.
  now rewrite pure_bind.
Qed.

Lemma HLL_count_run (σ : Sketch.t) :
  length σ = Z.to_nat M →
  HLL.count libm_pow M σ = pure (Estimate.hyperloglog libm_pow M σ) σ.
Proof.
  intros Hlen. unfold HLL.count. now rewrite loop_bind by exact Hlen.
Qed.

End Runs.

Lemma PE_count_run (sketch_ : Z) :
  PE.count sketch_ = pure (Estimate.pcsa sketch_) sketch_.
Proof. reflexivity. Qed.

(** ** Frame and bounds *)

Lemma alter_touches_only (f : Z → Z) (k : nat) (σ : list Z) :
  touches_only k σ (alter f k σ).
Proof.
  split; [apply length_alter |].
  intros j Hj. apply list_lookup_alter_ne. auto.
Qed.

Lemma div_in_bounds (x y : Double.double) : in_bounds (Double.div x y).
Proof. unfold in_bounds, Double.div. now destruct (Double.is_zero y). Qed.

Lemma to_size_t_in_bounds (x : Double.double) : in_bounds (Double.to_size_t x).
Proof.
  unfold in_bounds, Double.to_size_t.
  destruct (Double.trunc x) as [z |]; [| discriminate].
  now destruct ((0 <=? z) && (z <? Double.size_t_modulus)).
Qed.

Lemma bind_in_bounds {A B : Type} (o : outcome A) (g : A → outcome B) :
  in_bounds o → (∀ a, in_bounds (g a)) → in_bounds (o ≫= g).
Proof.
  intros Ho Hg. destruct o as [a | u]; [apply Hg |].
  intros Heq. apply Ho. cbn in Heq. congruence.
Qed.

Lemma pure_in_bounds {S A : Type} (o : outcome A) (σ : S) :
  in_bounds o → in_bounds (pure o σ).
Proof.
  unfold in_bounds. destruct o as [a | u]; cbn; [discriminate |].
  intros Hu Heq. apply Hu. congruence.
Qed.

Lemma estimates_in_bounds (libm_pow : Double.double → Double.double → Double.double)
    (M : Z) (σ : list Z) (sketch_ : Z) :
  in_bounds (Estimate.pcsa sketch_)
  ∧ in_bounds (Estimate.stochastic_averaging libm_pow M σ)
  ∧ in_bounds (Estimate.loglog libm_pow M σ)
  ∧ in_bounds (Estimate.hyperloglog libm_pow M σ).
Proof.
  unfold Estimate.pcsa, Estimate.stochastic_averaging, Estimate.loglog,
    Estimate.hyperloglog.
  repeat split;
    repeat (apply bind_in_bounds; [apply div_in_bounds | intros ?]);
    apply to_size_t_in_bounds.
Qed.

(** C8. For [M >= 1] and a sketch of [M] registers, [item] of each bucketed
    class succeeds and alters no register other than the one at index
    [murmurhash3_32(s) % M]: the array keeps its length and every other
    register its content. *)
Theorem item_touches_one_register (hash_ murmurhash3_32 : string → Z) (M : Z)
    (s : string) (σ : list Z)
    (HM : 1 <= M) (Hlen : length σ = Z.to_nat M) :
  let k := Z.to_nat (U32.wrap (murmurhash3_32 s) mod M) in
  (∃ σ', SA.item hash_ murmurhash3_32 M s σ = Done (tt, σ') ∧ touches_only k σ σ')
  ∧ (∃ σ', LL.item hash_ murmurhash3_32 M s σ = Done (tt, σ') ∧ touches_only k σ σ')
  ∧ (∃ σ', HLL.item hash_ murmurhash3_32 M s σ = Done (tt, σ') ∧ touches_only k σ σ').
Proof.
  intros k. repeat split.
  - exists (or_step hash_ murmurhash3_32 M s σ). split.
    + now apply SA_item_run.
    + apply alter_touches_only.
  - exists (max_step hash_ murmurhash3_32 M s σ). split.
    + now apply LL_item_run.
    + apply alter_touches_only.
  - exists (max_step hash_ murmurhash3_32 M s σ). split.
    + now apply HLL_item_run.
    + apply alter_touches_only.
Qed.

(** C10. For [M >= 1] the bucket of every item, the 32-bit hash modulo [M],
    is below [M], and on a sketch of [M] registers neither [item] nor
    [count] nor the constructor of a bucketed class accesses a register
    outside the array. *)
Theorem bucket_index_in_bounds (hash_ murmurhash3_32 : string → Z)
    (libm_pow : Double.double → Double.double → Double.double) (M : Z)
    (s : string) (σ : list Z)
    (HM : 1 <= M) (Hlen : length σ = Z.to_nat M) :
  0 <= U32.wrap (murmurhash3_32 s) mod M < M
  ∧ (∃ k : nat, bucket murmurhash3_32 M s = Done k
               ∧ Z.of_nat k = U32.wrap (murmurhash3_32 s) mod M
               ∧ (k < length σ)%nat)
  ∧ in_bounds (SA.item hash_ murmurhash3_32 M s σ)
  ∧ in_bounds (LL.item hash_ murmurhash3_32 M s σ)
  ∧ in_bounds (HLL.item hash_ murmurhash3_32 M s σ)
  ∧ in_bounds (SA.count libm_pow M σ)
  ∧ in_bounds (LL.count libm_pow M σ)
  ∧ in_bounds (HLL.count libm_pow M σ)
  ∧ in_bounds (SA.construct M σ)
  ∧ in_bounds (LL.construct M σ)
  ∧ in_bounds (HLL.construct M σ).
Proof.
  pose proof (Z.mod_pos_bound (U32.wrap (murmurhash3_32 s)) M ltac:(lia)) as Hk.
  destruct (bucket_run murmurhash3_32 M s HM) as [Hb Hlt].
  destruct (estimates_in_bounds libm_pow M σ 0) as (_ & Hsa & Hll & Hhll).
  split; [exact Hk |]. split.
  { exists (bucket_index murmurhash3_32 M s). split; [exact Hb |].
    unfold bucket_index in *. split; lia. }
  rewrite SA_item_run, LL_item_run, HLL_item_run by assumption.
  rewrite SA_count_run, LL_count_run, HLL_count_run by assumption.
  unfold SA.construct, LL.construct, HLL.construct.
  rewrite clear_run by assumption.
  repeat split; try discriminate; now apply pure_in_bounds.
Qed.

(** The theorem at [M = 5], the item "a" routed to register 1. *)
Lemma item_touches_one_register_witness :
  1 <= 5 ∧ length [0; 0; 0; 0; 0] = Z.to_nat 5
  ∧ ∃ σ', SA.item length_hash length_hash 5 "a" [0; 0; 0; 0; 0] = Done (tt, σ')
          ∧ touches_only 1 [0; 0; 0; 0; 0] σ'.
Proof.
  split; [lia |]. split; [reflexivity |].
  exact (proj1 (item_touches_one_register length_hash length_hash 5 "a"
                  [0; 0; 0; 0; 0] ltac:(lia) eq_refl)).
Defined.

(** The theorem at [M = 5] and the item "a". *)
Lemma bucket_index_in_bounds_witness :
  1 <= 5 ∧ length [0; 0; 0; 0; 0] = Z.to_nat 5
  ∧ 0 <= U32.wrap (length_hash "a") mod 5 < 5.
Proof.
  split; [lia |]. split; [reflexivity |].
  exact (proj1 (bucket_index_in_bounds length_hash length_hash (λ _ _, S754_nan)
                  5 "a" [0; 0; 0; 0; 0] ltac:(lia) eq_refl)).
Defined.

(** ** Streams: order and duplicates *)

Section Streams.
Context {S : Type}.
Variable item : string → method S unit.
Variable step : string → S → S.
Variable P : S → Prop.
Hypothesis item_step : ∀ s σ, P σ → item s σ = Done (tt, step s σ) ∧ P (step s σ).

Lemma ingest_run (l : list string) :
  ∀ σ, P σ → ingest item l σ = Done (tt, run_steps step σ l) ∧ P (run_steps step σ l).
Proof.
  induction l as [| s l IH]; intros σ Hσ.
  - split; [reflexivity | exact Hσ].
  - destruct (item_step s σ Hσ) as [Hrun HP].
    cbn [ingest]. unfold mbind, method_bind. rewrite Hrun.
    apply (IH _ HP).
Qed.

Hypothesis step_commute : ∀ a b σ, step a (step b σ) = step b (step a σ).
Hypothesis step_idempotent : ∀ a σ, step a (step a σ) = step a σ.

Lemma run_steps_permutation (l1 l2 : list string) :
  l1 ≡ₚ l2 → ∀ σ, run_steps step σ l1 = run_steps step σ l2.
Proof.
  induction 1 as [| x l l' _ IH | x y l | l l' l'' _ IH1 _ IH2]; intros σ.
  - reflexivity.
  - apply IH.
  - cbn. now rewrite step_commute.
  - now rewrite IH1.
Qed.

Lemma run_steps_replicate (s : string) (N : nat) (σ : S) :
  (1 ≤ N)%nat → run_steps step σ (replicate N s) = step s σ.
Proof.
  intros HN. destruct N as [| N]; [lia |]. clear HN. cbn.
  induction N as [| N IH]; [reflexivity |].
  cbn. now rewrite step_idempotent.
Qed.

Lemma bind_congruence {A : Type} (m1 m2 : method S unit) (count : method S A) (σ : S) :
  m1 σ = m2 σ → (m1 ≫= λ _, count) σ = (m2 ≫= λ _, count) σ.
Proof. intros H. unfold mbind, method_bind. now rewrite H. Qed.

Lemma steps_insensitive {A : Type} (count : method S A) (σ : S) :
  P σ → order_insensitive item count σ ∧ duplicate_insensitive item count σ.
Proof.
  intros Hσ. split.
  - intros l1 l2 Hperm.
    destruct (ingest_run l1 σ Hσ) as [H1 _].
    destruct (ingest_run l2 σ Hσ) as [H2 _].
    rewrite <- (run_steps_permutation l1 l2 Hperm σ) in H2.
    split; [eauto |]. apply bind_congruence. now rewrite H1, H2.
  - intros s N HN.
    destruct (ingest_run (replicate N s) σ Hσ) as [H1 _].
    destruct (ingest_run [s] σ Hσ) as [H2 _].
    rewrite (run_steps_replicate s N σ HN) in H1.
    change (run_steps step σ [s]) with (step s σ) in H2.
    split; [eauto |]. apply bind_congruence. now rewrite H1, H2.
Qed.

End Streams.

Section Updates.

Lemma alter_commute (f g : Z → Z) (i j : nat) (σ : list Z) :
  (∀ x, f (g x) = g (f x)) →
  alter f i (alter g j σ) = alter g j (alter f i σ).
Proof.
  intros Hfg. destruct (decide (i = j)) as [-> | Hne].
  - rewrite !list_alter_alter_eq. apply list_alter_ext; [| reflexivity].
    intros x _. apply Hfg.
  - now apply list_alter_alter_ne.
Qed.

Lemma alter_idempotent (f : Z → Z) (i : nat) (σ : list Z) :
  (∀ x, f (f x) = f x) → alter f i (alter f i σ) = alter f i σ.
Proof.
  intros Hf. rewrite list_alter_alter_eq. apply list_alter_ext; [| reflexivity].
  intros x _. apply Hf.
Qed.

Lemma or_update_commute (v w x : Z) :
  or_update v (or_update w x) = or_update w (or_update v x).
Proof.
  unfold or_update, U32.or.
  now rewrite <- !Z.lor_assoc, (Z.lor_comm v w).
Qed.

Lemma or_update_idempotent (v x : Z) :
  or_update v (or_update v x) = or_update v x.
Proof. unfold or_update, U32.or. now rewrite <- Z.lor_assoc, Z.lor_diag. Qed.

Lemma max_update_max (r old : Z) : max_update r old = Z.max old r.
Proof. unfold max_update. destruct (Z.ltb_spec old r); lia. Qed.

Lemma max_update_commute (v w x : Z) :
  max_update v (max_update w x) = max_update w (max_update v x).
Proof. rewrite !max_update_max. lia. Qed.

Lemma max_update_idempotent (v x : Z) :
  max_update v (max_update v x) = max_update v x.
Proof. rewrite !max_update_max. lia. Qed.

End Updates.

(** C6. For each class ([M >= 1] for the bucketed ones, from any content of
    the registers): two streams that are permutations of each other leave
    the same registers and the same [count], and an item ingested [N >= 1]
    times leaves the registers and the [count] of the item ingested once. *)
Theorem ingest_order_and_duplicates (hash_ murmurhash3_32 : string → Z)
    (libm_pow : Double.double → Double.double → Double.double) (M : Z)
    (σ : list Z) (sketch_ : Z)
    (HM : 1 <= M) (Hlen : length σ = Z.to_nat M) :
  (order_insensitive (PE.item hash_) PE.count sketch_
   ∧ duplicate_insensitive (PE.item hash_) PE.count sketch_)
  ∧ (order_insensitive (SA.item hash_ murmurhash3_32 M) (SA.count libm_pow M) σ
     ∧ duplicate_insensitive (SA.item hash_ murmurhash3_32 M) (SA.count libm_pow M) σ)
  ∧ (order_insensitive (LL.item hash_ murmurhash3_32 M) (LL.count libm_pow M) σ
     ∧ duplicate_insensitive (LL.item hash_ murmurhash3_32 M) (LL.count libm_pow M) σ)
  ∧ (order_insensitive (HLL.item hash_ murmurhash3_32 M) (HLL.count libm_pow M) σ
     ∧ duplicate_insensitive (HLL.item hash_ murmurhash3_32 M) (HLL.count libm_pow M) σ).
Proof.
  split; [| split; [| split]].
  - apply (steps_insensitive (PE.item hash_)
             (λ s p, or_update (PCSA.R (U32.wrap (hash_ s))) p) (λ _, True)).
    + intros s p _. split; [reflexivity | exact I].
    + intros a b p. apply or_update_commute.
    + intros a p. apply or_update_idempotent.
    + exact I.
  - apply (steps_insensitive (SA.item hash_ murmurhash3_32 M)
             (or_step hash_ murmurhash3_32 M) (λ σ, length σ = Z.to_nat M)).
    + intros s τ Hτ. split; [now apply SA_item_run |].
      unfold or_step. now rewrite length_alter.
    + intros a b τ. apply alter_commute. intros x. apply or_update_commute.
    + intros a τ. apply alter_idempotent. intros x. apply or_update_idempotent.
    + exact Hlen.
  - apply (steps_insensitive (LL.item hash_ murmurhash3_32 M)
             (max_step hash_ murmurhash3_32 M) (λ σ, length σ = Z.to_nat M)).
    + intros s τ Hτ. split; [now apply LL_item_run |].
      unfold max_step. now rewrite length_alter.
    + intros a b τ. apply alter_commute. intros x. apply max_update_commute.
    + intros a τ. apply alter_idempotent. intros x. apply max_update_idempotent.
    + exact Hlen.
  - apply (steps_insensitive (HLL.item hash_ murmurhash3_32 M)
             (max_step hash_ murmurhash3_32 M) (λ σ, length σ = Z.to_nat M)).
    + intros s τ Hτ. split; [now apply HLL_item_run |].
      unfold max_step. now rewrite length_alter.
    + intros a b τ. apply alter_commute. intros x. apply max_update_commute.
    + intros a τ. apply alter_idempotent. intros x. apply max_update_idempotent.
    + exact Hlen.
Qed.

(** The theorem at [M = 5] on the empty sketches. *)
Lemma ingest_order_and_duplicates_witness :
  1 <= 5 ∧ length (Sketch.empty 5) = Z.to_nat 5
  ∧ order_insensitive (LL.item length_hash length_hash 5)
      (LL.count (λ _ _, S754_nan) 5) (Sketch.empty 5).
Proof.
  split; [lia |]. split; [reflexivity |].
  exact (proj1 (proj1 (proj2 (proj2
    (ingest_order_and_duplicates length_hash length_hash (λ _ _, S754_nan) 5
       (Sketch.empty 5) 0 ltac:(lia) eq_refl))))).
Defined.

(** ** Monotone registers, and [count] without effect *)

Section Monotone.

Lemma pos_lor_ge (a : positive) : ∀ b : positive, (a <= Pos.lor a b)%positive.
Proof.
  induction a as [a IH | a IH |]; intros [b | b |];
    try specialize (IH b); cbv [Pos.lor]; fold Pos.lor; lia.
Qed.

Lemma lor_ge (a b : Z) : 0 <= a → 0 <= b → a <= Z.lor a b.
Proof.
  destruct a as [| p | p], b as [| q | q]; cbv [Z.lor]; try lia.
  intros _ _. pose proof (pos_lor_ge p q). lia.
Qed.

Lemma lor_in_range (a b : Z) :
  U32.in_range a → U32.in_range b → U32.in_range (Z.lor a b).
Proof.
  unfold U32.in_range, U32.modulus. intros Ha Hb.
  split; [apply Z.lor_nonneg; lia |].
  assert (Heq : Z.lor a b = Z.lor a b mod 2 ^ 32).
  { rewrite <- Z.land_ones, Z.land_lor_distr_l, !Z.land_ones by lia.
    now rewrite !Z.mod_small by lia. }
  rewrite Heq. apply Z.mod_pos_bound. lia.
Qed.

Lemma lor_bits_kept (a b : Z) : bits_kept a (Z.lor a b).
Proof. intros i _ Hi. now rewrite Z.lor_spec, Hi. Qed.

Lemma or_update_grows (v old : Z) :
  0 <= v → 0 <= old → bitmap_grows old (or_update v old).
Proof.
  intros Hv Hold. split; [now apply lor_ge | apply lor_bits_kept].
Qed.

Lemma max_update_grows (r old : Z) : old <= max_update r old.
Proof. rewrite max_update_max. lia. Qed.

Lemma popcount_range (n : nat) : ∀ x : Z, 0 <= PCSA.popcount n x <= Z.of_nat n.
Proof.
  induction n as [| n IH]; intros x; cbn [PCSA.popcount]; [lia |].
  specialize (IH (Z.div2 x)). destruct (Z.odd x); cbn [Z.b2z]; lia.
Qed.

Lemma r_range (x : Z) : 0 <= PCSA.r x <= 32.
Proof. unfold PCSA.r, PCSA.p. apply (popcount_range 32). Qed.

(** An altered list is pointwise related to the list. *)
Lemma alter_Forall2 (Q : Z → Z → Prop) (f : Z → Z) (k : nat) (σ : list Z) :
  (∀ x, Q x x) → (∀ x, σ !! k = Some x → Q x (f x)) →
  Forall2 Q σ (alter f k σ).
Proof.
  intros Hrefl Hf. apply Forall2_same_length_lookup_2.
  - now rewrite length_alter.
  - intros i x y Hx Hy. destruct (decide (i = k)) as [-> | Hne].
    + rewrite list_lookup_alter_eq, Hx in Hy. cbn in Hy.
      injection Hy as <-. now apply Hf.
    + rewrite list_lookup_alter_ne, Hx in Hy by auto.
      injection Hy as <-. apply Hrefl.
Qed.

Lemma keeps_pure {S A : Type} (o : outcome A) : keeps_state (pure (S := S) o).
Proof. intros σ σ' a. unfold pure. destruct o; congruence. Qed.

Lemma keeps_ret {S A : Type} (a : A) : keeps_state (mret (M := method S) a).
Proof. intros σ σ' b. unfold mret, method_ret. congruence. Qed.

Lemma keeps_load (k : nat) : keeps_state (Sketch.load k).
Proof. intros σ σ' a. unfold Sketch.load. destruct (σ !! k); congruence. Qed.

Lemma keeps_bind {S A B : Type} (m : method S A) (g : A → method S B) :
  keeps_state m → (∀ a, keeps_state (g a)) → keeps_state (m ≫= g).
Proof.
  intros Hm Hg σ σ' b. unfold mbind, method_bind.
  destruct (m σ) as [[a τ] | u] eqn:Hrun; [| discriminate].
  intros Hrun'. rewrite <- (Hm σ τ a Hrun). exact (Hg a τ σ' b Hrun').
Qed.

Lemma keeps_for_loop {S A : Type} (body : nat → A → method S A) (n : nat) :
  (∀ k a, keeps_state (body k a)) →
  ∀ from acc, keeps_state (for_loop n from body acc).
Proof.
  intros Hbody. induction n as [| n IH]; intros from acc; cbn [for_loop].
  - apply keeps_ret.
  - apply keeps_bind; [apply Hbody | intros a; apply IH].
Qed.

Lemma counts_keep_state (libm_pow : Double.double → Double.double → Double.double)
    (M : Z) :
  keeps_state PE.count
  ∧ keeps_state (SA.count libm_pow M)
  ∧ keeps_state (LL.count libm_pow M)
  ∧ keeps_state (HLL.count libm_pow M).
Proof.
  repeat split.
  - intros σ σ' a. rewrite PE_count_run. apply keeps_pure.
  - unfold SA.count.
    repeat first
      [ apply keeps_pure | apply keeps_ret | apply keeps_load
      | apply keeps_for_loop; intros ? ?
      | apply keeps_bind; [| intros ?] ].
  - unfold LL.count.
    repeat first
      [ apply keeps_pure | apply keeps_ret | apply keeps_load
      | apply keeps_for_loop; intros ? ?
      | apply keeps_bind; [| intros ?] ].
  - unfold HLL.count.
    repeat first
      [ apply keeps_pure | apply keeps_ret | apply keeps_load
      | apply keeps_for_loop; intros ? ?
      | apply keeps_bind; [| intros ?] ].
Qed.

Variable hash_ : string → Z.
Variable murmurhash3_32 : string → Z.
Variable M : Z.
Hypothesis M_positive : 1 <= M.

Lemma PE_reachable_in_range (sketch_ : Z) :
  reachable PE.constructed (PE.item hash_) sketch_ → U32.in_range sketch_.
Proof.
  induction 1 as [p [mem Hmem] | p s p' _ IH Hitem].
  - injection Hmem as <-. unfold U32.in_range, U32.modulus. lia.
  - injection Hitem as <-. apply lor_in_range; [exact IH | apply R_in_range].
Qed.

Lemma SA_reachable_in_range (σ : list Z) :
  reachable (Sketch.constructed (SA.construct M) M) (SA.item hash_ murmurhash3_32 M) σ →
  length σ = Z.to_nat M ∧ Forall U32.in_range σ.
Proof.
  induction 1 as [σ Hnew | σ s σ' _ [Hlen Hall] Hitem].
  - apply constructed_empty in Hnew as ->. split.
    + apply length_replicate.
    + apply Forall_replicate. unfold U32.in_range, U32.modulus. lia.
  - rewrite SA_item_run in Hitem by assumption. injection Hitem as <-.
    unfold or_step. split; [now rewrite length_alter |].
    apply Forall_alter; [exact Hall |].
    intros x _ Hx. apply lor_in_range; [exact Hx | apply R_in_range].
Qed.

Lemma max_reachable_in_range (item : string → method Sketch.t unit) (σ : list Z) :
  (∀ s τ, length τ = Z.to_nat M → item s τ = Done (tt, max_step hash_ murmurhash3_32 M s τ)) →
  reachable (Sketch.constructed (Sketch.clear M) M) item σ →
  length σ = Z.to_nat M ∧ Forall (λ x, 0 <= x <= 32) σ.
Proof.
  intros Hrun.
  induction 1 as [σ Hnew | σ s σ' _ [Hlen Hall] Hitem].
  - apply constructed_empty in Hnew as ->. split.
    + apply length_replicate.
    + apply Forall_replicate. lia.
  - rewrite Hrun in Hitem by assumption. injection Hitem as <-.
    unfold max_step. split; [now rewrite length_alter |].
    apply Forall_alter; [exact Hall |].
    intros x _ Hx. rewrite max_update_max.
    pose proof (r_range (U32.wrap (hash_ s))). lia.
Qed.

End Monotone.

(** C7. In every state reachable from the constructor through [item], for
    [M >= 1], [item] succeeds and leaves each register at least as large as
    it was: a bitmap register keeps all its bits, a max-rank register does
    not decrease. A [count] that returns leaves every field as it was. *)
Theorem registers_monotone_count_pure (hash_ murmurhash3_32 : string → Z)
    (libm_pow : Double.double → Double.double → Double.double) (M : Z)
    (HM : 1 <= M) :
  (∀ (sketch_ : Z) (s : string),
     reachable PE.constructed (PE.item hash_) sketch_ →
     ∃ sketch_', PE.item hash_ s sketch_ = Done (tt, sketch_')
                 ∧ bitmap_grows sketch_ sketch_')
  ∧ (∀ (σ : list Z) (s : string),
       reachable (Sketch.constructed (SA.construct M) M)
         (SA.item hash_ murmurhash3_32 M) σ →
       ∃ σ', SA.item hash_ murmurhash3_32 M s σ = Done (tt, σ')
             ∧ Forall2 bitmap_grows σ σ')
  ∧ (∀ (σ : list Z) (s : string),
       reachable (Sketch.constructed (LL.construct M) M)
         (LL.item hash_ murmurhash3_32 M) σ →
       ∃ σ', LL.item hash_ murmurhash3_32 M s σ = Done (tt, σ')
             ∧ Forall2 Z.le σ σ')
  ∧ (∀ (σ : list Z) (s : string),
       reachable (Sketch.constructed (HLL.construct M) M)
         (HLL.item hash_ murmurhash3_32 M) σ →
       ∃ σ', HLL.item hash_ murmurhash3_32 M s σ = Done (tt, σ')
             ∧ Forall2 Z.le σ σ')
  ∧ keeps_state PE.count
  ∧ keeps_state (SA.count libm_pow M)
  ∧ keeps_state (LL.count libm_pow M)
  ∧ keeps_state (HLL.count libm_pow M).
Proof.
  split; [| split; [| split; [| split]]].
  - intros p s Hreach. eexists. split; [reflexivity |].
    apply PE_reachable_in_range in Hreach.
    apply or_update_grows; [apply R_in_range | apply Hreach].
  - intros σ s Hreach.
    destruct (SA_reachable_in_range hash_ murmurhash3_32 M HM σ Hreach)
      as [Hlen Hall].
    eexists. split; [now apply SA_item_run |].
    apply alter_Forall2.
    + intros x. split; [lia | now intros i _ Hi].
    + intros x Hx. apply or_update_grows; [apply R_in_range |].
      apply (Forall_lookup_1 _ _ _ _ Hall Hx).
  - intros σ s Hreach.
    destruct (max_reachable_in_range hash_ murmurhash3_32 M HM
                (LL.item hash_ murmurhash3_32 M) σ) as [Hlen Hall].
    { intros t τ Hτ. now apply LL_item_run. }
    { exact Hreach. }
    eexists. split; [now apply LL_item_run |].
    apply alter_Forall2; [intros x; apply Z.le_refl |].
    intros x _. apply max_update_grows.
  - intros σ s Hreach.
    destruct (max_reachable_in_range hash_ murmurhash3_32 M HM
                (HLL.item hash_ murmurhash3_32 M) σ) as [Hlen Hall].
    { intros t τ Hτ. now apply HLL_item_run. }
    { exact Hreach. }
    eexists. split; [now apply HLL_item_run |].
    apply alter_Forall2; [intros x; apply Z.le_refl |].
    intros x _. apply max_update_grows.
  - apply counts_keep_state.
Qed.

(** The theorem at [M = 5]: a second item on the sketch that holds "a". *)
Lemma registers_monotone_count_pure_witness :
  1 <= 5
  ∧ ∃ σ', LL.item length_hash length_hash 5 "ab" [0; 1; 0; 0; 0] = Done (tt, σ')
          ∧ Forall2 Z.le [0; 1; 0; 0; 0] σ'.
Proof.
  split; [lia |].
  refine (proj1 (proj2 (proj2
    (registers_monotone_count_pure length_hash length_hash (λ _ _, S754_nan) 5
       ltac:(lia)))) [0; 1; 0; 0; 0] "ab"%string _).
  apply (reachable_item _ _ (Sketch.empty 5) "a"%string).
  - apply reachable_new. exists (Sketch.empty 5). split; reflexivity.
  - reflexivity.
Defined.

(** ** The sums of [count] *)

Section Sums.

Lemma foldl_wrapped_sum (f : Z → Z) (σ : list Z) :
  ∀ a : Z,
    U32.in_range a →
    foldl (λ sum x, U32.add sum (f x)) a σ = U32.wrap (a + total f σ).
Proof.
  induction σ as [| x σ IH]; intros a Ha; cbn [foldl total foldr].
  - unfold U32.wrap. rewrite Z.add_0_r. symmetry. now apply Z.mod_small.
  - fold (total f σ). rewrite IH by apply wrap_in_range.
    unfold U32.add, U32.wrap.
    rewrite Zplus_mod_idemp_l. f_equal. lia.
Qed.

Lemma wrapped_sum_total (f : Z → Z) (σ : list Z) :
  wrapped_sum f σ = U32.wrap (total f σ).
Proof.
  unfold wrapped_sum. rewrite foldl_wrapped_sum; [reflexivity |].
  unfold U32.in_range, U32.modulus. lia.
Qed.

Lemma total_ext (f g : Z → Z) (σ : list Z) :
  Forall (λ x, f x = g x) σ → total f σ = total g σ.
Proof.
  induction 1 as [| x σ Hx _ IH]; [reflexivity |].
  cbn [total foldr]. fold (total f σ) (total g σ). now rewrite Hx, IH.
Qed.

Lemma total_replicate (f : Z → Z) (n : nat) (x : Z) :
  total f (replicate n x) = Z.of_nat n * f x.
Proof.
  induction n as [| n IH]; [reflexivity |].
  cbn [replicate total foldr]. fold (total f (replicate n x)).
  rewrite IH. lia.
Qed.

Lemma total_bounds (f : Z → Z) (c : Z) (σ : list Z) :
  Forall (λ x, 0 <= f x <= c) σ →
  0 <= total f σ <= c * Z.of_nat (length σ).
Proof.
  induction 1 as [| x σ Hx _ IH]; cbn [total foldr length]; [lia |].
  fold (total f σ). lia.
Qed.

Lemma r_trailing_ones (x : Z) :
  U32.in_range x → PCSA.r x = trailing_ones 32 x.
Proof.
  intros Hx. destruct (Z.eq_dec x U32.max_value) as [-> | Hne].
  - now vm_compute.
  - apply R_r_trailing_ones. unfold U32.in_range, U32.max_value in *. lia.
Qed.

(** [2^rank] of a rank register's content is at most 32. *)
Lemma pow_trailing_ones_le (n : nat) :
  ∀ x : Z, 0 <= x → 2 ^ trailing_ones n x <= x + 1.
Proof.
  induction n as [| n IH]; intros x Hx; cbn [trailing_ones]; [cbn; lia |].
  pose proof (Z.div2_odd x) as Hdec.
  destruct (Z.odd x); cbn [Z.b2z] in Hdec; [| cbn; lia].
  pose proof (trailing_ones_bits n (Z.div2 x)) as (Hr & _).
  specialize (IH (Z.div2 x) ltac:(lia)).
  rewrite Z.add_comm, Z.pow_add_r by lia. lia.
Qed.

Lemma rank_register_term (x : Z) :
  0 <= x <= 32 → 0 <= 2 ^ trailing_ones 32 x <= 32.
Proof.
  intros Hx. pose proof (trailing_ones_bits 32 x) as (Hr & _).
  split; [apply Z.pow_nonneg; lia |].
  destruct (Z.eq_dec x 32) as [-> | Hne]; [now vm_compute |].
  pose proof (pow_trailing_ones_le 32 x ltac:(lia)). lia.
Qed.

End Sums.

(** ** The estimates *)

(** What the stochastic averaging class computes, on [M >= 1] 32-bit
    registers: [item] ORs [R(hash_(s))] into the register at index
    [murmurhash3_32(s) % M], for every [M]; and [count] returns
    [M * 2^mean / kPhi], in double precision and truncated, for [mean] the
    arithmetic mean of the registers' numbers of trailing ones, wherever
    the sum of these numbers fits 32 bits, which is in every state when
    [M < 2^27]. *)
Lemma stochastic_averaging_behaviour (hash_ murmurhash3_32 : string → Z)
    (libm_pow : Double.double → Double.double → Double.double) (M : Z)
    (s : string) (σ : list Z)
    (HM : 1 <= M) (Hlen : length σ = Z.to_nat M)
    (Hrange : Forall U32.in_range σ) :
  (∃ old : Z,
     σ !! Z.to_nat (U32.wrap (murmurhash3_32 s) mod M) = Some old
     ∧ SA.item hash_ murmurhash3_32 M s σ
       = Done (tt, <[Z.to_nat (U32.wrap (murmurhash3_32 s) mod M) :=
                       Z.lor old (PCSA.R (U32.wrap (hash_ s)))]> σ))
  ∧ (total (trailing_ones 32) σ < U32.modulus →
     SA.count libm_pow M σ
     = pure (Spec.stochastic_averaging_estimate libm_pow M σ) σ)
  ∧ (M < 2 ^ 27 →
     SA.count libm_pow M σ
     = pure (Spec.stochastic_averaging_estimate libm_pow M σ) σ).
Proof.
  assert (Hb : 0 <= total (trailing_ones 32) σ <= 32 * Z.of_nat (length σ)).
  { apply total_bounds. apply Forall_forall. intros x _.
    apply (trailing_ones_bits 32 x). }
  assert (Hcount : total (trailing_ones 32) σ < U32.modulus →
                   SA.count libm_pow M σ
                   = pure (Spec.stochastic_averaging_estimate libm_pow M σ) σ).
  { intros Hsum. rewrite SA_count_run by (assumption || lia).
    unfold Estimate.stochastic_averaging, Spec.stochastic_averaging_estimate.
    rewrite wrapped_sum_total.
    rewrite (total_ext PCSA.r (trailing_ones 32)).
    - unfold U32.wrap. rewrite Z.mod_small; [reflexivity | lia].
    - eapply Forall_impl; [exact Hrange |]. intros x. apply r_trailing_ones. }
  split; [| split].
  - destruct (bucket_run murmurhash3_32 M s ltac:(lia)) as [_ Hk].
    rewrite <- Hlen in Hk.
    destruct (lookup_lt_is_Some_2 σ _ Hk) as [old Hold].
    exists old. split; [exact Hold |].
    rewrite SA_item_run by (assumption || lia).
    unfold or_step.
    now rewrite <- (insert_as_alter _ σ _ old Hold).
  - exact Hcount.
  - intros HM27. apply Hcount. unfold U32.modulus. lia.
Qed.

(** The lemma at [M = 5], on registers of ranks 1, 2, 0, 1 and 1: their
    mean is 1 and [count] returns 12, the integer part of [5 * 2 / kPhi]. *)
Lemma stochastic_averaging_behaviour_witness :
  1 <= 5 ∧ length [1; 3; 0; 1; 1] = Z.to_nat 5
  ∧ Forall U32.in_range [1; 3; 0; 1; 1]
  ∧ SA.count (λ _ _, S754_nan) 5 [1; 3; 0; 1; 1]
    = pure (Spec.stochastic_averaging_estimate (λ _ _, S754_nan) 5 [1; 3; 0; 1; 1])
        [1; 3; 0; 1; 1]
  ∧ SA.count (λ _ _, S754_nan) 5 [1; 3; 0; 1; 1] = Done (12, [1; 3; 0; 1; 1]).
Proof.
  assert (H5 : 1 <= 5) by lia.
  assert (Hr : Forall U32.in_range [1; 3; 0; 1; 1]).
  { repeat constructor; unfold U32.modulus; lia. }
  split; [exact H5 |]. split; [reflexivity |]. split; [exact Hr |].
  split; [| reflexivity].
  refine (proj2 (proj2 (stochastic_averaging_behaviour length_hash length_hash
                          (λ _ _, S754_nan) 5 "a" [1; 3; 0; 1; 1] H5 eq_refl Hr)) _).
  lia.
Defined.

(** ** The sum of the ranks in 32 bits *)

Section Saturation.
Variables hash_ murmurhash3_32 : string → Z.
Variable M : Z.
Hypothesis M_positive : 1 <= M.
Hypothesis covered :
  ∀ k j : nat,
    (k < Z.to_nat M)%nat → (j < 32)%nat →
    ∃ s : string,
      bucket_index murmurhash3_32 M s = k
      ∧ PCSA.R (U32.wrap (hash_ s)) = 2 ^ Z.of_nat j.

Lemma or_next_one (j : nat) :
  (j < 32)%nat →
  or_update (2 ^ Z.of_nat j) (2 ^ Z.of_nat j - 1) = 2 ^ Z.of_nat (S j) - 1.
Proof.
  intros Hj.
  assert (Hall : forallb (λ j, or_update (2 ^ Z.of_nat j) (2 ^ Z.of_nat j - 1)
                               =? 2 ^ Z.of_nat (S j) - 1) (seq 0 32) = true)
    by (vm_compute; reflexivity).
  rewrite forallb_forall in Hall. apply Z.eqb_eq, Hall, in_seq. lia.
Qed.

(** A register can be filled one rank after the other. *)
Lemma fill_register (pre post : list Z) (j : nat) :
  (j ≤ 32)%nat → length (pre ++ 0 :: post) = Z.to_nat M →
  reachable (Sketch.constructed (SA.construct M) M)
    (SA.item hash_ murmurhash3_32 M) (pre ++ 0 :: post) →
  reachable (Sketch.constructed (SA.construct M) M)
    (SA.item hash_ murmurhash3_32 M) (pre ++ (2 ^ Z.of_nat j - 1) :: post).
Proof.
  intros Hj Hlen Hreach. induction j as [| j IH]; [exact Hreach |].
  specialize (IH ltac:(lia)).
  rewrite length_app in Hlen. cbn [length] in Hlen.
  destruct (covered (length pre) j ltac:(lia) ltac:(lia)) as (s & Hs & HR).
  apply (reachable_item _ _ (pre ++ (2 ^ Z.of_nat j - 1) :: post) s);
    [exact IH |].
  rewrite SA_item_run
    by (exact M_positive || (rewrite length_app; cbn [length]; lia)).
  unfold or_step. rewrite Hs, HR.
  replace (length pre) with (length pre + 0)%nat at 1 by lia.
  rewrite alter_app_r. cbn [alter list_alter].
  now rewrite or_next_one by lia.
Qed.

Lemma fill_registers (rest : nat) :
  ∀ n : nat,
    (n + rest)%nat = Z.to_nat M →
    reachable (Sketch.constructed (SA.construct M) M)
      (SA.item hash_ murmurhash3_32 M)
      (replicate n 4294967295 ++ replicate rest 0) →
    reachable (Sketch.constructed (SA.construct M) M)
      (SA.item hash_ murmurhash3_32 M) (replicate (n + rest) 4294967295).
Proof.
  induction rest as [| rest IH]; intros n Hn Hreach.
  - rewrite app_nil_r in Hreach. now rewrite Nat.add_0_r.
  - cbn [replicate] in Hreach.
    apply (fill_register _ _ 32 ltac:(lia)) in Hreach.
    + replace (n + S rest)%nat with (S n + rest)%nat by lia.
      apply IH; [lia |].
      rewrite replicate_S_end, <- app_assoc. exact Hreach.
    + rewrite length_app, length_replicate. cbn [length].
      rewrite length_replicate. lia.
Qed.

(** The sketch whose registers are all 0xFFFFFFFF is a state of the
    object, when some string goes to each bucket with each rank. *)
Lemma saturated_reachable :
  reachable (Sketch.constructed (SA.construct M) M)
    (SA.item hash_ murmurhash3_32 M) (replicate (Z.to_nat M) 4294967295).
Proof.
  apply (fill_registers (Z.to_nat M) 0 eq_refl). cbn [replicate app].
  apply reachable_new. exists (Sketch.empty M). split.
  - apply length_replicate.
  - apply clear_run, length_replicate.
Qed.

End Saturation.

Lemma unary_length (n : nat) : String.length (unary n) = n.
Proof.
  unfold unary. induction n as [| n IH]; [reflexivity |].
  cbn [replicate string_of_list_ascii].
  change (S (String.length (string_of_list_ascii (replicate n "a"%char))) = S n).
  now rewrite IH.
Qed.

(** The hash functions of the examples send a string to each bucket with
    each rank. *)
Lemma hashes_cover (M : Z) (k j : nat) :
  1 <= M <= U32.modulus → (k < Z.to_nat M)%nat → (j < 32)%nat →
  ∃ s : string,
    bucket_index block_hash M s = k
    ∧ PCSA.R (U32.wrap (ones_hash s)) = 2 ^ Z.of_nat j.
Proof.
  intros HM Hk Hj. exists (unary (32 * k + j)).
  unfold bucket_index, block_hash, ones_hash, length_hash.
  rewrite unary_length.
  assert (Hdiv : Z.of_nat (32 * k + j) / 32 = Z.of_nat k).
  { symmetry. apply Z.div_unique with (Z.of_nat j); lia. }
  assert (Hmod : Z.of_nat (32 * k + j) mod 32 = Z.of_nat j).
  { symmetry. apply Z.mod_unique with (Z.of_nat k); lia. }
  rewrite Hdiv, Hmod. split.
  - unfold U32.wrap. rewrite (Z.mod_small (Z.of_nat k)) by lia.
    rewrite Z.mod_small by lia. lia.
  - assert (Hall : forallb (λ j, PCSA.R (U32.wrap (2 ^ Z.of_nat j - 1))
                                 =? 2 ^ Z.of_nat j) (seq 0 32) = true)
      by (vm_compute; reflexivity).
    rewrite forallb_forall in Hall. apply Z.eqb_eq, Hall, in_seq. lia.
Qed.

(** C4 at [M = 2^27], on registers of 32 ones each: [count] adds the
    ranks in a [uint32_t], and their sum [2^27 * 32 = 2^32] wraps to 0. It
    returns 173517767, the integer part of [M * 2^0 / kPhi], where
    [M * 2^mean / kPhi] for the mean 32 of the ranks is
    745253134805527296. The sketch is a state of the object: a stream
    leads to it when the hash functions send some string to each bucket
    with each rank, as those of the examples do. *)
Theorem stochastic_averaging_sum_wraps :
  reachable (Sketch.constructed (SA.construct 134217728) 134217728)
    (SA.item ones_hash block_hash 134217728)
    (replicate (Z.to_nat 134217728) 4294967295)
  ∧ (∀ libm_pow,
       SA.count libm_pow 134217728 (replicate (Z.to_nat 134217728) 4294967295)
       = Done (173517767, replicate (Z.to_nat 134217728) 4294967295))
  ∧ (∀ libm_pow,
       Spec.stochastic_averaging_estimate libm_pow 134217728
         (replicate (Z.to_nat 134217728) 4294967295)
       = Done 745253134805527296)
  ∧ (∀ libm_pow,
       SA.count libm_pow 134217728 (replicate (Z.to_nat 134217728) 4294967295)
       ≠ pure (Spec.stochastic_averaging_estimate libm_pow 134217728
                 (replicate (Z.to_nat 134217728) 4294967295))
           (replicate (Z.to_nat 134217728) 4294967295)).
Proof.
  assert (Hcode : ∀ libm_pow,
            SA.count libm_pow 134217728 (replicate (Z.to_nat 134217728) 4294967295)
            = Done (173517767, replicate (Z.to_nat 134217728) 4294967295)).
  { intros libm_pow.
    rewrite SA_count_run by (lia || apply length_replicate).
    unfold Estimate.stochastic_averaging.
    rewrite wrapped_sum_total, total_replicate, Z2Nat.id by lia.
    change (PCSA.r 4294967295) with 32.
    change (U32.wrap (134217728 * 32)) with 0.
    reflexivity. }
  assert (Hspec : ∀ libm_pow,
            Spec.stochastic_averaging_estimate libm_pow 134217728
              (replicate (Z.to_nat 134217728) 4294967295)
            = Done 745253134805527296).
  { intros libm_pow. unfold Spec.stochastic_averaging_estimate.
    rewrite total_replicate, Z2Nat.id by lia.
    change (trailing_ones 32 4294967295) with 32.
    reflexivity. }
  split.
  { apply saturated_reachable; [lia |].
    intros k j Hk Hj.
    apply hashes_cover; [unfold U32.modulus; lia | exact Hk | exact Hj]. }
  split; [exact Hcode |]. split; [exact Hspec |].
  intros libm_pow. rewrite Hcode, Hspec. unfold pure. intros Heq.
  apply (f_equal (λ o, match o with Done (v, _) => v | Undefined _ => 0 end))
    in Heq.
  discriminate Heq.
Qed.

(** C2, as amended. For [M >= 1], [count] of the LogLog class returns
    [M * 2^(mean + 1) * kPhi], in double precision and truncated, where
    [mean] is the sum over the registers of [R(registers[k])], which is
    [2^rank(registers[k])] for the number [rank] of trailing ones of the
    register, divided by [M]: on every state of [M] registers below
    0xFFFFFFFF whose sum fits 32 bits, and so on every reachable state
    when [M < 2^27]. *)
Theorem loglog_estimate_of_ranks (hash_ murmurhash3_32 : string → Z)
    (libm_pow : Double.double → Double.double → Double.double) (M : Z)
    (σ : list Z) (HM : 1 <= M) :
  (length σ = Z.to_nat M →
   Forall (λ x, 0 <= x < U32.max_value) σ →
   total (λ x, 2 ^ trailing_ones 32 x) σ < U32.modulus →
   LL.count libm_pow M σ = pure (Spec.loglog_estimate_of_ranks libm_pow M σ) σ)
  ∧ (M < 2 ^ 27 →
     reachable (Sketch.constructed (LL.construct M) M)
       (LL.item hash_ murmurhash3_32 M) σ →
     LL.count libm_pow M σ = pure (Spec.loglog_estimate_of_ranks libm_pow M σ) σ).
Proof.
  assert (Hgen : length σ = Z.to_nat M →
                 Forall (λ x, 0 <= x < U32.max_value) σ →
                 total (λ x, 2 ^ trailing_ones 32 x) σ < U32.modulus →
                 LL.count libm_pow M σ
                 = pure (Spec.loglog_estimate_of_ranks libm_pow M σ) σ).
  { intros Hlen Hrange Hsum.
    rewrite LL_count_run by assumption.
    unfold Estimate.loglog, Spec.loglog_estimate_of_ranks, Spec.loglog_formula.
    rewrite wrapped_sum_total.
    rewrite (total_ext PCSA.R (λ x, 2 ^ trailing_ones 32 x)).
    - assert (Hb : 0 <= total (λ x, 2 ^ trailing_ones 32 x) σ
                   <= U32.modulus * Z.of_nat (length σ)).
      { apply total_bounds. apply Forall_forall. intros x _.
        pose proof (trailing_ones_bits 32 x) as (Hr & _).
        split; [apply Z.pow_nonneg; lia |].
        unfold U32.modulus. apply Z.pow_le_mono_r; lia. }
      unfold U32.wrap. rewrite Z.mod_small by lia. reflexivity.
    - eapply Forall_impl; [exact Hrange |]. intros x Hx.
      apply R_r_trailing_ones. exact Hx. }
  split; [exact Hgen |].
  intros HM27 Hreach.
  destruct (max_reachable_in_range hash_ murmurhash3_32 M HM
              (LL.item hash_ murmurhash3_32 M) σ) as [Hlen Hall].
  { intros t τ Hτ. now apply LL_item_run. }
  { exact Hreach. }
  apply Hgen; [exact Hlen | |].
  - eapply Forall_impl; [exact Hall |]. intros x Hx. cbv beta in *.
    unfold U32.max_value, U32.modulus. lia.
  - assert (Hb : 0 <= total (λ x, 2 ^ trailing_ones 32 x) σ
                 <= 32 * Z.of_nat (length σ)).
    { apply total_bounds. eapply Forall_impl; [exact Hall |].
      intros x Hx. now apply rank_register_term. }
    unfold U32.modulus. lia.
Qed.

(** The theorem at [M = 1] and the register 2. *)
Lemma loglog_estimate_of_ranks_witness :
  1 <= 1
  ∧ LL.count (λ _ _, S754_nan) 1 [2]
    = pure (Spec.loglog_estimate_of_ranks (λ _ _, S754_nan) 1 [2]) [2].
Proof.
  split; [lia |].
  refine (proj1 (loglog_estimate_of_ranks length_hash length_hash
                   (λ _ _, S754_nan) 1 [2] ltac:(lia)) eq_refl _ _).
  - repeat constructor; unfold U32.max_value, U32.modulus; lia.
  - now vm_compute.
Defined.

(** One LogLog register that holds the rank 2 (0b10): [count] adds
    [R(2) = 1] and returns 3, where the mean of [2^(registers[k])] is 4,
    for an estimate of 24. *)
Lemma loglog_mean_not_of_register_powers :
  (∀ libm_pow, LL.count libm_pow 1 [2] = Done (3, [2]))
  ∧ (∀ libm_pow, Spec.loglog_estimate libm_pow 1 [2] = Done 24)
  ∧ (∀ libm_pow,
       LL.count libm_pow 1 [2] ≠ pure (Spec.loglog_estimate libm_pow 1 [2]) [2]).
Proof.
  assert (Hcode : ∀ libm_pow, LL.count libm_pow 1 [2] = Done (3, [2]))
    by (intros libm_pow; reflexivity).
  assert (Hspec : ∀ libm_pow, Spec.loglog_estimate libm_pow 1 [2] = Done 24)
    by (intros libm_pow; reflexivity).
  split; [exact Hcode |]. split; [exact Hspec |].
  intros libm_pow. rewrite Hcode, Hspec. discriminate.
Qed.

(** C5 at [M = 65536]: [M * M] is computed in [unsigned] and wraps to 0, so
    [count] returns 0 on the empty sketch, where [M^2 * kPhi / sum] is
    101385. *)
Theorem hyperloglog_square_wraps :
  (∀ libm_pow,
     HLL.count libm_pow 65536 (Sketch.empty 65536)
     = Done (0, Sketch.empty 65536))
  ∧ (∀ libm_pow,
       Spec.hyperloglog_estimate libm_pow 65536 (Sketch.empty 65536)
       = Done 101385).
Proof.
  split; intros libm_pow.
  - rewrite HLL_count_run by (lia || apply length_replicate).
    assert (H : Estimate.hyperloglog libm_pow 65536 (Sketch.empty 65536) = Done 0)
      by (vm_compute; reflexivity).
    now rewrite H.
  - vm_compute. reflexivity.
Qed.

(** Where [M * M] fits 32 bits, [count] of the HyperLogLog class is
    [M^2 * kPhi / sum]. *)
Lemma hyperloglog_estimate_small
    (libm_pow : Double.double → Double.double → Double.double) (M : Z)
    (σ : list Z) :
  1 <= M < 65536 → length σ = Z.to_nat M →
  HLL.count libm_pow M σ = pure (Spec.hyperloglog_estimate libm_pow M σ) σ.
Proof.
  intros HM Hlen. rewrite HLL_count_run by (assumption || lia).
  unfold Estimate.hyperloglog, Spec.hyperloglog_estimate.
  unfold U32.mul, U32.wrap. rewrite Z.mod_small; [reflexivity |].
  unfold U32.modulus. nia.
Qed.

(** ** Construction *)

(** With [M = 0] the constructors run to their end, on an array without
    registers. *)
Lemma construct_accepts_zero :
  SA.construct 0 [] = Done (tt, [])
  ∧ LL.construct 0 [] = Done (tt, [])
  ∧ HLL.construct 0 [] = Done (tt, []).
Proof. repeat split. Qed.

(** C9, as amended. The constructor of each bucketed class validates
    nothing: for every [M], 0 included, it succeeds and leaves [M] registers
    at 0. With [M = 0] it is [item] that has no defined result, the modulo
    being by zero. *)
Theorem construction_unchecked (hash_ murmurhash3_32 : string → Z) (M : Z)
    (mem σ : list Z) (s : string) (Hmem : length mem = Z.to_nat M) :
  SA.construct M mem = Done (tt, replicate (Z.to_nat M) 0)
  ∧ LL.construct M mem = Done (tt, replicate (Z.to_nat M) 0)
  ∧ HLL.construct M mem = Done (tt, replicate (Z.to_nat M) 0)
  ∧ (M = 0 →
     SA.item hash_ murmurhash3_32 M s σ = Undefined ModuloByZero
     ∧ LL.item hash_ murmurhash3_32 M s σ = Undefined ModuloByZero
     ∧ HLL.item hash_ murmurhash3_32 M s σ = Undefined ModuloByZero).
Proof.
  unfold SA.construct, LL.construct, HLL.construct.
  rewrite clear_run by exact Hmem.
  split; [reflexivity |]. split; [reflexivity |]. split; [reflexivity |].
  intros ->. repeat split.
Qed.

(** The theorem at [M = 0]. *)
Lemma construction_unchecked_witness :
  length (@nil Z) = Z.to_nat 0
  ∧ SA.construct 0 [] = Done (tt, [])
  ∧ SA.item length_hash length_hash 0 "a" [] = Undefined ModuloByZero.
Proof.
  split; [reflexivity |].
  destruct (construction_unchecked length_hash length_hash 0 [] [] "a" eq_refl)
    as (Hsa & _ & _ & Hitem).
  split; [exact Hsa | exact (proj1 (Hitem eq_refl))].
Defined.

(** ** Divisors of [count] *)

Section Divisors.

Lemma digits2_pos_lower (m : positive) : 2 ^ (Zpos (digits2_pos m) - 1) <= Zpos m.
Proof.
  induction m as [m IH | m IH |]; cbn [digits2_pos]; [| | cbn; lia].
  - rewrite Pos2Z.inj_succ.
    replace (Z.succ (Zpos (digits2_pos m)) - 1)
      with (Z.succ (Zpos (digits2_pos m) - 1)) by lia.
    rewrite Z.pow_succ_r by lia. lia.
  - rewrite Pos2Z.inj_succ.
    replace (Z.succ (Zpos (digits2_pos m)) - 1)
      with (Z.succ (Zpos (digits2_pos m) - 1)) by lia.
    rewrite Z.pow_succ_r by lia. lia.
Qed.

Lemma shr_1_mantissa (mrs : shr_record) :
  0 <= shr_m mrs → shr_m (shr_1 mrs) = shr_m mrs / 2 ∧ 0 <= shr_m (shr_1 mrs).
Proof.
  destruct mrs as [m r t]. cbn [shr_m shr_1].
  destruct m as [| [p | p |] | p]; cbn [shr_m]; intros Hm; [| | | | lia].
  - split; [| lia]. apply Z.div_unique with 0; lia.
  - split; [| lia]. apply Z.div_unique with 1; lia.
  - split; [| lia]. apply Z.div_unique with 0; lia.
  - split; [| lia]. apply Z.div_unique with 1; lia.
Qed.

Lemma iter_shr_1_mantissa (n : positive) :
  ∀ mrs : shr_record,
    0 <= shr_m mrs →
    shr_m (SpecFloat.iter_pos shr_1 n mrs) = shr_m mrs / 2 ^ Zpos n
    ∧ 0 <= shr_m (SpecFloat.iter_pos shr_1 n mrs).
Proof.
  induction n as [n IH | n IH |]; intros mrs Hm; cbn [SpecFloat.iter_pos].
  - destruct (shr_1_mantissa mrs Hm) as [H1 H1'].
    destruct (IH _ H1') as [H2 H2'].
    destruct (IH _ H2') as [H3 H3'].
    split; [| exact H3'].
    rewrite H3, H2, H1, !Z.div_div by lia.
    f_equal. rewrite Pos2Z.inj_xI, <- !Z.pow_add_r by lia.
    rewrite <- (Z.pow_1_r 2) at 1. rewrite <- Z.pow_add_r by lia.
    f_equal. lia.
  - destruct (IH _ Hm) as [H2 H2'].
    destruct (IH _ H2') as [H3 H3'].
    split; [| exact H3'].
    rewrite H3, H2, !Z.div_div by lia.
    f_equal. rewrite Pos2Z.inj_xO, <- !Z.pow_add_r by lia.
    f_equal. lia.
  - apply shr_1_mantissa. exact Hm.
Qed.

Lemma shr_record_of_loc_mantissa (m : Z) (l : location) :
  shr_m (shr_record_of_loc m l) = m.
Proof. now destruct l as [| []]. Qed.

(** Rounding the position of a positive mantissa leaves it positive. *)
Lemma shr_fexp_positive (m : positive) (e : Z) (l : location) :
  -1074 <= e →
  1 <= shr_m (fst (shr_fexp Double.prec Double.emax (Zpos m) e l))
  ∧ -1074 <= snd (shr_fexp Double.prec Double.emax (Zpos m) e l).
Proof.
  intros He. unfold shr_fexp, shr, fexp, emin, Double.prec, Double.emax.
  cbn [Zdigits2].
  change (3 - 1024 - 53) with (-1074).
  pose proof (digits2_pos_lower m) as Hd.
  pose proof (Pos2Z.is_pos (digits2_pos m)) as Hdpos.
  destruct (Z.max (Zpos (digits2_pos m) + e - 53) (-1074) - e) as [| n | n] eqn:Hn;
    cbn [fst snd]; rewrite ?shr_record_of_loc_mantissa; try lia.
  destruct (iter_shr_1_mantissa n (shr_record_of_loc (Zpos m) l)) as [Hm _].
  { rewrite shr_record_of_loc_mantissa. lia. }
  rewrite Hm, shr_record_of_loc_mantissa.
  split; [| lia].
  apply Z.div_le_lower_bound; [apply Z.pow_pos_nonneg; lia |].
  rewrite Z.mul_1_r.
  apply Z.le_trans with (2 ^ (Zpos (digits2_pos m) - 1)); [| exact Hd].
  apply Z.pow_le_mono_r; lia.
Qed.

Lemma round_nearest_even_positive (m : Z) (l : location) :
  1 <= m → 1 <= round_nearest_even m l.
Proof.
  intros Hm. unfold round_nearest_even.
  destruct l as [| []]; try destruct (Z.even m); lia.
Qed.

Lemma binary_round_aux_positive (m : positive) (e : Z) (l : location) :
  -1074 <= e →
  positive_double (binary_round_aux Double.prec Double.emax false (Zpos m) e l) = true.
Proof.
  intros He. unfold binary_round_aux.
  destruct (shr_fexp_positive m e l He) as [Hm1 He1].
  destruct (shr_fexp Double.prec Double.emax (Zpos m) e l) as [mrs1 e1].
  cbn [fst snd] in Hm1, He1.
  pose proof (round_nearest_even_positive (shr_m mrs1)
                (loc_of_shr_record mrs1) Hm1) as Hr.
  destruct (round_nearest_even (shr_m mrs1) (loc_of_shr_record mrs1))
    as [| m1 | m1]; try lia.
  destruct (shr_fexp_positive m1 e1 loc_Exact He1) as [Hm2 He2].
  destruct (shr_fexp Double.prec Double.emax (Zpos m1) e1 loc_Exact) as [mrs2 e2].
  cbn [fst snd] in Hm2, He2.
  destruct (shr_m mrs2) as [| m2 | m2]; try lia.
  destruct (e2 <=? Double.emax - Double.prec); cbn [positive_double];
    [| reflexivity].
  apply Z.leb_le. exact He2.
Qed.

Lemma binary_round_positive (m : positive) (e : Z) :
  -1074 <= e →
  positive_double (binary_round Double.prec Double.emax false m e) = true.
Proof.
  intros He. unfold binary_round, shl_align.
  set (target := fexp Double.prec Double.emax (Zpos (digits2_pos m) + e)).
  assert (Ht : -1074 <= target).
  { unfold target, fexp, emin, Double.prec, Double.emax. lia. }
  destruct (target - e); now apply binary_round_aux_positive.
Qed.

(** [(double) M] is not zero for [M >= 1]. *)
Lemma of_Z_positive (z : Z) : 1 <= z → positive_double (Double.of_Z z) = true.
Proof.
  intros Hz. destruct z as [| p | p]; try lia.
  unfold Double.of_Z, binary_normalize. apply binary_round_positive. lia.
Qed.

Lemma positive_not_zero (x : Double.double) :
  positive_double x = true → Double.is_zero x = false.
Proof. now destruct x as [[] | [] | | [] ? ?]. Qed.

(** A sum of doubles above zero is above zero. *)
Lemma add_positive (x y : Double.double) :
  positive_double x = true → positive_double y = true →
  positive_double (Double.add x y) = true.
Proof.
  destruct x as [[] | [] | | [] mx ex]; try discriminate;
    destruct y as [[] | [] | | [] my ey]; try discriminate;
    try (intros _ _; reflexivity).
  cbn [positive_double]. intros Hx Hy.
  apply Z.leb_le in Hx, Hy.
  unfold emin, Double.prec, Double.emax in Hx, Hy.
  unfold Double.add, SFadd. cbn [cond_Zopp].
  rewrite <- Pos2Z.inj_add.
  unfold binary_normalize. apply binary_round_positive. lia.
Qed.

Lemma add_zero_positive (y : Double.double) :
  positive_double y = true → Double.add Double.zero y = y.
Proof. now destruct y as [[] | [] | | [] my ey]. Qed.

Lemma harmonic_term_positive
    (libm_pow : Double.double → Double.double → Double.double) (x : Z) :
  0 <= x <= 32 → positive_double (harmonic_term libm_pow x) = true.
Proof.
  intros Hx.
  assert (Hall : forallb (λ n, positive_double (harmonic_term libm_pow (Z.of_nat n)))
                   (seq 0 33) = true) by (vm_compute; reflexivity).
  rewrite forallb_forall in Hall.
  specialize (Hall (Z.to_nat x)). rewrite Z2Nat.id in Hall by lia.
  apply Hall. apply in_seq. lia.
Qed.

Lemma foldl_add_positive
    (libm_pow : Double.double → Double.double → Double.double) (σ : list Z) :
  Forall (λ x, 0 <= x <= 32) σ →
  ∀ acc, positive_double acc = true →
         positive_double
           (foldl (λ sum x, Double.add sum (harmonic_term libm_pow x)) acc σ) = true.
Proof.
  induction 1 as [| x σ Hx _ IH]; intros acc Hacc; cbn [foldl]; [exact Hacc |].
  apply IH. apply add_positive; [exact Hacc |].
  now apply harmonic_term_positive.
Qed.

(** HyperLogLog's divisor, on ranks and at least one register. *)
Lemma harmonic_sum_positive
    (libm_pow : Double.double → Double.double → Double.double) (σ : list Z) :
  Forall (λ x, 0 <= x <= 32) σ → σ ≠ [] →
  positive_double (harmonic_sum libm_pow σ) = true.
Proof.
  intros Hall Hne. destruct σ as [| x σ]; [congruence |].
  apply Forall_cons in Hall as [Hx Hall].
  unfold harmonic_sum. cbn [foldl].
  pose proof (harmonic_term_positive libm_pow x Hx) as Ht.
  rewrite add_zero_positive by exact Ht.
  now apply foldl_add_positive.
Qed.

End Divisors.

Section SafeDivision.

Lemma div_by_positive (x y : Double.double) :
  positive_double y = true →
  Double.div x y = Done (SFdiv Double.prec Double.emax x y).
Proof.
  intros Hy. unfold Double.div. now rewrite positive_not_zero.
Qed.

Lemma to_size_t_divides_safely (x : Double.double) :
  divides_safely (Double.to_size_t x).
Proof.
  unfold divides_safely, Double.to_size_t.
  destruct (Double.trunc x) as [z |]; [| discriminate].
  now destruct ((0 <=? z) && (z <? Double.size_t_modulus)).
Qed.

Lemma pure_divides_safely {S A : Type} (o : outcome A) (σ : S) :
  divides_safely o → divides_safely (pure o σ).
Proof.
  unfold divides_safely. destruct o as [a | u]; cbn; [discriminate |].
  intros Hu Heq. apply Hu. congruence.
Qed.

Lemma kPhi_positive : positive_double PCSA.kPhi = true.
Proof. reflexivity. Qed.

(** The divisors of the four estimates are [kPhi], [(double) M] and, for
    HyperLogLog, the sum of the registers' terms: none is zero when
    [M >= 1] and, for HyperLogLog, the registers hold ranks. *)
Lemma estimates_divide_safely
    (libm_pow : Double.double → Double.double → Double.double) (M : Z)
    (σ : list Z) (sketch_ : Z) :
  1 <= M →
  divides_safely (Estimate.pcsa sketch_)
  ∧ divides_safely (Estimate.stochastic_averaging libm_pow M σ)
  ∧ divides_safely (Estimate.loglog libm_pow M σ)
  ∧ (Forall (λ x, 0 <= x <= 32) σ → σ ≠ [] →
     divides_safely (Estimate.hyperloglog libm_pow M σ)).
Proof.
  intros HM. pose proof (of_Z_positive M HM) as HMpos.
  unfold Estimate.pcsa, Estimate.stochastic_averaging, Estimate.loglog,
    Estimate.hyperloglog.
  split; [| split; [| split]].
  - rewrite div_by_positive by apply kPhi_positive.
    apply to_size_t_divides_safely.
  - rewrite div_by_positive by exact HMpos. cbn [mbind outcome_bind].
    rewrite div_by_positive by apply kPhi_positive.
    apply to_size_t_divides_safely.
  - rewrite div_by_positive by exact HMpos.
    apply to_size_t_divides_safely.
  - intros Hall Hne.
    rewrite div_by_positive by now apply harmonic_sum_positive.
    apply to_size_t_divides_safely.
Qed.

End SafeDivision.

(** ** Magnitudes of doubles *)

Section Powers.

(** Powers of two with exponents of any sign ([2^a] is 0 for [a < 0]). *)
Lemma pow_exponent_lt (a b : Z) : 0 < 2 ^ a → 2 ^ a < 2 ^ b → a < b.
Proof.
  intros Ha Hab.
  destruct (Z.lt_ge_cases a b) as [Hlt | Hge]; [exact Hlt |].
  destruct (Z.lt_ge_cases b 0) as [Hb | Hb].
  - rewrite (Z.pow_neg_r 2 b) in Hab by exact Hb. lia.
  - pose proof (Z.pow_le_mono_r 2 b a ltac:(lia) Hge). lia.
Qed.

Lemma pow_positive_exponent (a m : Z) : 1 <= m → m < 2 ^ a → 1 <= a.
Proof.
  intros Hm Ha.
  destruct (Z.lt_ge_cases a 1) as [Hlt | Hge]; [| exact Hge].
  destruct (Z.lt_ge_cases a 0) as [Hneg | Hpos].
  - rewrite Z.pow_neg_r in Ha by exact Hneg. lia.
  - replace a with 0 in Ha by lia. cbn in Ha. lia.
Qed.

Lemma pow_shift_le (a d m : Z) :
  1 <= m → 2 ^ a <= m → 0 <= d → 2 ^ (a + d) <= m * 2 ^ d.
Proof.
  intros Hm Ha Hd.
  assert (Hpd : 0 < 2 ^ d) by (apply Z.pow_pos_nonneg; lia).
  destruct (Z.lt_ge_cases a 0) as [Hneg | Hpos].
  - destruct (Z.lt_ge_cases (a + d) 0) as [Hn | Hp].
    + rewrite Z.pow_neg_r by exact Hn. nia.
    + pose proof (Z.pow_le_mono_r 2 (a + d) d ltac:(lia) ltac:(lia)). nia.
  - rewrite Z.pow_add_r by lia. nia.
Qed.

Lemma pow_shift_lt (a d m : Z) :
  1 <= m → m < 2 ^ a → 0 <= d → m * 2 ^ d < 2 ^ (a + d).
Proof.
  intros Hm Ha Hd.
  pose proof (pow_positive_exponent a m Hm Ha) as Hpos.
  assert (Hpd : 0 < 2 ^ d) by (apply Z.pow_pos_nonneg; lia).
  rewrite Z.pow_add_r by lia. nia.
Qed.

Lemma pow_mul_le (a b x y : Z) :
  1 <= x → 1 <= y → 2 ^ a <= x → 2 ^ b <= y → 2 ^ (a + b) <= x * y.
Proof.
  intros Hx Hy Ha Hb.
  destruct (Z.lt_ge_cases a 0) as [Han | Hap].
  - destruct (Z.lt_ge_cases (a + b) 0) as [Hn | Hp].
    + rewrite Z.pow_neg_r by exact Hn. nia.
    + pose proof (Z.pow_le_mono_r 2 (a + b) b ltac:(lia) ltac:(lia)). nia.
  - destruct (Z.lt_ge_cases b 0) as [Hbn | Hbp].
    + destruct (Z.lt_ge_cases (a + b) 0) as [Hn | Hp].
      * rewrite Z.pow_neg_r by exact Hn. nia.
      * pose proof (Z.pow_le_mono_r 2 (a + b) a ltac:(lia) ltac:(lia)). nia.
    + rewrite Z.pow_add_r by lia.
      assert (0 < 2 ^ a) by (apply Z.pow_pos_nonneg; lia).
      assert (0 < 2 ^ b) by (apply Z.pow_pos_nonneg; lia).
      nia.
Qed.

Lemma pow_mul_lt (a b x y : Z) :
  1 <= x → 1 <= y → x < 2 ^ a → y < 2 ^ b → x * y < 2 ^ (a + b).
Proof.
  intros Hx Hy Ha Hb.
  pose proof (pow_positive_exponent a x Hx Ha).
  pose proof (pow_positive_exponent b y Hy Hb).
  rewrite Z.pow_add_r by lia. nia.
Qed.

End Powers.

Section Digits.

(** [digits2_pos m] is the [d] with [2^(d-1) <= m < 2^d]. *)
Lemma digits2_pos_upper (m : positive) : Zpos m < 2 ^ Zpos (digits2_pos m).
Proof.
  induction m as [m IH | m IH |]; cbn [digits2_pos]; [| | cbn; lia].
  - rewrite Pos2Z.inj_succ, Z.pow_succ_r by lia. lia.
  - rewrite Pos2Z.inj_succ, Z.pow_succ_r by lia. lia.
Qed.

Lemma digits2_pos_unique (m : positive) (d : Z) :
  2 ^ (d - 1) <= Zpos m < 2 ^ d → Zpos (digits2_pos m) = d.
Proof.
  intros [Hlo Hhi].
  pose proof (digits2_pos_lower m) as Hl.
  pose proof (digits2_pos_upper m) as Hu.
  pose proof (pow_positive_exponent d (Zpos m) ltac:(lia) Hhi) as Hd.
  assert (H1 : d - 1 < Zpos (digits2_pos m)).
  { apply pow_exponent_lt; [apply Z.pow_pos_nonneg; lia | lia]. }
  assert (H2 : Zpos (digits2_pos m) - 1 < d).
  { apply pow_exponent_lt; [apply Z.pow_pos_nonneg; lia | lia]. }
  lia.
Qed.

End Digits.

Section Rounding.

Lemma iter_xO_value (m d : positive) : Zpos (Pos.iter xO m d) = Zpos m * 2 ^ Zpos d.
Proof.
  change (Pos.iter xO m d) with (shift_pos d m).
  rewrite shift_pos_correct. change (Z.pow_pos 2 d) with (2 ^ Zpos d). lia.
Qed.

(** Rounding the position keeps a mantissa between two powers of two. *)
Lemma shr_fexp_between (m : positive) (e : Z) (l : location) (j k : Z) :
  -1074 <= j → 2 ^ (j - e) <= Zpos m < 2 ^ (k - e) →
  1 <= shr_m (fst (shr_fexp Double.prec Double.emax (Zpos m) e l))
  ∧ 2 ^ (j - snd (shr_fexp Double.prec Double.emax (Zpos m) e l))
    <= shr_m (fst (shr_fexp Double.prec Double.emax (Zpos m) e l))
    < 2 ^ (k - snd (shr_fexp Double.prec Double.emax (Zpos m) e l)).
Proof.
  intros Hj [Hlo Hhi].
  unfold shr_fexp, shr, fexp, emin, Double.prec, Double.emax.
  cbn [Zdigits2].
  change (3 - 1024 - 53) with (-1074).
  pose proof (digits2_pos_lower m) as Hd.
  pose proof (Pos2Z.is_pos (digits2_pos m)) as Hdpos.
  destruct (Z.max (Zpos (digits2_pos m) + e - 53) (-1074) - e) as [| n | n] eqn:Hn;
    cbn [fst snd]; rewrite ?shr_record_of_loc_mantissa; try lia.
  destruct (iter_shr_1_mantissa n (shr_record_of_loc (Zpos m) l)) as [Hm _].
  { rewrite shr_record_of_loc_mantissa. lia. }
  rewrite Hm, shr_record_of_loc_mantissa.
  assert (Hpn : 0 < 2 ^ Zpos n) by (apply Z.pow_pos_nonneg; lia).
  assert (Hshift : 2 ^ Zpos n <= Zpos m).
  { destruct (Z.max_spec (Zpos (digits2_pos m) + e - 53) (-1074)) as [[_ Hmax] | [_ Hmax]].
    - apply Z.le_trans with (2 ^ (j - e)); [| exact Hlo].
      apply Z.pow_le_mono_r; lia.
    - apply Z.le_trans with (2 ^ (Zpos (digits2_pos m) - 1)); [| exact Hd].
      apply Z.pow_le_mono_r; lia. }
  assert (Hnk : Zpos n < k - e).
  { apply pow_exponent_lt; [exact Hpn | lia]. }
  split; [| split].
  - apply Z.div_le_lower_bound; lia.
  - destruct (Z.lt_ge_cases (j - (e + Zpos n)) 0) as [Hneg | Hpos].
    + rewrite Z.pow_neg_r by exact Hneg. apply Z.div_pos; lia.
    + apply Z.div_le_lower_bound; [exact Hpn |].
      rewrite <- Z.pow_add_r by lia.
      replace (Zpos n + (j - (e + Zpos n))) with (j - e) by lia. exact Hlo.
  - apply Z.div_lt_upper_bound; [exact Hpn |].
    rewrite <- Z.pow_add_r by lia.
    replace (Zpos n + (k - (e + Zpos n))) with (k - e) by lia. exact Hhi.
Qed.

Lemma round_nearest_even_bounds (m : Z) (l : location) :
  m <= round_nearest_even m l <= m + 1.
Proof.
  unfold round_nearest_even.
  destruct l as [| []]; try destruct (Z.even m); lia.
Qed.

(** A rounded number between [2^j] and [2^k] is a double between [2^j]
    and [2^(k+1)]. *)
Lemma binary_round_aux_between (m : positive) (e : Z) (l : location) (j k : Z) :
  -1074 <= j → k <= 971 → 2 ^ (j - e) <= Zpos m < 2 ^ (k - e) →
  between j (k + 1)
    (binary_round_aux Double.prec Double.emax false (Zpos m) e l) = true.
Proof.
  intros Hj Hk Hm. unfold binary_round_aux.
  destruct (shr_fexp_between m e l j k Hj Hm) as (H1 & Hlo1 & Hhi1).
  destruct (shr_fexp Double.prec Double.emax (Zpos m) e l) as [mrs1 e1].
  cbn [fst snd] in H1, Hlo1, Hhi1.
  pose proof (round_nearest_even_bounds (shr_m mrs1) (loc_of_shr_record mrs1))
    as [Hr1 Hr2].
  pose proof (pow_positive_exponent (k - e1) (shr_m mrs1) H1 Hhi1) as Hke1.
  destruct (round_nearest_even (shr_m mrs1) (loc_of_shr_record mrs1))
    as [| m1 | m1]; try lia.
  assert (Hm1 : 2 ^ (j - e1) <= Zpos m1 < 2 ^ (k + 1 - e1)).
  { split; [lia |].
    replace (k + 1 - e1) with (Z.succ (k - e1)) by lia.
    rewrite Z.pow_succ_r by lia. lia. }
  destruct (shr_fexp_between m1 e1 loc_Exact j (k + 1) Hj Hm1) as (H2 & Hlo2 & Hhi2).
  destruct (shr_fexp Double.prec Double.emax (Zpos m1) e1 loc_Exact) as [mrs2 e2].
  cbn [fst snd] in H2, Hlo2, Hhi2.
  pose proof (pow_positive_exponent (k + 1 - e2) (shr_m mrs2) H2 Hhi2) as Hke2.
  destruct (shr_m mrs2) as [| m2 | m2]; try lia.
  unfold Double.emax, Double.prec.
  destruct (Z.leb_spec e2 (1024 - 53)) as [_ | Hover]; [| lia].
  cbn [between]. apply andb_true_iff. split; [apply Z.leb_le | apply Z.ltb_lt]; lia.
Qed.

(** So is a number aligned before it is rounded, and the conversion of an
    integer. *)
Lemma binary_round_between (m : positive) (e j k : Z) :
  -1074 <= j → k <= 971 → 2 ^ (j - e) <= Zpos m < 2 ^ (k - e) →
  between j (k + 1) (binary_round Double.prec Double.emax false m e) = true.
Proof.
  intros Hj Hk [Hlo Hhi]. unfold binary_round, shl_align.
  destruct (fexp Double.prec Double.emax (Zpos (digits2_pos m) + e) - e)
    as [| d | d] eqn:Hd; try (apply binary_round_aux_between; lia).
  apply binary_round_aux_between; [exact Hj | exact Hk |].
  rewrite iter_xO_value.
  replace (fexp Double.prec Double.emax (Zpos (digits2_pos m) + e))
    with (e - Zpos d) by lia.
  replace (j - (e - Zpos d)) with (j - e + Zpos d) by lia.
  replace (k - (e - Zpos d)) with (k - e + Zpos d) by lia.
  split; [apply pow_shift_le | apply pow_shift_lt]; lia.
Qed.

Lemma of_Z_between (z j k : Z) :
  0 <= j → k <= 971 → 2 ^ j <= z < 2 ^ k →
  between j (k + 1) (Double.of_Z z) = true.
Proof.
  intros Hj Hk [Hlo Hhi].
  assert (Hz : 1 <= z).
  { pose proof (Z.pow_pos_nonneg 2 j ltac:(lia) Hj). lia. }
  destruct z as [| p | p]; try lia.
  unfold Double.of_Z, binary_normalize.
  apply binary_round_between; [lia | exact Hk |].
  now rewrite !Z.sub_0_r.
Qed.

Lemma between_finite (j k : Z) (x : Double.double) :
  between j k x = true →
  ∃ (m : positive) (e : Z),
    x = S754_finite false m e ∧ 2 ^ (j - e) <= Zpos m < 2 ^ (k - e).
Proof.
  destruct x as [| | | [] m e]; try discriminate.
  cbn [between]. intros H. apply andb_true_iff in H as [H1 H2].
  apply Z.leb_le in H1. apply Z.ltb_lt in H2. now exists m, e.
Qed.

(** A product lies between the products of the bounds, up to rounding. *)
Lemma mul_between (a b c d : Z) (x y : Double.double) :
  between a b x = true → between c d y = true →
  -1074 <= a + c → b + d <= 971 →
  between (a + c) (b + d + 1) (Double.mul x y) = true.
Proof.
  intros Hx Hy Hlo Hhi.
  apply between_finite in Hx as (mx & ex & -> & Hx1 & Hx2).
  apply between_finite in Hy as (my & ey & -> & Hy1 & Hy2).
  unfold Double.mul, SFmul. cbn [xorb].
  apply binary_round_aux_between; [exact Hlo | exact Hhi |].
  rewrite Pos2Z.inj_mul.
  replace (a + c - (ex + ey)) with ((a - ex) + (c - ey)) by lia.
  replace (b + d - (ex + ey)) with ((b - ex) + (d - ey)) by lia.
  split; [apply pow_mul_le | apply pow_mul_lt]; lia.
Qed.

End Rounding.

Section Quotients.

(** A quotient lies between the quotients of the bounds, up to rounding:
    the divisor is not zero and the result no less than [2^(a-d)]. *)
Lemma div_between (a b c d : Z) (x y : Double.double) :
  between a b x = true → between c d y = true →
  -1074 <= a - d → b - c <= 971 →
  ∃ q : Double.double,
    Double.div x y = Done q ∧ between (a - d) (b - c + 1) q = true.
Proof.
  intros Hx Hy Hlo Hhi.
  apply between_finite in Hx as (mx & ex & -> & Hx1 & Hx2).
  apply between_finite in Hy as (my & ey & -> & Hy1 & Hy2).
  eexists. split; [reflexivity |].
  unfold SFdiv, SFdiv_core_binary. cbn [Zdigits2 xorb].
  set (e' := Z.min (fexp Double.prec Double.emax
                      (Zpos (digits2_pos mx) + ex - (Zpos (digits2_pos my) + ey)))
               (ex - ey)).
  set (s := ex - ey - e').
  assert (Hs : 0 <= s) by (unfold s, e'; lia).
  set (m' := match s with
             | 0 => Zpos mx
             | Zpos _ => Z.shiftl (Zpos mx) s
             | Zneg _ => 0
             end).
  assert (Hm' : m' = Zpos mx * 2 ^ s).
  { unfold m'. destruct s as [| p | p]; [lia | | lia].
    apply Z.shiftl_mul_pow2. lia. }
  assert (Hps : 0 < 2 ^ s) by (apply Z.pow_pos_nonneg; lia).
  destruct (Z.div_eucl m' (Zpos my)) as [q r] eqn:Hdiv.
  assert (Hq : q = m' / Zpos my) by (unfold Z.div; now rewrite Hdiv).
  assert (Hmod : Zpos my * q <= m').
  { rewrite Hq. apply Z.mul_div_le. lia. }
  pose proof (pow_positive_exponent (b - ex) (Zpos mx) ltac:(lia) Hx2) as HB.
  pose proof (pow_positive_exponent (d - ey) (Zpos my) ltac:(lia) Hy2) as HD.
  assert (Hlower : 2 ^ (a - d - e') <= q).
  { destruct (Z.lt_ge_cases (a - d - e') 0) as [Hneg | Hpos].
    - rewrite Z.pow_neg_r by exact Hneg. rewrite Hq. apply Z.div_pos; lia.
    - rewrite Hq. apply Z.div_le_lower_bound; [lia |].
      apply Z.le_trans with (2 ^ (d - ey) * 2 ^ (a - d - e')).
      + apply Z.mul_le_mono_nonneg_r; [apply Z.pow_nonneg; lia | lia].
      + rewrite <- Z.pow_add_r by lia. rewrite Hm'.
        replace (d - ey + (a - d - e')) with (a - ex + s) by (unfold s; lia).
        apply pow_shift_le; lia. }
  assert (Hone : 1 <= q).
  { unfold fexp, emin, Double.prec, Double.emax in e'.
    change (3 - 1024 - 53) with (-1074) in e'.
    destruct (Z.lt_ge_cases (a - d - e') 0) as [Hneg | Hpos].
    - pose proof (digits2_pos_lower mx) as Hd1.
      pose proof (digits2_pos_upper my) as Hd2.
      pose proof (Pos2Z.is_pos (digits2_pos mx)) as Hp1.
      pose proof (Pos2Z.is_pos (digits2_pos my)) as Hp2.
      assert (Hsd : 53 - Zpos (digits2_pos mx) + Zpos (digits2_pos my) <= s).
      { unfold s, e'. lia. }
      rewrite Hq. apply Z.div_le_lower_bound; [lia |]. rewrite Z.mul_1_r, Hm'.
      apply Z.le_trans with (2 ^ (Zpos (digits2_pos mx) - 1 + s)).
      + apply Z.le_trans with (2 ^ Zpos (digits2_pos my)); [lia |].
        apply Z.pow_le_mono_r; lia.
      + apply pow_shift_le; lia.
    - pose proof (Z.pow_pos_nonneg 2 (a - d - e') ltac:(lia) Hpos). lia. }
  assert (Hupper : q < 2 ^ (b - c - e')).
  { rewrite Hq. apply Z.div_lt_upper_bound; [lia |].
    assert (Hm'lt : m' < 2 ^ (b - ex + s)).
    { rewrite Hm'. apply pow_shift_lt; lia. }
    destruct (Z.lt_ge_cases (c - ey) 0) as [Hneg | Hpos].
    - apply Z.lt_le_trans with (2 ^ (b - ex + s)); [exact Hm'lt |].
      apply Z.le_trans with (1 * 2 ^ (b - c - e')).
      + rewrite Z.mul_1_l. apply Z.pow_le_mono_r; unfold s; lia.
      + apply Z.mul_le_mono_nonneg_r; [apply Z.pow_nonneg; lia | lia].
    - assert (Hc : c - ey < b - ex + s).
      { apply pow_exponent_lt; [apply Z.pow_pos_nonneg; lia |]. nia. }
      apply Z.lt_le_trans with (2 ^ (b - ex + s)); [exact Hm'lt |].
      replace (b - ex + s) with ((c - ey) + (b - c - e')) by (unfold s; lia).
      rewrite Z.pow_add_r by (unfold s in Hc; lia).
      apply Z.mul_le_mono_nonneg_r; [apply Z.pow_nonneg; lia | lia]. }
  destruct q as [| q | q]; try lia.
  apply binary_round_aux_between; [exact Hlo | exact Hhi | lia].
Qed.

(** The conversion to [size_t] of a double between 1 and [2^64] is defined
    and keeps the bounds. *)
Lemma to_size_t_between (j k : Z) (x : Double.double) :
  between j k x = true → 0 <= j → k <= 64 →
  ∃ v : Z, Double.to_size_t x = Done v ∧ 2 ^ j <= v < 2 ^ k.
Proof.
  intros Hx Hj Hk.
  apply between_finite in Hx as (m & e & -> & Hlo & Hhi).
  pose proof (pow_positive_exponent (k - e) (Zpos m) ltac:(lia) Hhi) as Hke.
  assert (Hjk : j - e < k - e).
  { destruct (Z.lt_ge_cases (j - e) 0) as [Hneg | Hpos]; [lia |].
    apply pow_exponent_lt; [apply Z.pow_pos_nonneg; lia | lia]. }
  unfold Double.to_size_t, Double.trunc. cbn [cond_Zopp].
  set (v := if 0 <=? e then Z.shiftl (Zpos m) e else Z.shiftr (Zpos m) (- e)).
  assert (Hv : 2 ^ j <= v < 2 ^ k).
  { unfold v. destruct (Z.leb_spec 0 e) as [He | He].
    - rewrite Z.shiftl_mul_pow2 by exact He. split.
      + replace j with (j - e + e) at 1 by lia. apply pow_shift_le; lia.
      + replace k with (k - e + e) by lia. apply pow_shift_lt; lia.
    - rewrite Z.shiftr_div_pow2 by lia.
      assert (Hpe : 0 < 2 ^ (- e)) by (apply Z.pow_pos_nonneg; lia).
      split.
      + apply Z.div_le_lower_bound; [exact Hpe |].
        rewrite <- Z.pow_add_r by lia.
        replace (- e + j) with (j - e) by lia. exact Hlo.
      + apply Z.div_lt_upper_bound; [exact Hpe |].
        rewrite <- Z.pow_add_r by lia.
        replace (- e + k) with (k - e) by lia. exact Hhi. }
  exists v. split; [| exact Hv].
  assert (H0 : 0 < 2 ^ j) by (apply Z.pow_pos_nonneg; lia).
  assert (H64 : 2 ^ k <= Double.size_t_modulus).
  { unfold Double.size_t_modulus. apply Z.pow_le_mono_r; lia. }
  destruct (Z.leb_spec 0 v) as [_ | Hneg]; [| lia].
  destruct (Z.ltb_spec v Double.size_t_modulus) as [_ | Hbig]; [| lia].
  reflexivity.
Qed.

End Quotients.

Section ExactRounding.

(** A double divided by itself is 1. *)
Lemma div_self (m : positive) (e : Z) :
  Double.div (S754_finite false m e) (S754_finite false m e) = Done Double.one.
Proof.
  unfold Double.div. cbn [Double.is_zero]. f_equal.
  unfold SFdiv, SFdiv_core_binary. cbn [Zdigits2 xorb].
  rewrite !Z.sub_diag.
  change (Z.min (fexp Double.prec Double.emax 0) 0) with (-53).
  change (0 - -53) with 53. cbv beta iota.
  rewrite Z.shiftl_mul_pow2 by lia.
  destruct (Z.div_eucl (Zpos m * 2 ^ 53) (Zpos m)) as [q r] eqn:Hdiv.
  assert (Hq : q = 2 ^ 53).
  { replace q with (Zpos m * 2 ^ 53 / Zpos m) by (unfold Z.div; now rewrite Hdiv).
    rewrite Z.mul_comm. apply Z.div_mul. lia. }
  assert (Hr : r = 0).
  { replace r with ((Zpos m * 2 ^ 53) mod Zpos m)
      by (unfold Z.modulo; now rewrite Hdiv).
    rewrite Z.mul_comm. apply Z.mod_mul. lia. }
  subst q r.
  assert (Hloc : new_location (Zpos m) 0 = loc_Exact).
  { unfold new_location. now destruct (Z.even (Zpos m)). }
  rewrite Hloc. reflexivity.
Qed.

(** Shifting out zeros loses nothing. *)
Lemma iter_shr_1_exact (n : positive) :
  ∀ z : Z,
    0 < z →
    SpecFloat.iter_pos shr_1 n
      {| shr_m := z * 2 ^ Zpos n; shr_r := false; shr_s := false |}
    = {| shr_m := z; shr_r := false; shr_s := false |}.
Proof.
  induction n as [n IH | n IH |]; intros z Hz; cbn [SpecFloat.iter_pos].
  - assert (Hpn : 0 < 2 ^ Zpos n) by (apply Z.pow_pos_nonneg; lia).
    replace (z * 2 ^ Zpos n~1) with (2 * (z * 2 ^ Zpos n * 2 ^ Zpos n)).
    + destruct (z * 2 ^ Zpos n * 2 ^ Zpos n) as [| p | p] eqn:Hp; try nia.
      change (2 * Zpos p) with (Zpos p~0). cbn [shr_1 orb].
      rewrite <- Hp, IH by nia. now apply IH.
    + rewrite (Pos2Z.inj_xI n), Z.pow_add_r, Z.pow_twice_r by lia.
      change (2 ^ 1) with 2. lia.
  - assert (Hpn : 0 < 2 ^ Zpos n) by (apply Z.pow_pos_nonneg; lia).
    replace (z * 2 ^ Zpos n~0) with (z * 2 ^ Zpos n * 2 ^ Zpos n).
    + rewrite IH by nia. now apply IH.
    + rewrite (Pos2Z.inj_xO n), Z.pow_twice_r. lia.
  - destruct z as [| p | p]; try lia.
    replace (Zpos p * 2 ^ 1) with (Zpos p~0) by lia. reflexivity.
Qed.

(** A mantissa of 53 digits followed by [n] zeros rounds to itself. *)
Lemma binary_round_exact (p q : positive) (n e : Z) :
  Zpos p = Zpos q * 2 ^ n → 0 <= n →
  Zpos (digits2_pos q) = 53 → -1074 <= e + n <= 971 →
  binary_round Double.prec Double.emax false p e = S754_finite false q (e + n).
Proof.
  intros Hp Hn Hq He.
  pose proof (digits2_pos_lower q) as Hlo. rewrite Hq in Hlo.
  pose proof (digits2_pos_upper q) as Hhi. rewrite Hq in Hhi.
  assert (Hpn : 0 < 2 ^ n) by (apply Z.pow_pos_nonneg; lia).
  assert (Hdp : Zpos (digits2_pos p) = 53 + n).
  { apply digits2_pos_unique. rewrite Hp. split.
    - replace (53 + n - 1) with (52 + n) by lia. rewrite Z.pow_add_r by lia.
      change (53 - 1) with 52 in Hlo. nia.
    - rewrite Z.pow_add_r by lia. nia. }
  unfold binary_round, shl_align. rewrite Hdp.
  unfold fexp, emin, Double.prec, Double.emax.
  change (3 - 1024 - 53) with (-1074).
  replace (Z.max (53 + n + e - 53) (-1074) - e) with n by lia.
  assert (Haux : binary_round_aux 53 1024 false (Zpos p) e loc_Exact
                 = S754_finite false q (e + n)).
  { unfold binary_round_aux, shr_fexp, fexp, emin. cbn [Zdigits2].
    rewrite Hdp. change (3 - 1024 - 53) with (-1074).
    replace (Z.max (53 + n + e - 53) (-1074) - e) with n by lia.
    cbn [shr_record_of_loc].
    assert (Hshr : shr {| shr_m := Zpos p; shr_r := false; shr_s := false |} e n
                   = ({| shr_m := Zpos q; shr_r := false; shr_s := false |}, e + n)).
    { unfold shr. destruct n as [| n | n]; [| | lia].
      - rewrite Z.add_0_r. f_equal. f_equal. rewrite Hp. cbn. lia.
      - rewrite Hp. f_equal. apply iter_shr_1_exact. lia. }
    rewrite Hshr. cbn [shr_m loc_of_shr_record round_nearest_even Zdigits2].
    rewrite Hq.
    replace (Z.max (53 + (e + n) - 53) (-1074) - (e + n)) with 0 by lia.
    cbn [shr shr_record_of_loc shr_m].
    destruct (Z.leb_spec (e + n) (1024 - 53)) as [_ | Hover]; [reflexivity | lia]. }
  destruct n as [| n | n]; [exact Haux | exact Haux | lia].
Qed.

End ExactRounding.

Section Halves.
Variable libm_pow : Double.double → Double.double → Double.double.

(** Adding [2^-1] to [k / 2] gives [(k + 1) / 2], with no rounding. *)
Lemma half_of_succ (k : Z) (x : Double.double) :
  1 <= k → k + 1 < 2 ^ 53 → half_of k x →
  half_of (k + 1) (Double.add x (S754_finite false 4503599627370496 (-53))).
Proof.
  intros Hk Hk53 (q & e & -> & Hq & He & Hval).
  unfold Double.add, SFadd. rewrite Z.min_r by lia.
  assert (Ha : Zpos (fst (shl_align q e (-53))) = k * 2 ^ 52).
  { unfold shl_align. destruct (-53 - e) as [| p | p] eqn:Hd; cbn [fst]; [| lia |].
    - replace (e + 53) with 0 in Hval by lia. lia.
    - rewrite iter_xO_value. replace (Zpos p) with (e + 53) by lia. exact Hval. }
  change (fst (shl_align 4503599627370496 (-53) (-53))) with 4503599627370496%positive.
  cbn [cond_Zopp].
  set (A := fst (shl_align q e (-53))) in *.
  change (Zpos A + 4503599627370496) with (Zpos (A + 4503599627370496)).
  cbn [binary_normalize].
  destruct (k + 1) as [| kp | kp] eqn:Hkp; try lia.
  pose proof (digits2_pos_lower kp) as Hlo.
  pose proof (digits2_pos_upper kp) as Hhi.
  pose proof (Pos2Z.is_pos (digits2_pos kp)) as Hdpos.
  set (dk := Zpos (digits2_pos kp)) in *.
  assert (Hdk : dk <= 53).
  { assert (dk - 1 < 53); [| lia].
    apply pow_exponent_lt; [apply Z.pow_pos_nonneg; lia | lia]. }
  assert (Hq'pos : 0 < Zpos kp * 2 ^ (53 - dk)).
  { pose proof (Z.pow_pos_nonneg 2 (53 - dk) ltac:(lia) ltac:(lia)). nia. }
  set (q' := Z.to_pos (Zpos kp * 2 ^ (53 - dk))).
  assert (Hq' : Zpos q' = Zpos kp * 2 ^ (53 - dk)) by (apply Z2Pos.id; exact Hq'pos).
  assert (Hdq' : Zpos (digits2_pos q') = 53).
  { apply digits2_pos_unique. rewrite Hq'. split.
    - replace (53 - 1) with (dk - 1 + (53 - dk)) by lia. apply pow_shift_le; lia.
    - replace 53 with (dk + (53 - dk)) at 2 by lia. apply pow_shift_lt; lia. }
  assert (Hsum : Zpos (A + 4503599627370496) = Zpos q' * 2 ^ (dk - 1)).
  { rewrite Pos2Z.inj_add, Ha, Hq', <- Z.mul_assoc, <- Z.pow_add_r by lia.
    replace (53 - dk + (dk - 1)) with 52 by lia. lia. }
  rewrite (binary_round_exact _ q' (dk - 1) (-53) Hsum) by lia.
  exists q', (-53 + (dk - 1)). repeat split; [exact Hdq' | lia |].
  rewrite Hq', <- Z.mul_assoc, <- Z.pow_add_r by lia.
  replace (53 - dk + (-53 + (dk - 1) + 53)) with 52 by lia. reflexivity.
Qed.

(** HyperLogLog's sum over [n] empty registers is [n / 2]. *)
Lemma harmonic_sum_empty (n : nat) :
  Z.of_nat (S n) < 2 ^ 53 →
  half_of (Z.of_nat (S n)) (harmonic_sum libm_pow (replicate (S n) 0)).
Proof.
  induction n as [| n IH]; intros Hn.
  - exists 4503599627370496%positive, (-53). repeat split. lia.
  - rewrite replicate_S_end. unfold harmonic_sum. rewrite foldl_app. cbn [foldl].
    fold (harmonic_sum libm_pow (replicate (S n) 0)).
    change (harmonic_term libm_pow 0)
      with (S754_finite false 4503599627370496 (-53)).
    replace (Z.of_nat (S (S n))) with (Z.of_nat (S n) + 1) by lia.
    apply half_of_succ; [lia | lia |]. apply IH. lia.
Qed.

(** [k / 2] lies between the powers of two around it. *)
Lemma half_of_between (k : Z) (x : Double.double) :
  half_of k x →
  ∃ j : Z, 0 <= j ∧ 2 ^ j <= k < 2 ^ (j + 1) ∧ between (j - 1) j x = true.
Proof.
  intros (q & e & -> & Hq & He & Hval).
  pose proof (digits2_pos_lower q) as Hlo. rewrite Hq in Hlo.
  pose proof (digits2_pos_upper q) as Hhi. rewrite Hq in Hhi.
  change (53 - 1) with 52 in Hlo.
  assert (Hp : 0 < 2 ^ (e + 53)) by (apply Z.pow_pos_nonneg; lia).
  exists (e + 53). split; [lia |]. split.
  - rewrite (Z.pow_add_r 2 (e + 53) 1) by lia. change (2 ^ 1) with 2.
    change (2 ^ 53) with (2 * 2 ^ 52) in Hhi. nia.
  - cbn [between]. replace (e + 53 - 1 - e) with 52 by lia.
    replace (e + 53 - e) with 53 by lia.
    apply andb_true_iff. split; [apply Z.leb_le | apply Z.ltb_lt]; assumption.
Qed.

End Halves.

Section FreshCounts.
Variable libm_pow : Double.double → Double.double → Double.double.

Lemma of_Z_unsigned (M : Z) :
  1 <= M < U32.modulus → between 0 33 (Double.of_Z M) = true.
Proof.
  intros HM. apply (of_Z_between M 0 32); [lia | lia |].
  unfold U32.modulus in HM. change (2 ^ 0) with 1. lia.
Qed.

(** On empty registers the sum of the ranks is 0 and [count] returns the
    integer part of [M * 2^0 / kPhi], which is 1 at least. *)
Lemma stochastic_averaging_fresh (M : Z) :
  1 <= M < U32.modulus →
  ∃ v : Z,
    Estimate.stochastic_averaging libm_pow M (Sketch.empty M) = Done v ∧ 1 <= v.
Proof.
  intros HM. unfold Estimate.stochastic_averaging, Sketch.empty.
  rewrite wrapped_sum_total, total_replicate.
  change (PCSA.r 0) with 0. rewrite Z.mul_0_r.
  change (Double.of_Z (U32.wrap 0)) with (S754_zero false).
  pose proof (of_Z_unsigned M HM) as HxM.
  destruct (between_finite _ _ _ HxM) as (m & e & HeqM & _).
  rewrite HeqM in HxM |- *.
  change (Double.div (S754_zero false) (S754_finite false m e))
    with (Done (S754_zero false)).
  cbn [mbind outcome_bind].
  change (Double.pow libm_pow Double.two (S754_zero false)) with Double.one.
  pose proof (mul_between 0 33 0 1 _ Double.one HxM eq_refl ltac:(lia) ltac:(lia))
    as Hmul.
  destruct (div_between 0 35 (-1) 0 _ PCSA.kPhi Hmul eq_refl ltac:(lia) ltac:(lia))
    as (q & Hq & Hqb).
  rewrite Hq. cbn [mbind outcome_bind].
  destruct (to_size_t_between 0 37 q Hqb ltac:(lia) ltac:(lia)) as (v & Hv & Hlo & _).
  exists v. split; [exact Hv |]. change (2 ^ 0) with 1 in Hlo. exact Hlo.
Qed.

(** On empty registers the sum of [R(0) = 1] is [M], the mean is 1 and
    [count] returns the integer part of [M * 2^2 * kPhi]. *)
Lemma loglog_fresh (M : Z) :
  1 <= M < U32.modulus →
  ∃ v : Z, Estimate.loglog libm_pow M (Sketch.empty M) = Done v ∧ 1 <= v.
Proof.
  intros HM. unfold Estimate.loglog, Sketch.empty.
  rewrite wrapped_sum_total, total_replicate, Z2Nat.id by lia.
  change (PCSA.R 0) with 1. rewrite Z.mul_1_r.
  unfold U32.wrap. rewrite Z.mod_small by lia.
  pose proof (of_Z_unsigned M HM) as HxM.
  destruct (between_finite _ _ _ HxM) as (m & e & HeqM & _).
  rewrite HeqM in HxM |- *.
  rewrite div_self. cbn [mbind outcome_bind].
  change (Double.pow libm_pow Double.two (Double.add Double.one Double.one))
    with (S754_finite false 4503599627370496 (-50)).
  pose proof (mul_between 0 33 2 3 _ (S754_finite false 4503599627370496 (-50))
                HxM eq_refl ltac:(lia) ltac:(lia)) as Hmul.
  pose proof (mul_between 2 37 (-1) 0 _ PCSA.kPhi Hmul eq_refl ltac:(lia) ltac:(lia))
    as Hest.
  destruct (to_size_t_between 1 38 _ Hest ltac:(lia) ltac:(lia)) as (v & Hv & Hlo & _).
  exists v. split; [exact Hv |]. change (2 ^ 1) with 2 in Hlo. lia.
Qed.

(** On empty registers the sum is [M / 2] and, where [M * M] fits 32 bits,
    [count] returns the integer part of [M * M * kPhi / (M / 2)]. *)
Lemma hyperloglog_fresh (M : Z) :
  1 <= M < 65536 →
  ∃ v : Z, Estimate.hyperloglog libm_pow M (Sketch.empty M) = Done v ∧ 1 <= v.
Proof.
  intros HM.
  destruct (Z.eq_dec M 1) as [-> | Hne]; [exists 1; split; [reflexivity | lia] |].
  unfold Estimate.hyperloglog, Sketch.empty.
  unfold U32.mul, U32.wrap. rewrite Z.mod_small by (unfold U32.modulus; nia).
  destruct (Z.to_nat M) as [| n] eqn:Hn; [lia |].
  pose proof (harmonic_sum_empty libm_pow n ltac:(lia)) as Hsum.
  apply half_of_between in Hsum as (j & Hj & [Hlo Hhi] & Hsum).
  replace (Z.of_nat (S n)) with M in Hlo, Hhi by lia.
  assert (Hj1 : 1 <= j).
  { destruct (Z.eq_dec j 0) as [-> | Hj0]; [| lia]. cbn in Hhi. lia. }
  assert (Hj15 : j < 16).
  { apply pow_exponent_lt; [apply Z.pow_pos_nonneg; lia | lia]. }
  assert (Hsq : 2 ^ (j + j) <= M * M < 2 ^ (j + 1 + (j + 1))).
  { split; [apply pow_mul_le | apply pow_mul_lt]; lia. }
  pose proof (of_Z_between (M * M) (j + j) (j + 1 + (j + 1))
                ltac:(lia) ltac:(lia) Hsq) as Hsquare.
  pose proof (mul_between _ _ (-1) 0 _ PCSA.kPhi Hsquare eq_refl
                ltac:(lia) ltac:(lia)) as Hnum.
  destruct (div_between _ _ _ _ _ _ Hnum Hsum ltac:(lia) ltac:(lia))
    as (q & Hq & Hqb).
  rewrite Hq. cbn [mbind outcome_bind].
  assert (Hqb' : between (j - 1) (j + 6) q = true).
  { replace (j - 1) with (j + j + -1 - j) by lia.
    replace (j + 6) with (j + 1 + (j + 1) + 1 + 0 + 1 - (j - 1) + 1) by lia.
    exact Hqb. }
  destruct (to_size_t_between _ _ q Hqb' ltac:(lia) ltac:(lia)) as (v & Hv & Hvlo & _).
  exists v. split; [exact Hv |].
  pose proof (Z.pow_pos_nonneg 2 (j - 1) ltac:(lia) ltac:(lia)). lia.
Qed.

End FreshCounts.

(** ** Empty sketches *)

Ltac run_count :=
  first [ rewrite SA_count_run by (lia || apply length_replicate)
        | rewrite LL_count_run by (lia || apply length_replicate)
        | rewrite HLL_count_run by (lia || apply length_replicate) ];
  match goal with
  | |- pure ?e ?σ = Done (?v, ?σ) =>
      let H := fresh "H" in
      assert (H : e = Done v) by (vm_compute; reflexivity);
      rewrite H; reflexivity
  end.

(** A PCSA estimator on which no item was ingested: [count] returns 1. *)
Lemma fresh_pcsa_estimate_is_one :
  PE.construct 0 = Done (tt, 0)
  ∧ PE.count 0 = Done (1, 0)
  ∧ PE.count 0 ≠ Done (0, 0).
Proof. repeat split. discriminate. Qed.

(** C1, as amended. On a freshly constructed estimator [count] divides by
    no zero, for every class and every [M >= 1], but it does not return 0:
    it returns 1 for PCSA; a value of at least 1 for stochastic averaging
    and for LogLog, for every [M] of type [unsigned]; a value of at least 1
    for HyperLogLog, for every [M] below 65536, where [M * M] fits 32
    bits; and, for the bucket counts that [main] uses, the values of
    [deployed], 6, 15 and 7 for the three classes at [M = 5]. *)
Theorem fresh_estimates
    (libm_pow : Double.double → Double.double → Double.double) (M : Z)
    (mem : list Z) (old : Z) (HM : 1 <= M) (Hmem : length mem = Z.to_nat M) :
  (PE.construct ≫= λ _, PE.count) old = Done (1, 0)
  ∧ (M < U32.modulus →
     ∃ sa ll : Z,
       (SA.construct M ≫= λ _, SA.count libm_pow M) mem
       = Done (sa, Sketch.empty M)
       ∧ (LL.construct M ≫= λ _, LL.count libm_pow M) mem
         = Done (ll, Sketch.empty M)
       ∧ 1 <= sa ∧ 1 <= ll)
  ∧ (M < 65536 →
     ∃ hll : Z,
       (HLL.construct M ≫= λ _, HLL.count libm_pow M) mem
       = Done (hll, Sketch.empty M)
       ∧ 1 <= hll)
  ∧ Forall (λ '(m, (sa, ll, hll)),
              SA.count libm_pow m (Sketch.empty m) = Done (sa, Sketch.empty m)
              ∧ LL.count libm_pow m (Sketch.empty m) = Done (ll, Sketch.empty m)
              ∧ HLL.count libm_pow m (Sketch.empty m) = Done (hll, Sketch.empty m)
              ∧ sa ≠ 0 ∧ ll ≠ 0 ∧ hll ≠ 0)
      deployed
  ∧ divides_safely ((SA.construct M ≫= λ _, SA.count libm_pow M) mem)
  ∧ divides_safely ((LL.construct M ≫= λ _, LL.count libm_pow M) mem)
  ∧ divides_safely ((HLL.construct M ≫= λ _, HLL.count libm_pow M) mem).
Proof.
  assert (Hlen : length (Sketch.empty M) = Z.to_nat M) by apply length_replicate.
  assert (Hsa_run : (SA.construct M ≫= λ _, SA.count libm_pow M) mem
                    = pure (Estimate.stochastic_averaging libm_pow M (Sketch.empty M))
                        (Sketch.empty M)).
  { unfold mbind, method_bind, SA.construct. rewrite clear_run by exact Hmem.
    now rewrite SA_count_run. }
  assert (Hll_run : (LL.construct M ≫= λ _, LL.count libm_pow M) mem
                    = pure (Estimate.loglog libm_pow M (Sketch.empty M))
                        (Sketch.empty M)).
  { unfold mbind, method_bind, LL.construct. rewrite clear_run by exact Hmem.
    now rewrite LL_count_run. }
  assert (Hhll_run : (HLL.construct M ≫= λ _, HLL.count libm_pow M) mem
                     = pure (Estimate.hyperloglog libm_pow M (Sketch.empty M))
                         (Sketch.empty M)).
  { unfold mbind, method_bind, HLL.construct. rewrite clear_run by exact Hmem.
    now rewrite HLL_count_run. }
  rewrite Hsa_run, Hll_run, Hhll_run.
  split; [reflexivity |]. split.
  { intros HM32.
    destruct (stochastic_averaging_fresh libm_pow M (conj HM HM32))
      as (sa & -> & Hsa).
    destruct (loglog_fresh libm_pow M (conj HM HM32)) as (ll & -> & Hll).
    exists sa, ll. repeat split; assumption. }
  split.
  { intros HM16.
    destruct (hyperloglog_fresh libm_pow M (conj HM HM16)) as (hll & -> & Hhll).
    exists hll. split; [reflexivity | exact Hhll]. }
  split.
  { unfold deployed.
    repeat (apply Forall_cons; split; [| try apply Forall_nil]);
      repeat split; try lia; run_count. }
  assert (Hne : Sketch.empty M ≠ []).
  { unfold Sketch.empty. destruct (Z.to_nat M) eqn:HnM; [lia | discriminate]. }
  assert (Hranks : Forall (λ x, 0 <= x <= 32) (Sketch.empty M)).
  { apply Forall_replicate. lia. }
  destruct (estimates_divide_safely libm_pow M (Sketch.empty M) 0 HM)
    as (_ & Hsa & Hll & Hhll).
  repeat split; apply pure_divides_safely; auto.
Qed.

(** The theorem at [M = 5], on registers of any content before the
    constructor. *)
Lemma fresh_estimates_witness :
  1 <= 5 ∧ length [7; 7; 7; 7; 7] = Z.to_nat 5
  ∧ (∃ hll : Z,
       (HLL.construct 5 ≫= λ _, HLL.count (λ _ _, S754_nan) 5) [7; 7; 7; 7; 7]
       = Done (hll, Sketch.empty 5)
       ∧ 1 <= hll)
  ∧ divides_safely
      ((HLL.construct 5 ≫= λ _, HLL.count (λ _ _, S754_nan) 5) [7; 7; 7; 7; 7]).
Proof.
  split; [lia |]. split; [reflexivity |].
  destruct (fresh_estimates (λ _ _, S754_nan) 5 [7; 7; 7; 7; 7] 0 ltac:(lia) eq_refl)
    as (_ & _ & Hhll & _ & _ & _ & Hsafe).
  split; [apply Hhll; lia | exact Hsafe].
Defined.

(** * The rest of the program *)

(** ** The exact estimator *)

Section Exact.

Lemma EE_ingest_run (l : list string) :
  ∀ items_ : gset string,
    ingest EE.item l items_ = Done (tt, list_to_set l ∪ items_).
Proof.
  induction l as [| s l IH]; intros items_; cbn [ingest].
  - unfold mret, method_ret. now rewrite list_to_set_nil, union_empty_l_L.
  - unfold mbind, method_bind, EE.item. rewrite IH, list_to_set_cons.
    f_equal. f_equal.
    now rewrite (union_comm_L {[ s ]} (list_to_set l)), union_assoc_L.
Qed.

Lemma length_remove_dups_le (l : list string) :
  (length (remove_dups l) ≤ length l)%nat.
Proof.
  induction l as [| s l IH]; cbn [remove_dups length]; [lia |].
  destruct (decide_rel elem_of s l); cbn [length]; lia.
Qed.

Lemma size_list_to_set_distinct (l : list string) :
  size (list_to_set l : gset string) = length (remove_dups l).
Proof.
  rewrite <- (size_list_to_set (C := gset string) (remove_dups l))
    by apply NoDup_remove_dups.
  f_equal. apply set_eq. intros x.
  now rewrite !elem_of_list_to_set, elem_of_remove_dups.
Qed.

End Exact.

(** X1. The exact estimator, constructed and fed a stream, counts the
    distinct strings of the stream; the count is at most the length of the
    stream. *)
Theorem exact_counts_distinct (old : gset string) (l : list string) :
  (EE.construct ≫= λ _, ingest EE.item l ≫= λ _, EE.count) old
  = Done (Z.of_nat (length (remove_dups l)), list_to_set l)
  ∧ (length (remove_dups l) ≤ length l)%nat.
Proof.
  split; [| apply length_remove_dups_le].
  unfold mbind, method_bind, EE.construct.
  rewrite EE_ingest_run. unfold EE.count.
  rewrite union_empty_r_L. now rewrite size_list_to_set_distinct.
Qed.

(** X2. [item] of the exact estimator on a string already seen changes
    nothing; on a new string it raises [count] by exactly one. No string
    is ever forgotten. *)
Theorem exact_item_step (s : string) (items_ : gset string) :
  EE.item s items_
  = Done (tt, if decide (s ∈ items_) then items_ else {[ s ]} ∪ items_)
  ∧ (EE.item s ≫= λ _, EE.count) items_
    = Done (Z.of_nat (size items_) + (if decide (s ∈ items_) then 0 else 1),
            {[ s ]} ∪ items_)
  ∧ items_ ⊆ {[ s ]} ∪ items_.
Proof.
  unfold mbind, method_bind, EE.item, EE.count.
  destruct (decide (s ∈ items_)) as [Hin | Hnew].
  - assert (Heq : {[ s ]} ∪ items_ = items_).
    { apply subseteq_union_1_L. now apply singleton_subseteq_l. }
    rewrite Heq. repeat split; [| reflexivity]. f_equal. f_equal. lia.
  - split; [reflexivity |]. split; [| apply union_subseteq_r].
    rewrite size_union by now apply disjoint_singleton_l.
    rewrite size_singleton. f_equal. f_equal. lia.
Qed.

(** X3. The exact estimator, like the sketches, does not depend on the
    order of the stream or on repetitions. *)
Theorem exact_order_and_duplicates (items_ : gset string) :
  order_insensitive EE.item EE.count items_
  ∧ duplicate_insensitive EE.item EE.count items_.
Proof.
  apply (steps_insensitive EE.item (λ s X, {[ s ]} ∪ X) (λ _, True)).
  - intros s X _. split; [reflexivity | exact I].
  - intros a b X.
    now rewrite !union_assoc_L, (union_comm_L {[ a ]} {[ b ]}).
  - intros a X. now rewrite union_assoc_L, union_idemp_L.
  - exact I.
Qed.

(** The theorem at the streams "a", "b" and "b", "a" on the empty set. *)
Lemma exact_order_and_duplicates_witness :
  ∃ items_' : gset string,
    ingest EE.item ["a"; "b"]%string ∅ = Done (tt, items_')
    ∧ ingest EE.item ["b"; "a"]%string ∅ = Done (tt, items_').
Proof.
  exact (proj1 (proj1 (exact_order_and_duplicates ∅)
                  ["a"; "b"]%string ["b"; "a"]%string
                  (perm_swap "b"%string "a"%string []))).
Defined.

(** ** [count] of the PCSA class *)

Section PcsaCount.

Lemma pcsa_counts_checked : forallb pcsa_count_checked (seq 0 32) = true.
Proof. now vm_compute. Qed.

Lemma pcsa_count_by_rank (rank : Z) :
  0 <= rank < 32 →
  (q ← Double.div (Double.of_Z (2 ^ rank)) PCSA.kPhi; Double.to_size_t q)
  = Done (pcsa_estimate_of_rank rank).
Proof.
  intros Hrank.
  pose proof pcsa_counts_checked as Hall. rewrite forallb_forall in Hall.
  specialize (Hall (Z.to_nat rank)).
  unfold pcsa_count_checked, pcsa_count_of_rank in Hall.
  rewrite Z2Nat.id in Hall by lia.
  destruct (Double.div (Double.of_Z (2 ^ rank)) PCSA.kPhi
              ≫= λ q, Double.to_size_t q) as [v | u].
  - f_equal. apply Z.eqb_eq. apply Hall. apply in_seq. lia.
  - discriminate Hall. apply in_seq. lia.
Qed.

(** A sketch with more bits has at least as many trailing ones. *)
Lemma trailing_ones_monotone (n : nat) (a b : Z) :
  bits_kept a b → trailing_ones n a <= trailing_ones n b.
Proof.
  intros Hkept.
  pose proof (trailing_ones_bits n a) as (Ha & Hlow & _).
  pose proof (trailing_ones_bits n b) as (Hb & _ & Hat).
  destruct (Z_lt_le_dec (trailing_ones n b) (trailing_ones n a)) as [Hlt | Hle];
    [| exact Hle].
  specialize (Hat ltac:(lia)).
  specialize (Hlow (trailing_ones n b) ltac:(lia)).
  apply Hkept in Hlow; [| lia]. congruence.
Qed.

Lemma pcsa_estimate_of_rank_monotone (i j : Z) :
  0 <= i <= j → pcsa_estimate_of_rank i <= pcsa_estimate_of_rank j.
Proof.
  intros Hij. unfold pcsa_estimate_of_rank.
  apply Z.div_le_mono; [lia |].
  apply Z.mul_le_mono_nonneg_r; [lia |].
  apply Z.pow_le_mono_r; lia.
Qed.

End PcsaCount.

Lemma pcsa_count_unsaturated (sketch_ : Z) :
  0 <= sketch_ < U32.max_value →
  PE.count sketch_
  = Done (pcsa_estimate_of_rank (trailing_ones 32 sketch_), sketch_).
Proof.
  intros Hrange. rewrite PE_count_run. unfold Estimate.pcsa.
  destruct (R_r_trailing_ones sketch_ Hrange) as (HR & _ & Hrank).
  rewrite HR, pcsa_count_by_rank by exact Hrank. reflexivity.
Qed.

(** X4. [count] of the PCSA class has no undefined behaviour on any 32-bit
    sketch and depends on the sketch through its number of trailing ones
    only: it is [2^rank / 0.77351] rounded down, and 0 when all 32 bits
    are set. *)
Theorem pcsa_count_of_sketch (sketch_ : Z) (Hrange : U32.in_range sketch_) :
  PE.count sketch_
  = Done (if sketch_ =? U32.max_value then 0
          else pcsa_estimate_of_rank (trailing_ones 32 sketch_),
          sketch_).
Proof.
  destruct (Z.eqb_spec sketch_ U32.max_value) as [-> | Hne].
  - reflexivity.
  - apply pcsa_count_unsaturated.
    unfold U32.in_range, U32.max_value in *. lia.
Qed.

(** The theorem at the sketch 0b111. *)
Lemma pcsa_count_of_sketch_witness :
  U32.in_range 7 ∧ PE.count 7 = Done (10, 7).
Proof.
  assert (H7 : U32.in_range 7) by (unfold U32.in_range, U32.modulus; lia).
  split; [exact H7 | exact (pcsa_count_of_sketch 7 H7)].
Defined.

(** X5. [count] of the PCSA class does not decrease when an item is
    ingested, as long as the sketch does not fill up: on the sketch of 32
    ones it falls to 0. *)
Theorem pcsa_count_monotone (hash_ : string → Z) (s : string)
    (sketch_ sketch_' : Z)
    (Hreach : reachable PE.constructed (PE.item hash_) sketch_)
    (Hitem : PE.item hash_ s sketch_ = Done (tt, sketch_')) :
  ∃ before after : Z,
    PE.count sketch_ = Done (before, sketch_)
    ∧ PE.count sketch_' = Done (after, sketch_')
    ∧ (sketch_' ≠ U32.max_value → before <= after)
    ∧ (sketch_' = U32.max_value → after = 0).
Proof.
  pose proof (PE_reachable_in_range hash_ sketch_ Hreach) as Hrange.
  pose proof (PE_reachable_in_range hash_ sketch_'
                (reachable_item _ _ _ _ _ Hreach Hitem)) as Hrange'.
  injection Hitem as Hor.
  assert (Hkept : bits_kept sketch_ sketch_').
  { rewrite <- Hor. apply lor_bits_kept. }
  assert (Hle : sketch_ <= sketch_').
  { rewrite <- Hor. apply lor_ge; [apply Hrange | apply R_in_range]. }
  assert (Hcount : ∀ p, U32.in_range p →
            PE.count p
            = Done (if p =? U32.max_value then 0
                    else pcsa_estimate_of_rank (trailing_ones 32 p), p)).
  { intros p Hp. destruct (Z.eqb_spec p U32.max_value) as [-> | Hne];
      [reflexivity |].
    apply pcsa_count_unsaturated.
    unfold U32.in_range, U32.max_value in *. lia. }
  rewrite !Hcount by assumption.
  eexists _, _. split; [reflexivity |]. split; [reflexivity |].
  split.
  - intros Hne.
    destruct (Z.eqb_spec sketch_' U32.max_value) as [| _]; [contradiction |].
    destruct (Z.eqb_spec sketch_ U32.max_value) as [Heq | _].
    + unfold U32.in_range, U32.max_value in *. lia.
    + apply pcsa_estimate_of_rank_monotone.
      pose proof (trailing_ones_bits 32 sketch_) as (Hr & _).
      split; [lia |]. now apply trailing_ones_monotone.
  - intros ->. reflexivity.
Qed.

(** The theorem at the second item of a stream. *)
Lemma pcsa_count_monotone_witness :
  ∃ before after : Z,
    PE.count 2 = Done (before, 2)
    ∧ PE.count 3 = Done (after, 3)
    ∧ (3 ≠ U32.max_value → before <= after)
    ∧ (3 = U32.max_value → after = 0).
Proof.
  apply (pcsa_count_monotone length_hash "ab" 2 3).
  - apply (reachable_item _ _ 0 "a"%string).
    + apply reachable_new. exists 0. reflexivity.
    + reflexivity.
  - reflexivity.
Defined.

(** ** The registers after a stream *)

Section Contents.

Lemma routed_fold (f : Z → Z → Z) (val : string → Z) (idx : string → nat)
    (k : nat) (l : list string) :
  ∀ (σ : list Z) (reg : Z),
    σ !! k = Some reg →
    run_steps (λ s σ, alter (f (val s)) (idx s) σ) σ l !! k
    = Some (foldl (λ acc v, f v acc) reg (routed_values val idx k l)).
Proof.
  unfold run_steps, routed_values.
  induction l as [| s l IH]; intros σ reg Hreg; [exact Hreg |].
  cbn [foldl]. destruct (decide (idx s = k)) as [Heq | Hne].
  - rewrite filter_cons_True by exact Heq. cbn [fmap list_fmap foldl].
    apply IH. rewrite Heq, list_lookup_alter_eq, Hreg. reflexivity.
  - rewrite filter_cons_False by exact Hne.
    apply IH. rewrite list_lookup_alter_ne by exact Hne. exact Hreg.
Qed.

Lemma foldl_or_bits (vs : list Z) (i : Z) :
  ∀ reg : Z,
    Z.testbit (foldl (λ acc v, or_update v acc) reg vs) i = true
    ↔ Z.testbit reg i = true ∨ ∃ v, v ∈ vs ∧ Z.testbit v i = true.
Proof.
  induction vs as [| v vs IH]; intros reg; cbn [foldl].
  - split; [now left |]. intros [H | (v & Hv & _)]; [exact H |].
    now apply not_elem_of_nil in Hv.
  - rewrite IH. unfold or_update, U32.or. rewrite Z.lor_spec, orb_true_iff.
    split.
    + intros [[H | H] | (w & Hw & Hbit)].
      * now left.
      * right. exists v. split; [apply list_elem_of_here | exact H].
      * right. exists w. split; [now apply list_elem_of_further | exact Hbit].
    + intros [H | (w & Hw & Hbit)].
      * left. now left.
      * apply elem_of_cons in Hw as [-> | Hw].
        -- left. now right.
        -- right. now exists w.
Qed.

Lemma foldl_max_spec (vs : list Z) :
  ∀ reg : Z,
    let m := foldl (λ acc v, max_update v acc) reg vs in
    reg <= m ∧ (∀ v, v ∈ vs → v <= m) ∧ (m = reg ∨ m ∈ vs).
Proof.
  induction vs as [| v vs IH]; intros reg; cbn [foldl]; cbv zeta.
  - split; [lia |]. split; [| now left].
    intros v Hv. now apply not_elem_of_nil in Hv.
  - specialize (IH (max_update v reg)). cbv zeta in IH.
    destruct IH as (Hle & Hall & Hin).
    rewrite max_update_max in *.
    split; [lia |]. split.
    + intros w Hw. apply elem_of_cons in Hw as [-> | Hw]; [lia | now apply Hall].
    + destruct Hin as [Heq | Hin].
      * destruct (Z.max_spec reg v) as [[_ Hm] | [_ Hm]].
        -- right. rewrite Heq, Hm. apply list_elem_of_here.
        -- left. now rewrite Heq, Hm.
      * right. now apply list_elem_of_further.
Qed.

(** The bits of [R h]: the bit at the rank of [h], unless [h] is the word of
    32 ones. *)
Lemma R_bits (h i : Z) :
  U32.in_range h → 0 <= i →
  (Z.testbit (PCSA.R h) i = true ↔ h ≠ U32.max_value ∧ PCSA.r h = i).
Proof.
  intros Hh Hi. destruct (Z.eq_dec h U32.max_value) as [-> | Hne].
  - change (PCSA.R U32.max_value) with 0. rewrite Z.bits_0.
    split; [discriminate | now intros [? _]].
  - destruct (R_r_trailing_ones h) as (HR & Hr & Hrank).
    { unfold U32.in_range, U32.max_value in *. lia. }
    rewrite HR, Hr, Z.pow2_bits_eqb, Z.eqb_eq by lia.
    split; [intros ->; now split | now intros [_ ->]].
Qed.

Lemma routed_values_elem (val : string → Z) (idx : string → nat) (k : nat)
    (l : list string) (v : Z) :
  v ∈ routed_values val idx k l ↔ ∃ s, s ∈ l ∧ idx s = k ∧ v = val s.
Proof.
  unfold routed_values. rewrite list_elem_of_fmap. split.
  - intros (s & -> & Hs). apply list_elem_of_filter in Hs as [Hk Hs]. eauto.
  - intros (s & Hs & Hk & ->). exists s. split; [reflexivity |].
    now apply list_elem_of_filter.
Qed.

End Contents.

(** X6. The sketch of the PCSA class after a stream: a bit is set when it
    was set before or some item of the stream has exactly that rank (the
    number of trailing ones of its 32-bit hash), and only then. An item
    whose hash is 0xFFFFFFFF sets no bit. *)
Theorem pcsa_sketch_contents (hash_ : string → Z) (l : list string)
    (sketch_ : Z) (i : Z) (Hi : 0 <= i) :
  ∃ sketch_' : Z,
    ingest (PE.item hash_) l sketch_ = Done (tt, sketch_')
    ∧ (Z.testbit sketch_' i = true
       ↔ Z.testbit sketch_ i = true
         ∨ ∃ s, s ∈ l ∧ U32.wrap (hash_ s) ≠ U32.max_value
                ∧ PCSA.r (U32.wrap (hash_ s)) = i).
Proof.
  destruct (ingest_run (PE.item hash_)
              (λ s p, or_update (PCSA.R (U32.wrap (hash_ s))) p) (λ _, True)
              ltac:(intros s p _; split; [reflexivity | exact I]) l sketch_ I)
    as [Hrun _].
  eexists. split; [exact Hrun |].
  unfold run_steps. cbv beta delta [PCSACardinalityEstimator.t].
  rewrite <- (foldl_fmap (λ acc v, or_update v acc) sketch_ l
                (λ s, PCSA.R (U32.wrap (hash_ s)))).
  rewrite foldl_or_bits. apply or_iff_compat_l. split.
  - intros (v & Hv & Hbit). apply list_elem_of_fmap in Hv as (s & -> & Hs).
    apply R_bits in Hbit; [| apply wrap_in_range | exact Hi].
    exists s. tauto.
  - intros (s & Hs & Hne & Hr). exists (PCSA.R (U32.wrap (hash_ s))). split.
    + apply list_elem_of_fmap. exists s. now split.
    + apply R_bits; [apply wrap_in_range | exact Hi | tauto].
Qed.

(** The theorem at the stream "a", "abc" and bit 1. *)
Lemma pcsa_sketch_contents_witness :
  0 <= 1
  ∧ ∃ sketch_' : Z,
      ingest (PE.item length_hash) ["a"; "abc"]%string 0 = Done (tt, sketch_')
      ∧ (Z.testbit sketch_' 1 = true
         ↔ Z.testbit 0 1 = true
           ∨ ∃ s, s ∈ ["a"; "abc"]%string
                  ∧ U32.wrap (length_hash s) ≠ U32.max_value
                  ∧ PCSA.r (U32.wrap (length_hash s)) = 1).
Proof.
  split; [lia |].
  exact (pcsa_sketch_contents length_hash ["a"; "abc"]%string 0 1 ltac:(lia)).
Defined.

(** X7. A register of the stochastic-averaging class after a stream, for
    [M >= 1]: bit [i] of register [k] is set when it was set before or some
    item of the stream routed to [k] has exactly the rank [i], and only
    then. *)
Theorem stochastic_averaging_contents (hash_ murmurhash3_32 : string → Z)
    (M : Z) (l : list string) (σ : list Z) (k : nat) (reg : Z)
    (HM : 1 <= M) (Hlen : length σ = Z.to_nat M) (Hreg : σ !! k = Some reg) :
  ∃ (σ' : list Z) (reg' : Z),
    ingest (SA.item hash_ murmurhash3_32 M) l σ = Done (tt, σ')
    ∧ σ' !! k = Some reg'
    ∧ ∀ i : Z,
        0 <= i →
        (Z.testbit reg' i = true
         ↔ Z.testbit reg i = true
           ∨ ∃ s, s ∈ l ∧ U32.wrap (hash_ s) ≠ U32.max_value
                  ∧ routed_with_rank hash_ murmurhash3_32 M k i s).
Proof.
  destruct (ingest_run (SA.item hash_ murmurhash3_32 M)
              (or_step hash_ murmurhash3_32 M) (λ σ, length σ = Z.to_nat M))
    with (l := l) (σ := σ) as [Hrun _].
  { intros s τ Hτ. split; [now apply SA_item_run |].
    unfold or_step. now rewrite length_alter. }
  { exact Hlen. }
  eexists _, _. split; [exact Hrun |]. split.
  - apply (routed_fold or_update (λ s, PCSA.R (U32.wrap (hash_ s)))
             (bucket_index murmurhash3_32 M) k l σ reg Hreg).
  - intros i Hi. rewrite foldl_or_bits. apply or_iff_compat_l.
    unfold routed_with_rank. split.
    + intros (v & Hv & Hbit).
      apply routed_values_elem in Hv as (s & Hs & Hk & ->).
      apply R_bits in Hbit; [| apply wrap_in_range | exact Hi].
      exists s. unfold bucket_index in Hk. tauto.
    + intros (s & Hs & Hne & Hk & Hr).
      exists (PCSA.R (U32.wrap (hash_ s))). split.
      * apply routed_values_elem. exists s. unfold bucket_index. tauto.
      * apply R_bits; [apply wrap_in_range | exact Hi | tauto].
Qed.

(** The theorem at [M = 5], register 1 and the stream "a", "ab", "a". *)
Lemma stochastic_averaging_contents_witness :
  1 <= 5 ∧ length (Sketch.empty 5) = Z.to_nat 5
  ∧ Sketch.empty 5 !! 1%nat = Some 0
  ∧ ∃ (σ' : list Z) (reg' : Z),
      ingest (SA.item length_hash length_hash 5) ["a"; "ab"; "a"]%string
        (Sketch.empty 5) = Done (tt, σ')
      ∧ σ' !! 1%nat = Some reg'.
Proof.
  split; [lia |]. split; [reflexivity |]. split; [reflexivity |].
  destruct (stochastic_averaging_contents length_hash length_hash 5
              ["a"; "ab"; "a"]%string (Sketch.empty 5) 1 0
              ltac:(lia) eq_refl eq_refl) as (σ' & reg' & Hrun & Hreg & _).
  exists σ', reg'. split; assumption.
Defined.

(** X8. A register of the LogLog and HyperLogLog classes after a stream,
    for [M >= 1]: the two classes leave the same registers, and register
    [k] holds the maximum of its old content and of the ranks of the items
    routed to [k]. *)
Theorem max_rank_contents (hash_ murmurhash3_32 : string → Z)
    (M : Z) (l : list string) (σ : list Z) (k : nat) (reg : Z)
    (HM : 1 <= M) (Hlen : length σ = Z.to_nat M) (Hreg : σ !! k = Some reg) :
  ∃ (σ' : list Z) (reg' : Z),
    ingest (LL.item hash_ murmurhash3_32 M) l σ = Done (tt, σ')
    ∧ ingest (HLL.item hash_ murmurhash3_32 M) l σ = Done (tt, σ')
    ∧ σ' !! k = Some reg'
    ∧ reg <= reg'
    ∧ (∀ s i, s ∈ l → routed_with_rank hash_ murmurhash3_32 M k i s → i <= reg')
    ∧ (reg' = reg
       ∨ ∃ s, s ∈ l ∧ routed_with_rank hash_ murmurhash3_32 M k reg' s).
Proof.
  destruct (ingest_run (LL.item hash_ murmurhash3_32 M)
              (max_step hash_ murmurhash3_32 M) (λ σ, length σ = Z.to_nat M))
    with (l := l) (σ := σ) as [Hll _].
  { intros s τ Hτ. split; [now apply LL_item_run |].
    unfold max_step. now rewrite length_alter. }
  { exact Hlen. }
  destruct (ingest_run (HLL.item hash_ murmurhash3_32 M)
              (max_step hash_ murmurhash3_32 M) (λ σ, length σ = Z.to_nat M))
    with (l := l) (σ := σ) as [Hhll _].
  { intros s τ Hτ. split; [now apply HLL_item_run |].
    unfold max_step. now rewrite length_alter. }
  { exact Hlen. }
  pose proof (foldl_max_spec
                (routed_values (λ s, PCSA.r (U32.wrap (hash_ s)))
                   (bucket_index murmurhash3_32 M) k l) reg) as Hmax.
  cbv zeta in Hmax. destruct Hmax as (Hle & Hall & Hin).
  eexists _, _. split; [exact Hll |]. split; [exact Hhll |]. split.
  { apply (routed_fold max_update (λ s, PCSA.r (U32.wrap (hash_ s)))
             (bucket_index murmurhash3_32 M) k l σ reg Hreg). }
  split; [exact Hle |]. unfold routed_with_rank. split.
  - intros s i Hs [Hk <-]. apply Hall.
    apply routed_values_elem. exists s. unfold bucket_index. tauto.
  - destruct Hin as [Heq | Hin]; [now left |]. right.
    apply routed_values_elem in Hin as (s & Hs & Hk & Hv).
    exists s. unfold bucket_index in Hk. rewrite Hv. tauto.
Qed.

(** The theorem at [M = 5], register 1 and the stream "a", "ab", "a". *)
Lemma max_rank_contents_witness :
  1 <= 5 ∧ length (Sketch.empty 5) = Z.to_nat 5
  ∧ Sketch.empty 5 !! 1%nat = Some 0
  ∧ ∃ (σ' : list Z) (reg' : Z),
      ingest (LL.item length_hash length_hash 5) ["a"; "ab"; "a"]%string
        (Sketch.empty 5) = Done (tt, σ')
      ∧ σ' !! 1%nat = Some reg' ∧ 0 <= reg'.
Proof.
  split; [lia |]. split; [reflexivity |]. split; [reflexivity |].
  destruct (max_rank_contents length_hash length_hash 5
              ["a"; "ab"; "a"]%string (Sketch.empty 5) 1 0
              ltac:(lia) eq_refl eq_refl)
    as (σ' & reg' & Hrun & _ & Hreg & Hle & _).
  exists σ', reg'. repeat split; assumption.
Defined.

(** ** Invariants of the sketches *)

(** X9. The registers in every reachable state, for [M >= 1]: the array
    keeps its [M] registers; a bitmap register stays a 32-bit word, so that
    the OR of [item] needs no wrap; a max-rank register stays between 0
    and 32. *)
Theorem registers_invariant (hash_ murmurhash3_32 : string → Z) (M : Z)
    (HM : 1 <= M) :
  (∀ sketch_ : Z,
     reachable PE.constructed (PE.item hash_) sketch_ → U32.in_range sketch_)
  ∧ (∀ σ : list Z,
       reachable (Sketch.constructed (SA.construct M) M)
         (SA.item hash_ murmurhash3_32 M) σ →
       length σ = Z.to_nat M ∧ Forall U32.in_range σ)
  ∧ (∀ σ : list Z,
       reachable (Sketch.constructed (LL.construct M) M)
         (LL.item hash_ murmurhash3_32 M) σ →
       length σ = Z.to_nat M ∧ Forall (λ x, 0 <= x <= 32) σ)
  ∧ (∀ σ : list Z,
       reachable (Sketch.constructed (HLL.construct M) M)
         (HLL.item hash_ murmurhash3_32 M) σ →
       length σ = Z.to_nat M ∧ Forall (λ x, 0 <= x <= 32) σ).
Proof.
  split; [apply PE_reachable_in_range |].
  split; [now apply SA_reachable_in_range |].
  split; intros σ Hreach.
  - apply (max_reachable_in_range hash_ murmurhash3_32 M HM
             (LL.item hash_ murmurhash3_32 M)); [| exact Hreach].
    intros t τ Hτ. now apply LL_item_run.
  - apply (max_reachable_in_range hash_ murmurhash3_32 M HM
             (HLL.item hash_ murmurhash3_32 M)); [| exact Hreach].
    intros t τ Hτ. now apply HLL_item_run.
Qed.

(** The theorem at [M = 5], on the sketch that holds "a". *)
Lemma registers_invariant_witness :
  1 <= 5 ∧ Forall (λ x, 0 <= x <= 32) [0; 1; 0; 0; 0].
Proof.
  split; [lia |].
  refine (proj2 (proj1 (proj2 (proj2
    (registers_invariant length_hash length_hash 5 ltac:(lia))))
    [0; 1; 0; 0; 0] _)).
  apply (reachable_item _ _ (Sketch.empty 5) "a"%string).
  - apply reachable_new. exists (Sketch.empty 5). split; reflexivity.
  - reflexivity.
Defined.

(** X10. In every reachable state of every class, for [M >= 1], [count]
    divides by no zero and reads no register outside the array: the only
    undefined behaviour left to it is a result that does not fit
    [size_t]. *)
Theorem count_safe_when_reachable (hash_ murmurhash3_32 : string → Z)
    (libm_pow : Double.double → Double.double → Double.double) (M : Z)
    (HM : 1 <= M) :
  (∀ sketch_ : Z,
     reachable PE.constructed (PE.item hash_) sketch_ →
     divides_safely (PE.count sketch_) ∧ in_bounds (PE.count sketch_))
  ∧ (∀ σ : list Z,
       reachable (Sketch.constructed (SA.construct M) M)
         (SA.item hash_ murmurhash3_32 M) σ →
       divides_safely (SA.count libm_pow M σ) ∧ in_bounds (SA.count libm_pow M σ))
  ∧ (∀ σ : list Z,
       reachable (Sketch.constructed (LL.construct M) M)
         (LL.item hash_ murmurhash3_32 M) σ →
       divides_safely (LL.count libm_pow M σ) ∧ in_bounds (LL.count libm_pow M σ))
  ∧ (∀ σ : list Z,
       reachable (Sketch.constructed (HLL.construct M) M)
         (HLL.item hash_ murmurhash3_32 M) σ →
       divides_safely (HLL.count libm_pow M σ)
       ∧ in_bounds (HLL.count libm_pow M σ)).
Proof.
  split; [| split; [| split]].
  - intros p _. rewrite PE_count_run.
    destruct (estimates_divide_safely libm_pow M [] p HM) as (Hp & _).
    destruct (estimates_in_bounds libm_pow M [] p) as (Hb & _).
    split; [now apply pure_divides_safely | now apply pure_in_bounds].
  - intros σ Hreach.
    destruct (SA_reachable_in_range hash_ murmurhash3_32 M HM σ Hreach)
      as [Hlen _].
    rewrite SA_count_run by assumption.
    destruct (estimates_divide_safely libm_pow M σ 0 HM) as (_ & Hd & _).
    destruct (estimates_in_bounds libm_pow M σ 0) as (_ & Hb & _).
    split; [now apply pure_divides_safely | now apply pure_in_bounds].
  - intros σ Hreach.
    destruct (max_reachable_in_range hash_ murmurhash3_32 M HM
                (LL.item hash_ murmurhash3_32 M) σ) as [Hlen _];
      [intros t τ Hτ; now apply LL_item_run | exact Hreach |].
    rewrite LL_count_run by assumption.
    destruct (estimates_divide_safely libm_pow M σ 0 HM) as (_ & _ & Hd & _).
    destruct (estimates_in_bounds libm_pow M σ 0) as (_ & _ & Hb & _).
    split; [now apply pure_divides_safely | now apply pure_in_bounds].
  - intros σ Hreach.
    destruct (max_reachable_in_range hash_ murmurhash3_32 M HM
                (HLL.item hash_ murmurhash3_32 M) σ) as [Hlen Hall];
      [intros t τ Hτ; now apply HLL_item_run | exact Hreach |].
    rewrite HLL_count_run by assumption.
    destruct (estimates_divide_safely libm_pow M σ 0 HM) as (_ & _ & _ & Hd).
    destruct (estimates_in_bounds libm_pow M σ 0) as (_ & _ & _ & Hb).
    split; [apply pure_divides_safely | now apply pure_in_bounds].
    apply Hd; [exact Hall |].
    intros ->. cbn [length] in Hlen. lia.
Qed.

(** The theorem at [M = 5], on the HyperLogLog sketch that holds "a". *)
Lemma count_safe_when_reachable_witness :
  1 <= 5
  ∧ divides_safely (HLL.count (λ _ _, S754_nan) 5 [0; 1; 0; 0; 0]).
Proof.
  split; [lia |].
  refine (proj1 (proj2 (proj2 (proj2
    (count_safe_when_reachable length_hash length_hash (λ _ _, S754_nan) 5
       ltac:(lia)))) [0; 1; 0; 0; 0] _)).
  apply (reachable_item _ _ (Sketch.empty 5) "a"%string).
  - apply reachable_new. exists (Sketch.empty 5). split; reflexivity.
  - reflexivity.
Defined.

(** X11. [count] of the HyperLogLog class returns 0 in every reachable
    state, whatever was ingested, for every bucket count [M] that is a
    multiple of 65536: the product [M * M] is 0 in 32 bits. *)
Theorem hyperloglog_zero_for_multiples (hash_ murmurhash3_32 : string → Z)
    (libm_pow : Double.double → Double.double → Double.double) (M : Z)
    (σ : list Z)
    (HM : 1 <= M) (Hmultiple : (65536 | M))
    (Hreach : reachable (Sketch.constructed (HLL.construct M) M)
                (HLL.item hash_ murmurhash3_32 M) σ) :
  HLL.count libm_pow M σ = Done (0, σ).
Proof.
  destruct (max_reachable_in_range hash_ murmurhash3_32 M HM
              (HLL.item hash_ murmurhash3_32 M) σ) as [Hlen Hall];
    [intros t τ Hτ; now apply HLL_item_run | exact Hreach |].
  rewrite HLL_count_run by assumption.
  unfold Estimate.hyperloglog.
  assert (Hwrap : U32.mul M M = 0).
  { destruct Hmultiple as [c ->]. unfold U32.mul, U32.wrap, U32.modulus.
    replace (c * 65536 * (c * 65536)) with (c * c * 2 ^ 32) by lia.
    apply Z.mod_mul. lia. }
  rewrite Hwrap.
  assert (Hsum : positive_double (harmonic_sum libm_pow σ) = true).
  { apply harmonic_sum_positive; [exact Hall |].
    intros ->. cbn [length] in Hlen. lia. }
  rewrite div_by_positive by exact Hsum.
  change (Double.mul (Double.of_Z 0) PCSA.kPhi) with (S754_zero false).
  destruct (harmonic_sum libm_pow σ) as [[] | [] | | [] m e];
    try discriminate Hsum; reflexivity.
Qed.

(** The theorem at [M = 131072] on the sketch as constructed. *)
Lemma hyperloglog_zero_for_multiples_witness :
  1 <= 131072 ∧ (65536 | 131072)
  ∧ HLL.count (λ _ _, S754_nan) 131072 (Sketch.empty 131072)
    = Done (0, Sketch.empty 131072).
Proof.
  assert (Hdiv : (65536 | 131072)) by (exists 2; reflexivity).
  split; [lia |]. split; [exact Hdiv |].
  apply (hyperloglog_zero_for_multiples length_hash length_hash
           (λ _ _, S754_nan) 131072 (Sketch.empty 131072) ltac:(lia) Hdiv).
  apply reachable_new. exists (Sketch.empty 131072). split.
  - apply length_replicate.
  - apply clear_run, length_replicate.
Defined.

(** ** generate_random_string *)

Section Strings.

Lemma list_ascii_of_string_app (a b : string) :
  list_ascii_of_string (a +:+ b) = list_ascii_of_string a ++ list_ascii_of_string b.
Proof.
  induction a as [| c a IH]; [reflexivity |].
  change (String c a +:+ b) with (String c (a +:+ b)).
  change (list_ascii_of_string (String c (a +:+ b)))
    with (c :: list_ascii_of_string (a +:+ b)).
  now rewrite IH.
Qed.

Lemma string_length_list (a : string) :
  String.length a = length (list_ascii_of_string a).
Proof.
  induction a as [| c a IH]; [reflexivity |].
  change (String.length (String c a)) with (S (String.length a)).
  change (list_ascii_of_string (String c a)) with (c :: list_ascii_of_string a).
  cbn [length]. now rewrite IH.
Qed.

Lemma list_ascii_inj (a b : string) :
  list_ascii_of_string a = list_ascii_of_string b → a = b.
Proof.
  intros H. rewrite <- (string_of_list_ascii_of_string a),
    <- (string_of_list_ascii_of_string b). now rewrite H.
Qed.

Variable G : Type.
Variable dis : G → Z * G.

Lemma draws_length (n : nat) : ∀ gen : G, length (draws G dis n gen).1 = n.
Proof.
  induction n as [| n IH]; intros gen; cbn [draws]; [reflexivity |].
  destruct (dis gen) as [c gen']. specialize (IH gen').
  destruct (draws G dis n gen') as [cs gen'']. cbn in *. now rewrite IH.
Qed.

Lemma push_loop (n : nat) :
  ∀ (from : nat) (dest : string) (gen : G),
    for_loop n from (λ _ _, push_drawn G dis) tt (dest, gen)
    = Done (tt, (dest +:+ string_of_list_ascii
                            (StdString.char_of_int <$> (draws G dis n gen).1),
                 (draws G dis n gen).2)).
Proof.
  induction n as [| n IH]; intros from dest gen; cbn [for_loop draws].
  - unfold mret, method_ret. f_equal. f_equal. f_equal.
    apply list_ascii_inj. rewrite list_ascii_of_string_app. cbn.
    now rewrite app_nil_r.
  - unfold mbind, method_bind, push_drawn.
    destruct (dis gen) as [c gen']. rewrite IH.
    destruct (draws G dis n gen') as [cs gen'']. cbn [fst snd fmap list_fmap].
    f_equal. f_equal. f_equal.
    apply list_ascii_inj. unfold StdString.push_back.
    rewrite !list_ascii_of_string_app.
    cbn [string_of_list_ascii list_ascii_of_string].
    now rewrite <- app_assoc.
Qed.

Lemma generate_random_string_run (n : nat) (dest : string) (gen : G) :
  generate_random_string G dis n (dest, gen)
  = Done (tt, (StdString.resize n dest
                 +:+ string_of_list_ascii
                       (StdString.char_of_int <$> (draws G dis n gen).1),
               (draws G dis n gen).2)).
Proof.
  unfold generate_random_string, mbind, method_bind. apply push_loop.
Qed.

Lemma resize_chars (n : nat) (dest : string) :
  list_ascii_of_string (StdString.resize n dest)
  = take n (list_ascii_of_string dest)
    ++ replicate (n - String.length dest) Ascii.zero.
Proof.
  unfold StdString.resize. apply list_ascii_of_string_of_list_ascii.
Qed.

End Strings.

(** X12. [generate_random_string] returns a string of [2 * length]
    characters, not [length]: the first [length] characters are those that
    [resize] leaves, the old content cut or padded with NUL, and the drawn
    characters are appended after them. The generator advances by [length]
    draws. *)
Theorem generate_random_string_doubles (G : Type) (dis : G → Z * G)
    (n : nat) (dest : string) (gen : G) :
  ∃ dest' : string,
    generate_random_string G dis n (dest, gen)
    = Done (tt, (dest', (draws G dis n gen).2))
    ∧ list_ascii_of_string dest'
      = take n (list_ascii_of_string dest)
        ++ replicate (n - String.length dest) Ascii.zero
        ++ (StdString.char_of_int <$> (draws G dis n gen).1)
    ∧ String.length dest' = (2 * n)%nat.
Proof.
  eexists. split; [apply generate_random_string_run |].
  assert (Hchars :
    list_ascii_of_string
      (StdString.resize n dest
       +:+ string_of_list_ascii (StdString.char_of_int <$> (draws G dis n gen).1))
    = take n (list_ascii_of_string dest)
      ++ replicate (n - String.length dest) Ascii.zero
      ++ (StdString.char_of_int <$> (draws G dis n gen).1)).
  { rewrite list_ascii_of_string_app, resize_chars,
      list_ascii_of_string_of_list_ascii.
    now rewrite <- app_assoc. }
  split; [exact Hchars |].
  rewrite string_length_list, Hchars, !length_app, length_take,
    length_replicate, length_fmap, draws_length, <- string_length_list.
  lia.
Qed.

Section MainStrings.
Variable G : Type.
Variable dis : G → Z * G.

Lemma generated_nul_padded (n : nat) (dest : string) (gen : G) :
  dest = EmptyString ∨ nul_padded n dest →
  nul_padded n
    (StdString.resize n dest
     +:+ string_of_list_ascii (StdString.char_of_int <$> (draws G dis n gen).1)).
Proof.
  intros Hdest.
  exists (StdString.char_of_int <$> (draws G dis n gen).1).
  split; [now rewrite length_fmap, draws_length |].
  rewrite list_ascii_of_string_app, resize_chars,
    list_ascii_of_string_of_list_ascii.
  f_equal. destruct Hdest as [-> | (cs & Hcs & Hchars)].
  - cbn [list_ascii_of_string String.length]. rewrite take_nil, Nat.sub_0_r.
    reflexivity.
  - rewrite string_length_list, Hchars, length_app, length_replicate.
    rewrite take_app_length' by (symmetry; apply length_replicate).
    replace (n - (n + length cs))%nat with 0%nat by lia.
    now rewrite app_nil_r.
Qed.

Lemma strings_nul_padded (n : nat) :
  ∀ (dest : string) (gen : G),
    dest = EmptyString ∨ nul_padded Main.kStringLength dest →
    Forall (nul_padded Main.kStringLength) (strings G dis n dest gen).
Proof.
  induction n as [| n IH]; intros dest gen Hdest; cbn [strings];
    [apply Forall_nil_2 |].
  rewrite generate_random_string_run.
  pose proof (generated_nul_padded Main.kStringLength dest gen Hdest) as Hpad.
  apply Forall_cons. split; [exact Hpad |].
  apply IH. now right.
Qed.

End MainStrings.

Lemma main_strings_length (G : Type) (dis : G → Z * G) (n : nat) :
  ∀ (dest : string) (gen : G), length (strings G dis n dest gen) = n.
Proof.
  induction n as [| n IH]; intros dest gen; cbn [strings]; [reflexivity |].
  rewrite generate_random_string_run. cbn [length]. now rewrite IH.
Qed.

(** X13. Every string that [main] feeds to the estimators has 12
    characters, of which the first 6 are NUL: [generate_random_string]
    resizes the string to 6 characters before it appends the 6 drawn ones,
    and the string variable is reused from one iteration to the next. *)
Theorem main_strings_nul_padded (G : Type) (dis : G → Z * G) (n : nat)
    (seeded : G) :
  length (strings G dis n EmptyString seeded) = n
  ∧ Forall (λ s, nul_padded 6 s ∧ String.length s = 12%nat)
      (strings G dis n EmptyString seeded).
Proof.
  split.
  - apply main_strings_length.
  - eapply Forall_impl.
    + apply (strings_nul_padded G dis n EmptyString seeded). now left.
    + intros s Hpad. split; [exact Hpad |].
      destruct Hpad as (cs & Hcs & Hchars).
      rewrite string_length_list, Hchars, length_app, length_replicate, Hcs.
      reflexivity.
Qed.

(** ** main *)

Section MainLoop.
Variable hash_ : string → Z.
Variable murmurhash3_32 : string → Z.
Variable libm_pow : Double.double → Double.double → Double.double.
Variable G : Type.
Variable dis : G → Z * G.

Lemma item_sound (s : string) (e : estimator) :
  sound e →
  ∃ e', Main.item hash_ murmurhash3_32 s e = Done (tt, e') ∧ sound e'.
Proof.
  destruct e as [items_ | sketch_ | M σ | M σ | M σ]; cbn [sound Main.item].
  - intros _. eexists. split; [reflexivity | exact I].
  - intros _. eexists. split; [reflexivity | exact I].
  - intros [HM Hlen]. unfold dispatch. rewrite SA_item_run by assumption.
    eexists. split; [reflexivity |]. cbn [sound].
    unfold or_step. now rewrite length_alter.
  - intros (HM & Hlen & Hall). unfold dispatch.
    rewrite LL_item_run by assumption.
    eexists. split; [reflexivity |]. cbn [sound].
    unfold max_step. rewrite length_alter. repeat split; try assumption.
    apply Forall_alter; [exact Hall |]. intros x _ Hx.
    rewrite max_update_max. pose proof (r_range (U32.wrap (hash_ s))). lia.
  - intros (HM & Hlen & Hall). unfold dispatch.
    rewrite HLL_item_run by assumption.
    eexists. split; [reflexivity |]. cbn [sound].
    unfold max_step. rewrite length_alter. repeat split; try assumption.
    apply Forall_alter; [exact Hall |]. intros x _ Hx.
    rewrite max_update_max. pose proof (r_range (U32.wrap (hash_ s))). lia.
Qed.

Lemma item_each_run (s : string) (es : list (string * estimator)) :
  Forall (λ p, sound p.2) es →
  ∃ es',
    Main.item_each hash_ murmurhash3_32 s es = Done es'
    ∧ Forall2 (fed (Main.item hash_ murmurhash3_32) [s]) es es'
    ∧ Forall (λ p, sound p.2) es'.
Proof.
  induction 1 as [| [name e] es He _ (es' & Hrun & Hfed & Hsound)].
  - exists []. repeat split; constructor.
  - destruct (item_sound s e He) as (e' & Hitem & He').
    exists ((name, e') :: es').
    cbn [Main.item_each]. unfold mbind at 1, outcome_bind.
    rewrite Hitem, Hrun. cbn [mbind outcome_bind].
    split; [reflexivity |]. split.
    + constructor; [| exact Hfed]. split; [reflexivity |].
      cbn [ingest fst snd]. unfold mbind, method_bind. now rewrite Hitem.
    + constructor; assumption.
Qed.

Lemma fed_cons (s : string) (l : list string) (a b c : string * estimator) :
  fed (Main.item hash_ murmurhash3_32) [s] a b →
  fed (Main.item hash_ murmurhash3_32) l b c →
  fed (Main.item hash_ murmurhash3_32) (s :: l) a c.
Proof.
  intros [Hname1 Hrun1] [Hname2 Hrun2]. split; [congruence |].
  cbn [ingest] in *. unfold mbind, method_bind in *.
  destruct (Main.item hash_ murmurhash3_32 s a.2) as [[[] e] | u];
    [| discriminate].
  unfold mret, method_ret in Hrun1. injection Hrun1 as ->. exact Hrun2.
Qed.

Lemma ingestion_run (n : nat) :
  ∀ (from : nat) (st : Main.state G),
    Forall (λ p, sound p.2) (Main.objects G st) →
    ∃ st',
      for_loop n from (λ _ _, Main.iteration hash_ murmurhash3_32 G dis) tt st
      = Done (tt, st')
      ∧ Forall2 (fed (Main.item hash_ murmurhash3_32)
                   (strings G dis n (Main.s G st) (Main.generator G st)))
          (Main.objects G st) (Main.objects G st')
      ∧ Forall (λ p, sound p.2) (Main.objects G st').
Proof.
  induction n as [| n IH]; intros from st Hsound.
  - exists st. split; [reflexivity |]. split; [| exact Hsound].
    apply Forall2_same_length_lookup_2; [reflexivity |].
    intros i a b Ha Hb. rewrite Ha in Hb. injection Hb as <-.
    split; reflexivity.
  - cbn [for_loop strings]. unfold mbind at 1, method_bind.
    unfold Main.iteration at 1. rewrite generate_random_string_run.
    cbn [mbind outcome_bind].
    set (s' := StdString.resize Main.kStringLength (Main.s G st)
               +:+ string_of_list_ascii
                     (StdString.char_of_int
                        <$> (draws G dis Main.kStringLength
                               (Main.generator G st)).1)).
    set (gen' := (draws G dis Main.kStringLength (Main.generator G st)).2).
    destruct (item_each_run s' (Main.objects G st) Hsound)
      as (es1 & Hrun1 & Hfed1 & Hsound1).
    rewrite Hrun1. cbn [mbind outcome_bind].
    destruct (IH (S from) (Main.State G s' gen' es1) Hsound1)
      as (st' & Hrun & Hfed & Hsound').
    exists st'. split; [exact Hrun |]. split; [| exact Hsound'].
    cbn [Main.s Main.generator Main.objects] in Hfed.
    eapply Forall2_trans; [| exact Hfed1 | exact Hfed].
    intros a b c. apply fed_cons.
Qed.

Lemma estimators_sound : Forall (λ p, sound p.2) Main.estimators.
Proof.
  unfold Main.estimators.
  repeat (apply Forall_cons; split; [| try apply Forall_nil_2]);
    cbn [snd sound]; try exact I;
    repeat split; try lia; try apply length_replicate;
    apply Forall_replicate; lia.
Qed.

Lemma to_size_t_no_fault (x : Double.double) : no_fault (Double.to_size_t x).
Proof.
  unfold no_fault, Double.to_size_t.
  destruct (Double.trunc x) as [z |]; [| repeat split; discriminate].
  destruct ((0 <=? z) && (z <? Double.size_t_modulus));
    repeat split; discriminate.
Qed.

Lemma dispatch_no_fault {S A : Type} (object : S → estimator) (o : outcome A)
    (σ : S) :
  no_fault o → no_fault (dispatch object (pure o) σ).
Proof.
  unfold no_fault, dispatch, pure.
  destruct o as [a | u]; [repeat split; discriminate |].
  intros (H1 & H2 & H3). repeat split; congruence.
Qed.

Lemma count_no_fault (e : estimator) :
  sound e → no_fault (Main.count libm_pow e).
Proof.
  destruct e as [items_ | sketch_ | M σ | M σ | M σ]; cbn [sound Main.count].
  - intros _. repeat split; discriminate.
  - intros _. apply (dispatch_no_fault Pcsa (Estimate.pcsa sketch_)).
    unfold Estimate.pcsa. rewrite div_by_positive by apply kPhi_positive.
    apply to_size_t_no_fault.
  - intros [HM Hlen].
    replace (dispatch (StochasticAveraging M) (SA.count libm_pow M) σ)
      with (dispatch (StochasticAveraging M)
              (pure (Estimate.stochastic_averaging libm_pow M σ)) σ)
      by (unfold dispatch; now rewrite SA_count_run).
    apply dispatch_no_fault. unfold Estimate.stochastic_averaging.
    rewrite div_by_positive by now apply of_Z_positive.
    cbn [mbind outcome_bind].
    rewrite div_by_positive by apply kPhi_positive.
    apply to_size_t_no_fault.
  - intros (HM & Hlen & Hall).
    replace (dispatch (LogLog M) (LL.count libm_pow M) σ)
      with (dispatch (LogLog M) (pure (Estimate.loglog libm_pow M σ)) σ)
      by (unfold dispatch; now rewrite LL_count_run).
    apply dispatch_no_fault. unfold Estimate.loglog.
    rewrite div_by_positive by now apply of_Z_positive.
    apply to_size_t_no_fault.
  - intros (HM & Hlen & Hall).
    replace (dispatch (HyperLogLog M) (HLL.count libm_pow M) σ)
      with (dispatch (HyperLogLog M) (pure (Estimate.hyperloglog libm_pow M σ)) σ)
      by (unfold dispatch; now rewrite HLL_count_run).
    apply dispatch_no_fault. unfold Estimate.hyperloglog.
    rewrite div_by_positive.
    + apply to_size_t_no_fault.
    + apply harmonic_sum_positive; [exact Hall |].
      intros ->. cbn [length] in Hlen. lia.
Qed.

Lemma report_run (es : list (string * estimator)) :
  Forall (λ p, sound p.2) es →
  no_fault (Main.report libm_pow es)
  ∧ ∀ lines, Main.report libm_pow es = Done lines → length lines = length es.
Proof.
  induction 1 as [| [name e] es He _ [IHfault IHlines]]; cbn [Main.report].
  - split; [repeat split; discriminate |]. now intros lines [= <-].
  - pose proof (count_no_fault e He) as Hcount. cbn [snd] in Hcount.
    unfold mbind at 1, outcome_bind.
    destruct (Main.count libm_pow e) as [[c e'] | u].
    + unfold mbind, outcome_bind.
      destruct (Main.report libm_pow es) as [lines' | u].
      * split; [repeat split; discriminate |].
        intros lines [= <-]. cbn [length]. now rewrite (IHlines lines').
      * split; [| discriminate].
        destruct IHfault as (H1 & H2 & H3). repeat split; congruence.
    + split; [| discriminate].
      destruct Hcount as (H1 & H2 & H3). repeat split; congruence.
Qed.

End MainLoop.

(** X14. The first loop of [main], for any number of iterations, has no
    undefined behaviour, and it leaves each of the 17 estimators, under its
    name, in the state that this estimator reaches when it alone is fed the
    generated strings in order: the estimators do not interfere. *)
Theorem main_ingestion (hash_ murmurhash3_32 : string → Z) (G : Type)
    (dis : G → Z * G) (n : nat) (seeded : G) :
  ∃ st : Main.state G,
    Main.ingestion hash_ murmurhash3_32 G dis n
      (Main.State G EmptyString seeded Main.estimators)
    = Done (tt, st)
    ∧ Forall2 (fed (Main.item hash_ murmurhash3_32)
                 (strings G dis n EmptyString seeded))
        Main.estimators (Main.objects G st)
    ∧ length (Main.objects G st) = 17%nat.
Proof.
  destruct (ingestion_run hash_ murmurhash3_32 G dis n 0
              (Main.State G EmptyString seeded Main.estimators)
              estimators_sound) as (st & Hrun & Hfed & _).
  exists st. split; [exact Hrun |]. split; [exact Hfed |].
  now rewrite <- (Forall2_length _ _ _ Hfed).
Qed.

(** X15. [main], with its 5000000 iterations, never takes a modulo by
    zero, never divides by zero and never accesses a register out of
    bounds, whatever the hash functions, the generator and [pow] return:
    it writes 17 lines, unless a conversion of an estimate to [size_t] is
    out of range. *)
Theorem main_no_fault (hash_ murmurhash3_32 : string → Z)
    (libm_pow : Double.double → Double.double → Double.double) (G : Type)
    (dis : G → Z * G) (seeded : G) :
  Main.main hash_ murmurhash3_32 libm_pow G dis seeded
  = Undefined ConversionOutOfRange
  ∨ ∃ lines : list string,
      Main.main hash_ murmurhash3_32 libm_pow G dis seeded = Done lines
      ∧ length lines = 17%nat.
Proof.
  unfold Main.main, Main.ingestion.
  destruct (ingestion_run hash_ murmurhash3_32 G dis (Z.to_nat 5000000) 0
              (Main.State G EmptyString seeded Main.estimators)
              estimators_sound) as (st & Hrun & Hfed & Hsound).
  rewrite Hrun. cbn [mbind outcome_bind].
  destruct (report_run libm_pow (Main.objects G st) Hsound)
    as [(H1 & H2 & H3) Hlines].
  destruct (Main.report libm_pow (Main.objects G st)) as [lines | []];
    try congruence.
  - right. exists lines. split; [reflexivity |].
    rewrite (Hlines lines eq_refl).
    now rewrite <- (Forall2_length _ _ _ Hfed).
  - now left.
Qed.

Section MainExact.
Variable hash_ : string → Z.
Variable murmurhash3_32 : string → Z.

Lemma ingest_exact (l : list string) :
  ∀ items_ : gset string,
    ingest (Main.item hash_ murmurhash3_32) l (Exact items_)
    = Done (tt, Exact (list_to_set l ∪ items_)).
Proof.
  induction l as [| s l IH]; intros items_; cbn [ingest].
  - unfold mret, method_ret. now rewrite list_to_set_nil, union_empty_l_L.
  - unfold mbind, method_bind. cbn [Main.item]. unfold dispatch, EE.item.
    rewrite IH, list_to_set_cons. f_equal. f_equal. f_equal.
    now rewrite (union_comm_L {[ s ]} (list_to_set l)), union_assoc_L.
Qed.

End MainExact.

(** X16. When [main] writes its lines, the first is that of the exact
    estimator and reports the number of distinct strings among the
    5000000 generated ones. *)
Theorem main_exact_line (hash_ murmurhash3_32 : string → Z)
    (libm_pow : Double.double → Double.double → Double.double) (G : Type)
    (dis : G → Z * G) (seeded : G) :
  Main.main hash_ murmurhash3_32 libm_pow G dis seeded
  = Undefined ConversionOutOfRange
  ∨ ∃ (distinct : nat) (rest : list string),
      distinct
      = length (remove_dups (strings G dis (Z.to_nat 5000000) EmptyString seeded))
      ∧ Main.main hash_ murmurhash3_32 libm_pow G dis seeded
        = Done (("   exact count: " +:+ pretty (Z.of_nat distinct)) :: rest)
      ∧ Z.of_nat distinct <= 5000000.
Proof.
  unfold Main.main, Main.ingestion.
  destruct (ingestion_run hash_ murmurhash3_32 G dis (Z.to_nat 5000000) 0
              (Main.State G EmptyString seeded Main.estimators)
              estimators_sound) as (st & Hrun & Hfed & Hsound).
  rewrite Hrun. cbn [mbind outcome_bind].
  destruct (report_run libm_pow (Main.objects G st) Hsound)
    as [(H1 & H2 & H3) _].
  destruct (Main.report libm_pow (Main.objects G st)) as [lines | []] eqn:Hdone;
    try congruence; [| now left].
  right. clear H1 H2 H3.
  cbn [Main.s Main.generator Main.objects] in Hfed.
  set (strs := strings G dis (Z.to_nat 5000000) EmptyString seeded) in *.
  unfold Main.estimators in Hfed.
  apply Forall2_cons_inv_l in Hfed
    as ([name e] & objects' & [Hname Hexact] & _ & Hobjects).
  cbn [fst snd] in Hname, Hexact.
  rewrite ingest_exact in Hexact. injection Hexact as <-.
  rewrite Hobjects, Hname in Hdone. cbn [Main.report] in Hdone.
  unfold mbind at 1, outcome_bind in Hdone.
  cbn [Main.count] in Hdone. unfold dispatch, EE.count in Hdone.
  unfold mbind, outcome_bind in Hdone.
  destruct (Main.report libm_pow objects') as [rest | u]; [| discriminate].
  injection Hdone as <-.
  exists (length (remove_dups strs)), rest.
  split; [reflexivity |]. split.
  - now rewrite union_empty_r_L, size_list_to_set_distinct.
  - pose proof (length_remove_dups_le strs) as Hle.
    pose proof (main_strings_length G dis (Z.to_nat 5000000)
                  EmptyString seeded) as Hlen.
    fold strs in Hlen. lia.
Qed.
